(** * Modbus-TCP monitor (v0.8.0): address mapping, batching, decoding, polling

    A shallow embedding of [ModbusPyQt/test_0.8.0.py]: the utilities
    [parse_int], [build_mapping], [plc_to_modbus], [_normalize_type] and
    [load_points], and the worker's [_make_batches], [_decode_value],
    [_batch_start] and the polling loop of [run], then the worker object, the
    whole of [run] and the handlers of [MainWindow], followed by the
    properties proved of them.

    Python integers are unbounded, so they are [Z]; text is [string]
    (cells are taken to hold ASCII text); a raised exception is an explicit
    error result; the protocol client is a state machine that answers each
    read. *)

From Stdlib Require Import ZArith Ascii Floats.SpecFloat.
From stdpp Require Import base tactics option numbers strings list sorting gmap pretty.

Open Scope Z_scope.

(** ** Data classes *)

Module ModbusPoint.
Record t := Build {
  label : string;
  method : string;
  offset : Z;
  size : Z;             (* 1 or 2 *)
  fmt : string;         (* "bit" | "u16" | "s16" | "s32" *)
  mem : string;
  plc_addr : Z
}.
End ModbusPoint.

Module Batch.
Record t := Build {
  method : string;
  start : Z;
  count : Z;
  points : list ModbusPoint.t   (* the points the batch holds *)
}.
End Batch.

(** ** Exceptions and cell values *)

(** The exceptions the modelled code raises.  A [ValueError] carries which of
    the source's [raise ValueError(...)] (or which builtin) produced it. *)
Inductive value_error :=
  | MissingColumns                                  (* build_mapping: required columns *)
  | OutOfMapping (mem : string) (plc_addr : Z)      (* plc_to_modbus: outside the mapped range *)
  | UnsupportedMem (mem : string)                   (* load_points: unsupported memory type *)
  | InvalidLiteral                                  (* int() of text it refuses, or of NaN *)
  | TooManyDigits.                                  (* str() of an integer beyond the limit of digits *)

Inductive exn :=
  | KeyError (key : string)
  | ValueError (why : value_error)
  | OverflowError
  | TypeError
  | IndexError
  | RuntimeError.

Inductive result (A : Type) :=
  | Ok (a : A)
  | Raise (e : exn).
Arguments Ok {A} a.
Arguments Raise {A} e.

(** Sequencing: the first exception raised ends the computation.  With these
    instances [x ← r; k] runs [r] and goes on with [k] on its value. *)
Global Instance result_ret : MRet result := λ A a, Ok a.
Global Instance result_bind : MBind result := λ A B k r,
  match r with
  | Ok a => k a
  | Raise e => Raise e
  end.

(** [try: ... except Exception: handler] *)
Definition try_except {A} (r : result A) (handler : A) : A :=
  match r with
  | Ok a => a
  | Raise _ => handler
  end.

(** What a spreadsheet cell holds once pandas has read it: an integer, a
    float (an empty cell is the float NaN), text, or [None] where a row is
    asked with [.get] for a column the sheet does not have.  A float is its
    sign, mantissa and exponent, so that [int()] of it is exact.  A number in
    a cell is a spreadsheet number, far below the size at which [str] of an
    integer is refused. *)
Inductive cell :=
  | CNone
  | CInt (z : Z)
  | CFloat (f : spec_float)
  | CStr (s : string).

(** [pd.isna] *)
Definition isna (val : cell) : bool :=
  match val with
  | CNone | CFloat S754_nan => true
  | _ => false
  end.

(** ** Text helpers *)

(** [str.isspace] on one ASCII character: tab to carriage return, the four
    separators 28 to 31, and the space. *)
Definition py_isspace (c : ascii) : bool :=
  let n := N_of_ascii c in
  ((9 <=? n) && (n <=? 13) || (28 <=? n) && (n <=? 32))%N.

Definition upper_char (c : ascii) : ascii :=
  let n := N_of_ascii c in
  if ((97 <=? n) && (n <=? 122))%N then ascii_of_N (n - 32) else c.

Definition lower_char (c : ascii) : ascii :=
  let n := N_of_ascii c in
  if ((65 <=? n) && (n <=? 90))%N then ascii_of_N (n + 32) else c.

Fixpoint map_string (f : ascii → ascii) (s : string) : string :=
  match s with
  | EmptyString => EmptyString
  | String c s' => String (f c) (map_string f s')
  end.

(** [str.upper], [str.lower] *)
Definition upper : string → string := map_string upper_char.
Definition lower : string → string := map_string lower_char.

Fixpoint lstrip (s : string) : string :=
  match s with
  | String c s' => if py_isspace c then lstrip s' else s
  | EmptyString => EmptyString
  end.

(** [str.strip] *)
Definition strip (s : string) : string :=
  String.rev (lstrip (String.rev (lstrip s))).

(** [c in txt] for a one-character [c] *)
Fixpoint contains_char (txt : string) (c : ascii) : bool :=
  match txt with
  | EmptyString => false
  | String d txt' => bool_decide (d = c) || contains_char txt' c
  end.

Fixpoint any_char (f : ascii → bool) (s : string) : bool :=
  match s with
  | EmptyString => false
  | String c s' => f c || any_char f s'
  end.

(** ** [int()] *)

(** The white space [int()] skips around ASCII text: tab to carriage return
    and the space, not the four separators that [str.strip] also removes. *)
Definition int_isspace (c : ascii) : bool :=
  let n := N_of_ascii c in
  ((9 <=? n) && (n <=? 13) || (n =? 32))%N.

Fixpoint int_lstrip (s : string) : string :=
  match s with
  | String c s' => if int_isspace c then int_lstrip s' else s
  | EmptyString => EmptyString
  end.

Definition int_strip (s : string) : string :=
  String.rev (int_lstrip (String.rev (int_lstrip s))).

(** [sys.int_max_str_digits] at its default: the most decimal digits that
    [int()] reads from text and that [str()] writes. *)
Definition int_max_str_digits : Z := 4300.

(** The digits of a literal: its characters other than underscores. *)
Fixpoint digit_count (s : string) : Z :=
  match s with
  | EmptyString => 0
  | String c s' => (if bool_decide (c = "_"%char) then 0 else 1) + digit_count s'
  end.

(** The number of decimal digits of an integer. *)
Definition decimal_digits (z : Z) : Z :=
  Z.of_nat (String.length (pretty (Z.abs z))).

(** [str(z)] for an integer. *)
Definition str_of_int (z : Z) : result string :=
  if decide (decimal_digits z ≤ int_max_str_digits) then Ok (pretty z)
  else Raise (ValueError TooManyDigits).

(** [int(f)] for a float: the value with its fraction dropped.  A finite
    float is [±m·2^e]; [Z.quot] is the division that rounds toward zero. *)
Definition float_num (s : bool) (m : positive) (e : Z) : Z :=
  (if s then Z.neg m else Z.pos m) * 2 ^ Z.max e 0.
Definition float_den (e : Z) : Z := 2 ^ Z.max (- e) 0.

Definition int_of_float (f : spec_float) : result Z :=
  match f with
  | S754_zero _ => Ok 0
  | S754_infinity _ => Raise OverflowError
  | S754_nan => Raise (ValueError InvalidLiteral)
  | S754_finite s m e => Ok (Z.quot (float_num s m e) (float_den e))
  end.

(** The value of a digit character in bases up to 36. *)
Definition digit_value (c : ascii) : option Z :=
  let n := Z.of_N (N_of_ascii c) in
  if (48 <=? n) && (n <=? 57) then Some (n - 48)
  else if (97 <=? n) && (n <=? 122) then Some (n - 87)
  else if (65 <=? n) && (n <=? 90) then Some (n - 55)
  else None.

(** The digits of an integer literal: digits of the base, with single
    underscores allowed between them. [prev] tells whether the character
    before was an underscore. *)
Fixpoint int_digits (base acc : Z) (prev : bool) (s : string) : option Z :=
  match s with
  | EmptyString => if prev then None else Some acc
  | String c s' =>
      if bool_decide (c = "_"%char) then
        if prev then None else int_digits base acc true s'
      else
        match digit_value c with
        | Some d =>
            if d <? base then int_digits base (acc * base + d) false s'
            else None
        | None => None
        end
  end.

(** [int(txt, base)] for [base] 10 or 16: surrounding blanks, an optional
    sign, for base 16 an optional [0x] or [0X] (which one underscore may
    follow), then at least one digit.  In base 10, as in every base that is
    not a power of two, text of more digits than the limit is refused. *)
Definition int_of_str (base : Z) (txt : string) : result Z :=
  let txt := int_strip txt in
  let '(neg, body) :=
    match txt with
    | String "-"%char r => (true, r)
    | String "+"%char r => (false, r)
    | _ => (false, txt)
    end in
  let body :=
    match body with
    | String "0"%char (String x r) =>
        if bool_decide (base = 16)
           && (bool_decide (x = "x"%char) || bool_decide (x = "X"%char))
        then match r with String "_"%char r' => r' | _ => r end
        else body
    | _ => body
    end in
  match body with
  | EmptyString | String "_"%char _ => Raise (ValueError InvalidLiteral)
  | _ =>
      match int_digits base 0 false body with
      | Some v =>
          if bool_decide (base = 10) && (int_max_str_digits <? digit_count body)
          then Raise (ValueError InvalidLiteral)
          else Ok (if neg then - v else v)
      | None => Raise (ValueError InvalidLiteral)
      end
  end.

(** ** [parse_int] *)

(** [str(val)] for a value that is neither an integer nor a float. *)
Definition str_of_text (val : cell) : string :=
  match val with
  | CStr s => s
  | _ => "None"
  end.

(** [any(c in txt.upper() for c in "ABCDEF")] *)
Definition any_hex_letter (txt : string) : bool :=
  any_char (contains_char (upper txt)) "ABCDEF".

Definition parse_int (val : cell) : result Z :=
  match val with
  | CInt z => Ok z
  | CFloat f => int_of_float f
  | _ =>
      let txt := strip (str_of_text val) in
      if any_hex_letter txt then int_of_str 16 txt else int_of_str 10 txt
  end.

(** ** The address map: [build_mapping] and [plc_to_modbus] *)

(** One mapping rule, the dictionary
    [{"plc_base": ..., "mb_base": ..., "count": ...}]. *)
Module Segment.
Record t := Build {
  plc_base : Z;
  mb_base : Z;
  count : Z
}.
End Segment.

(** A stable insertion sort on an integer key, for [list.sort(key=...)]:
    Python's sort is stable, and a stable sort is a function of its input
    alone.  The head of the list comes before the rest in the input, so it is
    put in front of every element whose key is not smaller. *)
Section stable_sort.
Context {A : Type} (key : A → Z).

Fixpoint insert_by_key (x : A) (l : list A) : list A :=
  match l with
  | [] => [x]
  | y :: l' =>
      if decide (key x ≤ key y) then x :: y :: l'
      else y :: insert_by_key x l'
  end.

Fixpoint sort_by_key (l : list A) : list A :=
  match l with
  | [] => []
  | x :: l' => insert_by_key x (sort_by_key l')
  end.
End stable_sort.

(** A sheet as pandas hands it over: its column names, and its rows, each a
    finite map from column name to cell. *)
Record DataFrame := {
  columns : list string;
  rows : list (gmap string cell)
}.

(** [r[col]] *)
Definition row_item (r : gmap string cell) (col : string) : result cell :=
  match r !! col with
  | Some c => Ok c
  | None => Raise (KeyError col)
  end.

(** [r.get(col)] *)
Definition row_get (r : gmap string cell) (col : string) : cell :=
  default CNone (r !! col).

(** [int(val)] for a cell. *)
Definition int_of_cell (val : cell) : result Z :=
  match val with
  | CInt z => Ok z
  | CFloat f => int_of_float f
  | CStr s => int_of_str 10 s
  | CNone => Raise TypeError
  end.

Definition required : list string :=
  ["mem"; "plc_addr"; "start_number"; "assignment_points"].

(** [for seg in mapping[mem]: if ...: return ...] followed by the [raise]. *)
Fixpoint find_segment (mem : string) (plc_addr : Z) (segs : list Segment.t)
    : result Z :=
  match segs with
  | [] => Raise (ValueError (OutOfMapping mem plc_addr))
  | seg :: segs' =>
      if decide (Segment.plc_base seg ≤ plc_addr
                 < Segment.plc_base seg + Segment.count seg)
      then Ok (Segment.mb_base seg + (plc_addr - Segment.plc_base seg))
      else find_segment mem plc_addr segs'
  end.

(** [mapping[mem]] raises [KeyError] when the key is absent. *)
Definition plc_to_modbus (mem : string) (plc_addr : Z)
    (mapping : gmap string (list Segment.t)) : result Z :=
  match mapping !! mem with
  | None => Raise (KeyError mem)
  | Some segs => find_segment mem plc_addr segs
  end.

(** ** Spreadsheet rows to points: [_normalize_type] and [load_points] *)

Definition MEM_METHOD : gmap string string :=
  list_to_map [("M", "read_coils"); ("L", "read_coils"); ("Y", "read_coils");
               ("X", "read_discrete_inputs"); ("D", "read_holding_registers")].

Definition _normalize_type (tp_val : cell) : result string :=
  if isna tp_val then Ok ""
  else
    tp_val ← match tp_val with
             | CInt z => Ok (pretty z)
             | CFloat f => z ← int_of_float f; Ok (pretty z)
             | _ => Ok (str_of_text tp_val)
             end;
    let tp := lower (strip tp_val) in
    if decide (tp ∈ ["16"; "s16"; "int16"]) then Ok "s16"
    else if decide (tp ∈ ["u16"; "uint16"]) then Ok "u16"
    else Ok "".

(** The block of [load_points] that decides [size] and [fmt]. *)
Definition point_type (mem : string) (tp_val : cell) : result (Z * string) :=
  if decide (mem = "D") then
    tp_norm ← _normalize_type tp_val;
    if decide (tp_norm = "s16") then Ok (1, "s16")
    else if decide (tp_norm = "u16") then Ok (1, "u16")
    else Ok (2, "s32")
  else Ok (1, "bit").

Section spreadsheet.
(** [str(f)] for a float, Python's shortest round-trip notation, is not
    modelled: the functions below take it as given. *)
Variable float_repr : spec_float → string.

(** [str(val)] *)
Definition py_str (val : cell) : string :=
  match val with
  | CNone => "None"
  | CInt z => pretty z
  | CFloat f => float_repr f
  | CStr s => s
  end.

(** The body of the loop of [build_mapping]:
    [mp.setdefault(mem, []).append({...})]. *)
Definition mapping_add (mp : gmap string (list Segment.t))
    (r : gmap string cell) : result (gmap string (list Segment.t)) :=
  c_mem ← row_item r "mem";
  let mem := upper (strip (py_str c_mem)) in
  plc_base ← row_item r "plc_addr" ≫= parse_int;
  mb_base ← row_item r "start_number" ≫= parse_int;
  count ← row_item r "assignment_points" ≫= int_of_cell;
  Ok (<[mem := default [] (mp !! mem)
               ++ [Segment.Build plc_base mb_base count]]> mp).

Fixpoint mapping_rows (mp : gmap string (list Segment.t))
    (rs : list (gmap string cell)) : result (gmap string (list Segment.t)) :=
  match rs with
  | [] => Ok mp
  | r :: rs' => mp' ← mapping_add mp r; mapping_rows mp' rs'
  end.

Definition build_mapping (df : DataFrame)
    : result (gmap string (list Segment.t)) :=
  if decide (Forall (λ col, col ∈ columns df) required) then
    mp ← mapping_rows ∅ (rows df);
    Ok (sort_by_key Segment.plc_base <$> (mp : gmap string (list Segment.t)))
  else Raise (ValueError MissingColumns).

(** The label of a point:
    [str(r.get("desc")) if pd.notna(r.get("desc")) else f"{mem}{plc_addr}"]. *)
Definition point_label (r : gmap string cell) (mem : string) (plc_addr : Z)
    : result string :=
  if isna (row_get r "desc") then txt ← str_of_int plc_addr; Ok (mem +:+ txt)
  else Ok (py_str (row_get r "desc")).

(** The body of the loop of [load_points]. *)
Definition load_point (mapping : gmap string (list Segment.t))
    (r : gmap string cell) : result ModbusPoint.t :=
  c_mem ← row_item r "mem";
  let mem := upper (strip (py_str c_mem)) in
  plc_addr ← row_item r "plc_addr" ≫= parse_int;
  label ← point_label r mem plc_addr;
  mb_addr ← plc_to_modbus mem plc_addr mapping;
  match MEM_METHOD !! mem with
  | None => Raise (ValueError (UnsupportedMem mem))
  | Some method =>
      '(size, fmt) ← point_type mem (row_get r "type");
      Ok (ModbusPoint.Build label method mb_addr size fmt mem plc_addr)
  end.

Fixpoint load_rows (mapping : gmap string (list Segment.t))
    (rs : list (gmap string cell)) (points : list ModbusPoint.t)
    : result (list ModbusPoint.t) :=
  match rs with
  | [] => Ok points
  | r :: rs' =>
      pt ← load_point mapping r;
      load_rows mapping rs' (points ++ [pt])
  end.

(** [load_points], on the two sheets already read. *)
Definition load_points (mp_df cfg_df : DataFrame)
    : result (list ModbusPoint.t) :=
  mapping ← build_mapping mp_df;
  load_rows mapping (rows cfg_df) [].
End spreadsheet.
Arguments point_label : simpl never.

(** ** Batching: [ModbusWorker._make_batches] *)

(** [grouped[pt.method].append(pt)] on a [defaultdict(list)].  Iterating the
    dictionary later follows the order in which keys were first inserted, so
    the dictionary is an association list with new keys added at the end. *)
Fixpoint grouped_append (grouped : list (string * list ModbusPoint.t))
    (pt : ModbusPoint.t) : list (string * list ModbusPoint.t) :=
  match grouped with
  | [] => [(ModbusPoint.method pt, [pt])]
  | (m, pts) :: grouped' =>
      if decide (m = ModbusPoint.method pt)
      then (m, pts ++ [pt]) :: grouped'
      else (m, pts) :: grouped_append grouped' pt
  end.

(** [for pt in points: grouped[pt.method].append(pt)] *)
Definition group_points (points : list ModbusPoint.t)
    : list (string * list ModbusPoint.t) :=
  fold_left grouped_append points [].

(** The inner loop
    [while i < len(pts) and pts[i].offset == end: batch_pts.append(pts[i]);
     end += pts[i].size; i += 1].
    The argument [pts] is the part [pts[i:]] that is still to be visited; the
    result is the final [end], [batch_pts] and [pts[i:]]. *)
Fixpoint extend (end_ : Z) (batch_pts pts : list ModbusPoint.t)
    : Z * list ModbusPoint.t * list ModbusPoint.t :=
  match pts with
  | pt :: pts' =>
      if decide (ModbusPoint.offset pt = end_)
      then extend (end_ + ModbusPoint.size pt) (batch_pts ++ [pt]) pts'
      else (end_, batch_pts, pts)
  | [] => (end_, batch_pts, [])
  end.

(** The outer loop [while i < len(pts): ...; batches.append(Batch(...))],
    again on [pts[i:]].  Each round consumes at least [pts[i]], so
    [len(pts)] rounds are enough; [fuel] counts the rounds left. *)
Fixpoint scan (fuel : nat) (method : string) (pts : list ModbusPoint.t)
    (batches : list Batch.t) : list Batch.t :=
  match fuel, pts with
  | S fuel', pt :: pts' =>
      let start := ModbusPoint.offset pt in
      let '(end_, batch_pts, rest) :=
        extend (start + ModbusPoint.size pt) [pt] pts' in
      scan fuel' method rest
        (batches ++ [Batch.Build method start (end_ - start) batch_pts])
  | _, _ => batches
  end.

Definition _make_batches (points : list ModbusPoint.t) : list Batch.t :=
  let grouped := group_points points in
  fold_left
    (λ batches '(method, pts),
       let pts := sort_by_key ModbusPoint.offset pts in
       scan (length pts) method pts batches)
    grouped [].

(** ** Decoding: [ModbusWorker._decode_value] *)

Definition _u16_to_s16 (x : Z) : Z :=
  if decide (Z.land x 0x8000 ≠ 0) then x - 0x10000 else x.
Definition _u32_to_s32 (x : Z) : Z :=
  if decide (Z.land x 0x80000000 ≠ 0) then x - 0x100000000 else x.

(** The dictionary kept per batch in one tick: [{}] after a failed read,
    [{"start", "bits"}] or [{"start", "regs"}] after a good one. *)
Module BatchData.
Record t := Build {
  start : option Z;
  bits : option (list bool);
  regs : option (list Z)
}.
Definition empty : t := Build None None None.
(** [not data]: a dictionary is false when it has no key. *)
Definition is_empty (data : t) : bool :=
  match data with
  | Build None None None => true
  | _ => false
  end.
End BatchData.

(** [data[key]] *)
Definition dict_item {A} (field : option A) (key : string) : result A :=
  match field with
  | Some a => Ok a
  | None => Raise (KeyError key)
  end.

(** [l[i]] on a Python list: a negative index counts from the end. *)
Definition py_index {A} (l : list A) (i : Z) : result A :=
  let n := Z.of_nat (length l) in
  let j := if decide (i < 0) then i + n else i in
  if decide (0 ≤ j < n) then
    match l !! Z.to_nat j with
    | Some a => Ok a
    | None => Raise IndexError
    end
  else Raise IndexError.

Definition _decode_value (pt : ModbusPoint.t) (data : BatchData.t) : result Z :=
  start ← dict_item (BatchData.start data) "start";
  let idx := ModbusPoint.offset pt - start in
  if decide (ModbusPoint.method pt ∈ ["read_coils"; "read_discrete_inputs"]) then
    bits ← dict_item (BatchData.bits data) "bits";
    b ← py_index bits idx;
    Ok (Z.b2z b)
  else if decide (ModbusPoint.size pt = 1) then
    regs ← dict_item (BatchData.regs data) "regs";
    raw ← py_index regs idx;
    if decide (ModbusPoint.fmt pt = "s16") then Ok (_u16_to_s16 raw)
    else Ok raw
  else
    regs ← dict_item (BatchData.regs data) "regs";
    low ← py_index regs idx;
    high ← py_index regs (idx + 1);
    let val := Z.lor (Z.shiftl high 16) low in
    Ok (_u32_to_s32 val).

(** ** The polling loop: [ModbusWorker._batch_start] and [ModbusWorker.run] *)

(** [self._batches] is passed as an argument. *)
Fixpoint _batch_start (batches : list Batch.t) (pt : ModbusPoint.t) : result Z :=
  match batches with
  | [] => Raise RuntimeError
  | b :: batches' =>
      if decide (Batch.method b = ModbusPoint.method pt
                 ∧ Batch.start b ≤ ModbusPoint.offset pt
                                 < Batch.start b + Batch.count b)
      then Ok (Batch.start b)
      else _batch_start batches' pt
  end.

(** What a read returns: [rr.isError()], [rr.bits], [rr.registers]. *)
Record Response := {
  isError : bool;
  bits : list bool;
  registers : list Z
}.

(** The dictionary stored for a batch whose read returned [rr]. *)
Definition batch_entry (b : Batch.t) (rr : Response) : BatchData.t :=
  if isError rr then BatchData.empty
  else if decide (Batch.method b ∈ ["read_coils"; "read_discrete_inputs"])
  then BatchData.Build (Some (Batch.start b)) (Some (bits rr)) None
  else BatchData.Build (Some (Batch.start b)) None (Some (registers rr)).

Section poll.
(** The protocol client: [await getattr(client, method)(start, count=count)]
    either returns a response or raises, and leaves the client (and the
    device behind it) in a new state. *)
Context {Client : Type}.
Variable call : Client → string → Z → Z → result Response * Client.

(** [for b in self._batches: ...], the reads of one tick. *)
Fixpoint read_batches (client : Client) (batches : list Batch.t)
    (batch_data : gmap (string * Z) BatchData.t)
    : result (gmap (string * Z) BatchData.t) * Client :=
  match batches with
  | [] => (Ok batch_data, client)
  | b :: batches' =>
      match call client (Batch.method b) (Batch.start b) (Batch.count b) with
      | (Ok rr, client') =>
          read_batches client' batches'
            (<[(Batch.method b, Batch.start b) := batch_entry b rr]> batch_data)
      | (Raise e, client') => (Raise e, client')
      end
  end.

(** The value of one point in the row: the body of
    [for pt in self.points: ...]. *)
Definition point_value (batches : list Batch.t)
    (batch_data : gmap (string * Z) BatchData.t) (pt : ModbusPoint.t)
    : result Z :=
  start ← _batch_start batches pt;
  let key := (ModbusPoint.method pt, start) in
  let bdat := default BatchData.empty (batch_data !! key) in
  if BatchData.is_empty bdat then Ok (-1)
  else Ok (try_except (_decode_value pt bdat) (-1)).

Fixpoint row_values (batches : list Batch.t)
    (batch_data : gmap (string * Z) BatchData.t)
    (points : list ModbusPoint.t) (row_vals : list Z) : result (list Z) :=
  match points with
  | [] => Ok row_vals
  | pt :: points' =>
      val ← point_value batches batch_data pt;
      row_values batches batch_data points' (row_vals ++ [val])
  end.

(** One round of [while self._running]: the row handed to the writer, or
    the exception that leaves the loop. *)
Definition tick (batches : list Batch.t) (points : list ModbusPoint.t)
    (client : Client) : result (list Z) * Client :=
  match read_batches client batches ∅ with
  | (Ok batch_data, client') =>
      (row_values batches batch_data points [], client')
  | (Raise e, client') => (Raise e, client')
  end.

(** The loop itself.  [running] lists the values [self._running] has at
    each test of the loop condition; the result is the rows written and,
    if an exception ended the loop, that exception. *)
Fixpoint run_loop (batches : list Batch.t) (points : list ModbusPoint.t)
    (running : list bool) (client : Client) (written : list (list Z))
    : list (list Z) * option exn * Client :=
  match running with
  | true :: running' =>
      match tick batches points client with
      | (Ok row_vals, client') =>
          run_loop batches points running' client' (written ++ [row_vals])
      | (Raise e, client') => (written, Some e, client')
      end
  | _ => (written, None, client)
  end.
End poll.

(** ** The worker object: [ModbusWorker.__init__] and [ModbusWorker.stop] *)

(** The fields of a worker that the code reads again; [ip] and [port] are
    only handed to the client. *)
Module ModbusWorker.
Record t := Build {
  points : list ModbusPoint.t;
  interval : spec_float;
  _running : bool;
  _batches : list Batch.t
}.

(** [__init__] *)
Definition init (points : list ModbusPoint.t) (interval : spec_float) : t :=
  Build points interval true (_make_batches points).

Definition stop (self : t) : t :=
  Build (points self) (interval self) false (_batches self).
End ModbusWorker.

(** ** The whole of [ModbusWorker.run] *)

(** What [run] does to the outside: the signals it emits and the rows it
    hands to the CSV writer. *)
Inductive output :=
  | LogConnectFailed                            (* log_ready: connection failed *)
  | LogFile                                     (* log_ready: name of the CSV file *)
  | WriteRow (fields : list cell)               (* writer.writerow(...) *)
  | LogRow (ts : string) (row_vals : list Z)    (* log_ready: ts and row_vals *)
  | LogError (e : exn)                          (* log_ready: the exception *)
  | ClientClose                                 (* client.close() *)
  | EmitFinished.                               (* finished.emit() *)

Section worker_run.
Context {Client : Type}.
Variable call : Client → string → Z → Z → result Response * Client.
(** [await client.connect()] *)
Variable connect : Client → result bool * Client.
(** The text [ts] made from [datetime.now()] when row number [n] is written. *)
Variable timestamp : nat → string.

(** [while self._running: ...] with its two outputs per round; [n] counts
    the rows written before. *)
Fixpoint run_rows (batches : list Batch.t) (points : list ModbusPoint.t)
    (running : list bool) (client : Client) (n : nat)
    : list output * option exn * Client :=
  match running with
  | true :: running' =>
      match tick call batches points client with
      | (Ok row_vals, client') =>
          let ts := timestamp n in
          let '(out, e, client'') :=
            run_rows batches points running' client' (S n) in
          (WriteRow (CStr ts :: (CInt <$> row_vals)) :: LogRow ts row_vals :: out,
           e, client'')
      | (Raise e, client') => ([], Some e, client')
      end
  | _ => ([], None, client)
  end.

(** [try: ... except Exception as e: ... finally: ...].  Opening the file,
    writing to it and sleeping are taken not to raise. *)
Definition run (batches : list Batch.t) (points : list ModbusPoint.t)
    (running : list bool) (client : Client) : list output * Client :=
  let '(out, e, client') :=
    match connect client with
    | (Raise e, client') => ([], Some e, client')
    | (Ok false, client') => ([LogConnectFailed], None, client')
    | (Ok true, client') =>
        let '(out, e, client'') := run_rows batches points running client' 0 in
        (LogFile
         :: WriteRow (CStr "timestamp" :: (CStr ∘ ModbusPoint.label <$> points))
         :: out, e, client'')
    end in
  (out ++ match e with Some e => [LogError e] | None => [] end
       ++ [ClientClose; EmitFinished],
   client').
End worker_run.

(** ** The window: [MainWindow] *)

(** [0.05] as the float it is. *)
Definition min_interval : spec_float :=
  S754_finite false 7205759403792794 (-57).

(** The state of the window the handlers read and write: the worker and
    whether the two buttons are enabled.  Dialogs and the log text are left
    out. *)
Module MainWindow.
Record t := Build {
  worker : option ModbusWorker.t;
  start_enabled : bool;
  stop_enabled : bool
}.

(** [__init__] and [_build_ui]: no worker, [Start] enabled as a new button
    is, [self.stop.setEnabled(False)]. *)
Definition init : t := Build None true false.

(** [start_poll]; [interval] is [self.interval.value()] and [loaded] what
    [self._load_points()] returns or raises. *)
Definition start_poll (interval : spec_float)
    (loaded : result (list ModbusPoint.t)) (self : t) : t :=
  match worker self with
  | Some _ => self
  | None =>
      if SFltb interval min_interval then self
      else
        match loaded with
        | Raise _ => self
        | Ok points =>
            Build (Some (ModbusWorker.init points interval)) false true
        end
  end.

Definition stop_poll (self : t) : t :=
  match worker self with
  | Some w => Build (Some (ModbusWorker.stop w)) (start_enabled self) false
  | None => self
  end.

Definition on_finished (self : t) : t :=
  Build None true (stop_enabled self).

Definition closeEvent (self : t) : t :=
  match worker self with
  | Some w =>
      Build (Some (ModbusWorker.stop w)) (start_enabled self) (stop_enabled self)
  | None => self
  end.

(** What can happen to the window. *)
Inductive event :=
  | StartClicked (interval : spec_float) (loaded : result (list ModbusPoint.t))
  | StopClicked
  | WorkerFinished
  | WindowClosed.

Definition handle (self : t) (ev : event) : t :=
  match ev with
  | StartClicked interval loaded => start_poll interval loaded self
  | StopClicked => stop_poll self
  | WorkerFinished => on_finished self
  | WindowClosed => closeEvent self
  end.

(** The window after the events [evs]. *)
Definition after (evs : list event) : t := fold_left handle evs init.
End MainWindow.

(** * Specification vocabulary

    The notions the statements below are written in. *)

(** [seg] maps the logical address [a]. *)
Definition covers (seg : Segment.t) (a : Z) : Prop :=
  Segment.plc_base seg ≤ a < Segment.plc_base seg + Segment.count seg.

(** No address is mapped by two segments of the list. *)
Definition segments_disjoint (segs : list Segment.t) : Prop :=
  ∀ i j si sj a,
    i ≠ j → segs !! i = Some si → segs !! j = Some sj →
    covers si a → ¬ covers sj a.

(** The segments a category has in the map: none when it is not a key. *)
Definition segments_of (mapping : gmap string (list Segment.t)) (mem : string)
    : list Segment.t :=
  default [] (mapping !! mem).

(** The category has no segments, or none of them maps [a]. *)
Definition unmapped (mapping : gmap string (list Segment.t)) (mem : string)
    (a : Z) : Prop :=
  segments_of mapping mem = [] ∨ ∀ seg, seg ∈ segments_of mapping mem → ¬ covers seg a.

(** The characters of a text. *)
Fixpoint chars (s : string) : list ascii :=
  match s with
  | EmptyString => []
  | String c s' => c :: chars s'
  end.

(** The letters A to F in both cases. *)
Definition hex_letters : list ascii :=
  chars "abcdefABCDEF".

(** The text contains one of the letters A to F, in either case. *)
Definition has_hex_letter (txt : string) : Prop :=
  ∃ c, c ∈ chars txt ∧ c ∈ hex_letters.

(** The hints the loader recognizes, once trimmed and put in lower case. *)
Definition recognized_hints : list string :=
  ["16"; "s16"; "int16"; "u16"; "uint16"].

(** [a] lies in the footprint [offset, offset + size) of [p]. *)
Definition in_footprint (p : ModbusPoint.t) (a : Z) : Prop :=
  ModbusPoint.offset p ≤ a < ModbusPoint.offset p + ModbusPoint.size p.

Definition footprints_overlap (p q : ModbusPoint.t) : Prop :=
  ∃ a, in_footprint p a ∧ in_footprint q a.

(** No two points of the list that are read with the same method have
    overlapping footprints. *)
Definition no_overlap (points : list ModbusPoint.t) : Prop :=
  ∀ i j p q,
    i ≠ j → points !! i = Some p → points !! j = Some q →
    ModbusPoint.method p = ModbusPoint.method q → ¬ footprints_overlap p q.

(** Every point is at least one unit wide (the loader makes them 1 or 2). *)
Definition positive_sizes (points : list ModbusPoint.t) : Prop :=
  Forall (λ p, 0 < ModbusPoint.size p) points.

(** The range [start, start + count) of [b] contains the footprint of [p]. *)
Definition covers_point (b : Batch.t) (p : ModbusPoint.t) : Prop :=
  Batch.start b ≤ ModbusPoint.offset p
  ∧ ModbusPoint.offset p + ModbusPoint.size p ≤ Batch.start b + Batch.count b.

(** [pts] is a run without gaps from [e] to [e']. *)
Fixpoint contiguous (e : Z) (pts : list ModbusPoint.t) (e' : Z) : Prop :=
  match pts with
  | [] => e' = e
  | p :: pts' =>
      ModbusPoint.offset p = e ∧ contiguous (e + ModbusPoint.size p) pts' e'
  end.

(** What the two loops make of the sorted points of one method: each batch is
    a point followed by the longest run that continues it. *)
Inductive batched (m : string) : list ModbusPoint.t → list Batch.t → Prop :=
  | batched_nil : batched m [] []
  | batched_cons p taken rest e' bs :
      contiguous (ModbusPoint.offset p + ModbusPoint.size p) taken e' →
      (∀ q, head rest = Some q → ModbusPoint.offset q ≠ e') →
      batched m rest bs →
      batched m (p :: taken ++ rest)
        (Batch.Build m (ModbusPoint.offset p) (e' - ModbusPoint.offset p)
           (p :: taken) :: bs).

(** The batches of one method, from its points in sorted order. *)
Definition batches_of (m : string) (pts : list ModbusPoint.t) : list Batch.t :=
  scan (length pts) m pts [].

Definition has_method (m : string) (p : ModbusPoint.t) : Prop :=
  ModbusPoint.method p = m.
Global Instance has_method_dec m p : Decision (has_method m p).
Proof. unfold has_method. apply _. Defined.

(** The methods in the order in which [grouped] lists them. *)
Definition methods_of (points : list ModbusPoint.t) : list string :=
  (group_points points).*1.

(** The batches made for the points of method [m]. *)
Definition method_batches (points : list ModbusPoint.t) (m : string)
    : list Batch.t :=
  batches_of m (sort_by_key ModbusPoint.offset (filter (has_method m) points)).

(** [p] ends before [q] starts. *)
Definition before (p q : ModbusPoint.t) : Prop :=
  ModbusPoint.offset p + ModbusPoint.size p ≤ ModbusPoint.offset q.

(** [b1] ends before [b2] starts, with a gap between them. *)
Definition apart (b1 b2 : Batch.t) : Prop :=
  Batch.start b1 + Batch.count b1 < Batch.start b2.

(** Batches of the same method lie apart, the earlier one first. *)
Definition apart_in_method (b1 b2 : Batch.t) : Prop :=
  Batch.method b1 = Batch.method b2 → apart b1 b2.

(** The test of [_batch_start]. *)
Definition batch_matches (b : Batch.t) (pt : ModbusPoint.t) : Prop :=
  Batch.method b = ModbusPoint.method pt
  ∧ Batch.start b ≤ ModbusPoint.offset pt < Batch.start b + Batch.count b.

(** Points for the examples. *)
Definition d100 : ModbusPoint.t :=
  ModbusPoint.Build "D100" "read_holding_registers" 100 2 "s32" "D" 100.
Definition d101 : ModbusPoint.t :=
  ModbusPoint.Build "D101" "read_holding_registers" 101 2 "s32" "D" 101.
Definition d102 : ModbusPoint.t :=
  ModbusPoint.Build "D102" "read_holding_registers" 102 1 "s16" "D" 102.
Definition d101s : ModbusPoint.t :=
  ModbusPoint.Build "D101" "read_holding_registers" 101 1 "s16" "D" 101.
Definition m5 : ModbusPoint.t :=
  ModbusPoint.Build "M5" "read_coils" 5 1 "bit" "M" 5.

(** The [(start, count)] pairs of a batch list. *)
Definition ranges (bs : list Batch.t) : list (Z * Z) :=
  (λ b, (Batch.start b, Batch.count b)) <$> bs.

(** The response carries at least the [count] items that were asked for. *)
Definition full_response (b : Batch.t) (rr : Response) : Prop :=
  if decide (Batch.method b ∈ ["read_coils"; "read_discrete_inputs"])
  then Batch.count b ≤ Z.of_nat (length (bits rr))
  else Batch.count b ≤ Z.of_nat (length (registers rr)).

Section poll_spec.
Context {Client : Type}.
Variable call : Client → string → Z → Z → result Response * Client.

(** What the reads of one tick return, in order; the reading ends with the
    first one that raises. *)
Fixpoint reads (client : Client) (batches : list Batch.t)
    : list (result Response) :=
  match batches with
  | [] => []
  | b :: batches' =>
      let '(r, client') :=
        call client (Batch.method b) (Batch.start b) (Batch.count b) in
      r :: match r with
           | Ok _ => reads client' batches'
           | Raise _ => []
           end
  end.
End poll_spec.

Definition batch_key (b : Batch.t) : string * Z :=
  (Batch.method b, Batch.start b).

(** A device for the examples: the read that starts at [bad_start] comes back
    as an error, every other read brings one coil and three registers. *)
Definition stub_call (bad_start : Z) (client : unit) (method : string)
    (start count : Z) : result Response * unit :=
  (Ok (if decide (start = bad_start)
       then {| isError := true; bits := []; registers := [] |}
       else {| isError := false; bits := [true]; registers := [7; 9; 11] |}),
   client).

(** The widths of the points of a list, added up. *)
Definition total_size (pts : list ModbusPoint.t) : Z :=
  foldr (λ p n, ModbusPoint.size p + n) 0 pts.

(** The points of a batch list, batch after batch. *)
Definition batch_order (bs : list Batch.t) : list ModbusPoint.t :=
  bs ≫= Batch.points.

(** The category and the rule a row of the mapping sheet stands for. *)
Definition row_segment (float_repr : spec_float → string)
    (r : gmap string cell) : result (string * Segment.t) :=
  c_mem ← row_item r "mem";
  plc_base ← row_item r "plc_addr" ≫= parse_int;
  mb_base ← row_item r "start_number" ≫= parse_int;
  count ← row_item r "assignment_points" ≫= int_of_cell;
  Ok (upper (strip (py_str float_repr c_mem)),
      Segment.Build plc_base mb_base count).

(** The rules of category [mem] among [entries], in their order. *)
Definition rules_of (mem : string) (entries : list (string * Segment.t))
    : list Segment.t :=
  (filter (λ e, e.1 = mem) entries).*2.

(** The shapes a point can have: a bit read with one of the two bit methods,
    or a register read as one word (signed or not) or as two words. *)
Definition well_formed (pt : ModbusPoint.t) : Prop :=
  (ModbusPoint.mem pt ∈ ["M"; "L"; "Y"]
   ∧ ModbusPoint.method pt = "read_coils"
   ∧ ModbusPoint.size pt = 1 ∧ ModbusPoint.fmt pt = "bit")
  ∨ (ModbusPoint.mem pt = "X"
     ∧ ModbusPoint.method pt = "read_discrete_inputs"
     ∧ ModbusPoint.size pt = 1 ∧ ModbusPoint.fmt pt = "bit")
  ∨ (ModbusPoint.mem pt = "D"
     ∧ ModbusPoint.method pt = "read_holding_registers"
     ∧ (ModbusPoint.size pt = 1 ∧ ModbusPoint.fmt pt ∈ ["s16"; "u16"]
        ∨ ModbusPoint.size pt = 2 ∧ ModbusPoint.fmt pt = "s32")).

(** [c] is one of the digits 0 to 9. *)
Definition is_dec_digit (c : ascii) : Prop :=
  c ∈ chars "0123456789".

(** The characters of decimal text: the digits and the minus sign. *)
Definition decimal_text (s : string) : Prop :=
  Forall (λ c, c ∈ chars "0123456789-") (chars s).

(** A 16-bit word16. *)
Definition word16 (w : Z) : Prop := 0 ≤ w ≤ 65535.

(** How many times the loop condition holds before it first fails. *)
Fixpoint rounds (running : list bool) : nat :=
  match running with
  | true :: running' => S (rounds running')
  | _ => 0
  end.

(** A device whose read at [bad_start] raises. *)
Definition raising_call (bad_start : Z) (client : unit) (method : string)
    (start count : Z) : result Response * unit :=
  (if decide (start = bad_start) then Raise RuntimeError
   else Ok {| isError := false; bits := [true]; registers := [7; 9; 11] |},
   client).

(** The rows handed to the writer, in order. *)
Fixpoint written_rows (out : list output) : list (list cell) :=
  match out with
  | [] => []
  | WriteRow fields :: out' => fields :: written_rows out'
  | _ :: out' => written_rows out'
  end.

(** [out] holds neither the closing of the client nor the signal
    [finished]. *)
Definition still_open (out : list output) : Prop :=
  (ClientClose ∉ out) ∧ (EmitFinished ∉ out).

(** The two outputs for each of [rows], the first of them being row number
    [n] of the file. *)
Fixpoint rows_output (timestamp : nat → string) (n : nat)
    (rows : list (list Z)) : list output :=
  match rows with
  | [] => []
  | row_vals :: rows' =>
      WriteRow (CStr (timestamp n) :: (CInt <$> row_vals))
      :: LogRow (timestamp n) row_vals
      :: rows_output timestamp (S n) rows'
  end.

(** The outputs that end every run: the exception, if one left the loop,
    then closing the client and the signal [finished]. *)
Definition run_end (e : option exn) : list output :=
  match e with Some e => [LogError e] | None => [] end
  ++ [ClientClose; EmitFinished].

(** Sheets for the examples: [str] of a float is not needed for them. *)
Definition example_float_repr (f : spec_float) : string := "nan".

Definition sheet_row (mem plc_addr start_number assignment_points : cell)
    : gmap string cell :=
  {[ "mem" := mem; "plc_addr" := plc_addr; "start_number" := start_number;
     "assignment_points" := assignment_points ]}.

Definition example_mapping_sheet : DataFrame :=
  {| columns := ["mem"; "plc_addr"; "start_number"; "assignment_points"];
     rows := [sheet_row (CStr "d") (CInt 4000) (CInt 1000) (CInt 200);
              sheet_row (CStr "D") (CInt 0) (CInt 0) (CInt 1000);
              sheet_row (CStr " m ") (CStr "0") (CInt 0) (CFloat (S754_finite false 1 6))] |}.

(** The map and the points these sheets give. *)
Definition example_mapping : gmap string (list Segment.t) :=
  {[ "D" := [Segment.Build 0 0 1000; Segment.Build 4000 1000 200];
     "M" := [Segment.Build 0 0 64] ]}.

Definition example_config_sheet : DataFrame :=
  {| columns := ["mem"; "plc_addr"; "desc"; "type"];
     rows := [{[ "mem" := CStr "D"; "plc_addr" := CInt 4100;
                 "desc" := CStr "speed"; "type" := CInt 16 ]};
              {[ "mem" := CStr "m"; "plc_addr" := CStr "1F";
                 "desc" := CFloat S754_nan; "type" := CFloat S754_nan ]};
              {[ "mem" := CStr "D"; "plc_addr" := CInt 10;
                 "desc" := CStr "total"; "type" := CFloat S754_nan ]}] |}.

(** A configuration sheet whose second row names a category that is not
    mapped. *)
Definition example_bad_config_sheet : DataFrame :=
  {| columns := ["mem"; "plc_addr"];
     rows := [{[ "mem" := CStr "D"; "plc_addr" := CInt 10 ]};
              {[ "mem" := CStr "Z"; "plc_addr" := CInt 1 ]};
              {[ "mem" := CStr "D"; "plc_addr" := CStr "x" ]}] |}.

(** A configuration sheet whose row has an infinite number as its hint. *)
Definition example_infinite_hint_sheet : DataFrame :=
  {| columns := ["mem"; "plc_addr"; "type"];
     rows := [{[ "mem" := CStr "D"; "plc_addr" := CInt 10;
                 "type" := CFloat (S754_infinity false) ]}] |}.

Definition example_points : list ModbusPoint.t :=
  [ModbusPoint.Build "speed" "read_holding_registers" 1100 1 "s16" "D" 4100;
   ModbusPoint.Build "M31" "read_coils" 31 1 "bit" "M" 31;
   ModbusPoint.Build "total" "read_holding_registers" 10 2 "s32" "D" 10].

(** * Proofs *)

(** A decidable proposition on closed terms, settled by evaluation. *)
Ltac decide_by_compute := apply (bool_decide_unpack _); vm_compute; exact I.

(** ** Decoding *)

Lemma land_pow2_testbit x n :
  0 ≤ n → Z.land x (2 ^ n) = if Z.testbit x n then 2 ^ n else 0.
Proof.
  intros Hn. apply Z.bits_inj'. intros k Hk.
  rewrite Z.land_spec, Z.pow2_bits_eqb by done.
  destruct (Z.eqb_spec n k) as [->|Hne].
  - rewrite andb_true_r. destruct (Z.testbit x k) eqn:E.
    + by rewrite Z.pow2_bits_true.
    + by rewrite Z.bits_0.
  - rewrite andb_false_r. destruct (Z.testbit x n).
    + by rewrite Z.pow2_bits_false.
    + by rewrite Z.bits_0.
Qed.

Lemma land_pow2_nonzero x n :
  0 ≤ n → Z.land x (2 ^ n) ≠ 0 ↔ Z.testbit x n = true.
Proof.
  intros Hn. rewrite land_pow2_testbit by done.
  destruct (Z.testbit x n); [|naive_solver].
  split; [done|]. intros _. apply Z.pow_nonzero; lia.
Qed.

Lemma u32_to_s32_testbit x :
  _u32_to_s32 x = if Z.testbit x 31 then x - 4294967296 else x.
Proof.
  unfold _u32_to_s32. change (Z.land x 0x80000000) with (Z.land x (2 ^ 31)).
  pose proof (land_pow2_nonzero x 31 ltac:(lia)) as H.
  destruct H as [H1 H2].
  destruct (decide (Z.land x (2 ^ 31) ≠ 0)) as [Hd|Hd].
  - by rewrite (H1 Hd).
  - destruct (Z.testbit x 31); [|done]. destruct Hd. by apply H2.
Qed.

Lemma testbit_15_word v :
  0 ≤ v ≤ 65535 → Z.testbit v 15 = bool_decide (32768 ≤ v).
Proof.
  intros Hv. rewrite Z.testbit_odd, Z.shiftr_div_pow2 by lia.
  change (2 ^ 15) with 32768.
  case_bool_decide.
  - assert (v `div` 32768 = 1) as -> by (Z.div_mod_to_equations; lia).
    done.
  - rewrite Z.div_small by lia. done.
Qed.

Lemma u16_to_s16_word v :
  0 ≤ v ≤ 65535 → _u16_to_s16 v = if decide (v < 32768) then v else v - 65536.
Proof.
  intros Hv. unfold _u16_to_s16. change (Z.land v 0x8000) with (Z.land v (2 ^ 15)).
  pose proof (testbit_15_word v Hv) as Hb.
  pose proof (land_pow2_nonzero v 15 ltac:(lia)) as H.
  rewrite Hb in H. clear Hb.
  destruct H as [H1 H2].
  destruct (decide (Z.land v (2 ^ 15) ≠ 0)) as [Hd|Hd].
  - apply H1, bool_decide_eq_true in Hd. by rewrite decide_False by lia.
  - destruct (decide (v < 32768)); [done|].
    destruct Hd. apply H2, bool_decide_eq_true. lia.
Qed.

Lemma py_index_nonneg {A} (l : list A) i a :
  0 ≤ i → l !! Z.to_nat i = Some a → py_index l i = Ok a.
Proof.
  intros Hi Hl. unfold py_index.
  apply lookup_lt_Some in Hl as Hlen.
  cbv zeta. destruct (decide (i < 0)) as [?|_]; [exfalso; lia|].
  rewrite decide_True by lia. by rewrite Hl.
Qed.

(** Claim C2.  A 16-bit word [v] read as a signed 16-bit point decodes to [v]
    when [v < 32768] and to [v - 65536] otherwise; two 16-bit words [low] and
    [high] at consecutive indices read as a 32-bit point decode to
    [combined = low | (high << 16)] when bit 31 of [combined] is clear and to
    [combined - 4294967296] otherwise; the words [0xFFFF], [0xFFFF] decode
    to [-1]. *)
Theorem decode_value_int16_int32 :
  (∀ pt start regs v,
      ModbusPoint.method pt ∉ ["read_coils"; "read_discrete_inputs"] →
      ModbusPoint.size pt = 1 → ModbusPoint.fmt pt = "s16" →
      0 ≤ ModbusPoint.offset pt - start →
      regs !! Z.to_nat (ModbusPoint.offset pt - start) = Some v →
      0 ≤ v ≤ 65535 →
      _decode_value pt (BatchData.Build (Some start) None (Some regs))
      = Ok (if decide (v < 32768) then v else v - 65536))
  ∧ (∀ pt start regs low high,
      ModbusPoint.method pt ∉ ["read_coils"; "read_discrete_inputs"] →
      ModbusPoint.size pt ≠ 1 →
      0 ≤ ModbusPoint.offset pt - start →
      regs !! Z.to_nat (ModbusPoint.offset pt - start) = Some low →
      regs !! Z.to_nat (ModbusPoint.offset pt - start + 1) = Some high →
      0 ≤ low ≤ 65535 → 0 ≤ high ≤ 65535 →
      _decode_value pt (BatchData.Build (Some start) None (Some regs))
      = Ok (let combined := Z.lor low (Z.shiftl high 16) in
            if Z.testbit combined 31 then combined - 4294967296 else combined))
  ∧ _decode_value
      (ModbusPoint.Build "D0" "read_holding_registers" 0 2 "s32" "D" 0)
      (BatchData.Build (Some 0) None (Some [0xFFFF; 0xFFFF]))
    = Ok (-1).
Proof.
  split_and!.
  - intros pt start regs v Hm Hsz Hfmt Hidx Hreg Hv.
    unfold _decode_value. simpl.
    rewrite decide_False by done. rewrite decide_True by done.
    simpl. rewrite (py_index_nonneg _ _ _ Hidx Hreg). simpl.
    rewrite decide_True by done. by rewrite u16_to_s16_word.
  - intros pt start regs low high Hm Hsz Hidx Hlow Hhigh _ _.
    unfold _decode_value. simpl.
    rewrite decide_False by done. rewrite decide_False by done.
    simpl. rewrite (py_index_nonneg _ _ _ Hidx Hlow). simpl.
    rewrite (py_index_nonneg regs _ high) by (done || lia). simpl.
    rewrite u32_to_s32_testbit, (Z.lor_comm low). done.
  - vm_compute. done.
Qed.

Lemma decode_value_int16_int32_witness :
  _decode_value d102
    (BatchData.Build (Some 100) None (Some [0; 0; 0x8000])) = Ok (-32768)
  ∧ _decode_value d100
      (BatchData.Build (Some 100) None (Some [0xFFFE; 0xFFFF; 0])) = Ok (-2).
Proof.
  destruct decode_value_int16_int32 as (H16 & H32 & _). split.
  - apply (H16 d102 100 [0; 0; 0x8000] 0x8000);
      [decide_by_compute|reflexivity|reflexivity|simpl; lia|reflexivity|lia].
  - apply (H32 d100 100 [0xFFFE; 0xFFFF; 0] 0xFFFE 0xFFFF);
      [decide_by_compute|simpl; lia|simpl; lia|reflexivity|reflexivity|lia|lia].
Defined.

(** ** The address map *)

Lemma segments_disjoint_tail seg segs :
  segments_disjoint (seg :: segs) → segments_disjoint segs.
Proof.
  intros Hd i j si sj a Hij Hi Hj. apply (Hd (S i) (S j)); auto.
Qed.

Lemma find_segment_covered mem segs seg a :
  segments_disjoint segs → seg ∈ segs → covers seg a →
  find_segment mem a segs
  = Ok (Segment.mb_base seg + (a - Segment.plc_base seg)).
Proof.
  induction segs as [|s0 segs IH]; intros Hd Hin Hc.
  - by apply elem_of_nil in Hin.
  - simpl. apply elem_of_cons in Hin as [->|Hin].
    + by rewrite decide_True.
    + destruct (decide _) as [Hc0|_].
      * apply list_elem_of_lookup in Hin as [k Hk].
        destruct (Hd 0%nat (S k) s0 seg a); done.
      * apply IH; eauto using segments_disjoint_tail.
Qed.

Lemma find_segment_fails mem segs a :
  (∃ e, find_segment mem a segs = Raise e)
  ↔ ∀ seg, seg ∈ segs → ¬ covers seg a.
Proof.
  induction segs as [|s0 segs IH]; simpl.
  - split; [|by eauto]. intros _ seg Hin. by apply elem_of_nil in Hin.
  - destruct (decide _) as [Hc0|Hc0].
    + split.
      * by intros [e ?].
      * intros H. destruct (H s0); [by left|done].
    + rewrite IH. split.
      * intros H seg [->|Hin]%elem_of_cons; auto.
      * intros H seg Hin. apply H. by right.
Qed.

Lemma find_segment_raises mem segs a e :
  find_segment mem a segs = Raise e → e = ValueError (OutOfMapping mem a).
Proof.
  induction segs as [|s0 segs IH]; simpl.
  - congruence.
  - by destruct (decide _).
Qed.

(** Claim C3.  When the segments of a category do not overlap, an address
    that a segment maps resolves to
    [mb_base + (plc_addr - plc_base)] of that segment; in particular the
    first and the last address of a segment resolve to the first and the last
    physical offset of it; with the single segment
    [{plc_base: 100, mb_base: 0, count: 5}], address 102 resolves to 2. *)
Theorem plc_to_modbus_covered :
  (∀ (mapping : gmap string (list Segment.t)) mem segs,
      mapping !! mem = Some segs → segments_disjoint segs →
      (∀ seg a, seg ∈ segs → covers seg a →
         plc_to_modbus mem a mapping
         = Ok (Segment.mb_base seg + (a - Segment.plc_base seg)))
      ∧ (∀ seg, seg ∈ segs → 0 < Segment.count seg →
         plc_to_modbus mem (Segment.plc_base seg) mapping
         = Ok (Segment.mb_base seg)
         ∧ plc_to_modbus mem (Segment.plc_base seg + Segment.count seg - 1) mapping
           = Ok (Segment.mb_base seg + Segment.count seg - 1)))
  ∧ (∀ cat, plc_to_modbus cat 102 {[ cat := [Segment.Build 100 0 5] ]} = Ok 2).
Proof.
  split.
  - intros mapping mem segs Hm Hd.
    assert (∀ seg a, seg ∈ segs → covers seg a →
         plc_to_modbus mem a mapping
         = Ok (Segment.mb_base seg + (a - Segment.plc_base seg))) as Hmain.
    { intros seg a Hin Hc. unfold plc_to_modbus. rewrite Hm.
      by apply find_segment_covered. }
    split; [done|]. intros seg Hin Hpos. split.
    + rewrite (Hmain seg) by (done || unfold covers; lia). f_equal. lia.
    + rewrite (Hmain seg) by (done || unfold covers; lia). f_equal. lia.
  - intros cat. unfold plc_to_modbus. by rewrite lookup_singleton_eq.
Qed.

Lemma plc_to_modbus_covered_witness :
  plc_to_modbus "D" 4100
    {[ "D" := [Segment.Build 0 0 1000; Segment.Build 4000 1000 200] ]}
  = Ok 1100.
Proof.
  pose proof plc_to_modbus_covered as [H _].
  destruct (H {[ "D" := [Segment.Build 0 0 1000; Segment.Build 4000 1000 200] ]}
              "D" [Segment.Build 0 0 1000; Segment.Build 4000 1000 200])
    as [Hmain _].
  - reflexivity.
  - intros [|[|i]] [|[|j]] si sj a Hij Hi Hj; simplify_eq/=;
      unfold covers; simpl; lia.
  - apply (Hmain (Segment.Build 4000 1000 200) 4100).
    + apply list_elem_of_further, list_elem_of_here.
    + unfold covers; simpl; lia.
Defined.

(** Claim C4, amended.  [plc_to_modbus] raises, and so returns no value,
    exactly when the category has no segments or none of its segments maps
    the address.  What it raises is the out-of-range [ValueError] exactly when
    the category is a key of the map and no segment maps the address, and a
    [KeyError] exactly when the category is not a key of the map. *)
Theorem plc_to_modbus_failure (mapping : gmap string (list Segment.t)) mem a :
  ((∃ e, plc_to_modbus mem a mapping = Raise e) ↔ unmapped mapping mem a)
  ∧ (plc_to_modbus mem a mapping = Raise (ValueError (OutOfMapping mem a))
     ↔ is_Some (mapping !! mem) ∧ unmapped mapping mem a)
  ∧ (mapping !! mem = None ↔ plc_to_modbus mem a mapping = Raise (KeyError mem)).
Proof.
  unfold plc_to_modbus, unmapped, segments_of.
  destruct (mapping !! mem) as [segs|] eqn:Hm; simpl.
  - pose proof (find_segment_fails mem segs a) as Hf.
    assert (segs = [] → ∀ seg, seg ∈ segs → ¬ covers seg a) as Hnil.
    { intros -> seg Hin. by apply elem_of_nil in Hin. }
    split_and!.
    + rewrite Hf. split; [by right|]. intros [Hu|Hu]; auto.
    + split.
      * intros He. split; [by eauto|]. right. apply Hf. eauto.
      * intros [_ Hu]. destruct Hf as [_ Hf].
        destruct Hf as [e He]; [destruct Hu; by auto|].
        by rewrite He, (find_segment_raises _ _ _ _ He).
    + split; [done|]. intros He.
      by apply find_segment_raises in He.
  - split_and!; [| |done].
    + split; [by left|by eauto].
    + split; [done|]. by intros [[? ?] _].
Qed.

Lemma plc_to_modbus_failure_witness :
  plc_to_modbus "D" 100 {[ "M" := [Segment.Build 0 0 16] ]}
  = Raise (KeyError "D").
Proof.
  apply (plc_to_modbus_failure {[ "M" := [Segment.Build 0 0 16] ]} "D" 100).
  reflexivity.
Defined.

(** A category that is not a key of the map has no segments, and resolving in
    it raises [KeyError], not the out-of-range [ValueError]. *)
Lemma plc_to_modbus_missing_category :
  unmapped {[ "M" := [Segment.Build 0 0 16] ]} "D" 100
  ∧ plc_to_modbus "D" 100 {[ "M" := [Segment.Build 0 0 16] ]}
    = Raise (KeyError "D")
  ∧ plc_to_modbus "D" 100 {[ "M" := [Segment.Build 0 0 16] ]}
    ≠ Raise (ValueError (OutOfMapping "D" 100)).
Proof. split_and!; [by left|done|done]. Qed.

(** ** Reading integers *)

Lemma any_char_true f s :
  any_char f s = true ↔ ∃ c, c ∈ chars s ∧ f c = true.
Proof.
  induction s as [|c s IH]; simpl.
  - split; [done|]. intros (c & Hc & _). by apply elem_of_nil in Hc.
  - rewrite orb_true_iff, IH. split.
    + intros [Hf|(d & Hd & Hf)].
      * exists c. split; [by left|done].
      * exists d. split; [by right|done].
    + intros (d & [->|Hd]%elem_of_cons & Hf); [by left|].
      right. by exists d.
Qed.

Lemma contains_char_true txt c :
  contains_char txt c = true ↔ c ∈ chars txt.
Proof.
  induction txt as [|d txt IH]; simpl.
  - split; [done|]. intros H. by apply elem_of_nil in H.
  - rewrite orb_true_iff, bool_decide_eq_true, IH, elem_of_cons.
    split; intros [?|?]; auto.
Qed.

Lemma chars_upper txt : chars (upper txt) = upper_char <$> chars txt.
Proof.
  induction txt as [|c txt IH]; [done|].
  unfold upper in *. simpl. by rewrite IH.
Qed.

Lemma upper_char_hex c :
  upper_char c ∈ chars "ABCDEF" ↔ c ∈ hex_letters.
Proof.
  assert (bool_decide (upper_char c ∈ chars "ABCDEF")
          = bool_decide (c ∈ hex_letters)) as Hb
    by (by destruct c as [[] [] [] [] [] [] [] []]; vm_compute).
  by rewrite <-(bool_decide_spec (_ ∈ chars _)), Hb, bool_decide_spec.
Qed.

Lemma any_hex_letter_true txt :
  any_hex_letter txt = true ↔ has_hex_letter txt.
Proof.
  unfold any_hex_letter, has_hex_letter. rewrite any_char_true. split.
  - intros (X & HX & Hc). apply contains_char_true in Hc.
    rewrite chars_upper in Hc. apply list_elem_of_fmap in Hc as (c & -> & Hc).
    exists c. split; [done|]. by apply upper_char_hex.
  - intros (c & Hc & Hhex). exists (upper_char c). split.
    + by apply upper_char_hex.
    + apply contains_char_true. rewrite chars_upper.
      apply list_elem_of_fmap. by exists c.
Qed.

Lemma int_of_float_finite s m e :
  ∃ q, int_of_float (S754_finite s m e) = Ok ((if s then -1 else 1) * q)
       ∧ 0 ≤ q
       ∧ q * 2 ^ Z.max (- e) 0 ≤ Z.pos m * 2 ^ Z.max e 0
         < (q + 1) * 2 ^ Z.max (- e) 0.
Proof.
  simpl. unfold float_num, float_den.
  assert (0 < 2 ^ Z.max (- e) 0) as Hd by (apply Z.pow_pos_nonneg; lia).
  assert (0 < 2 ^ Z.max e 0) as Hn by (apply Z.pow_pos_nonneg; lia).
  set (d := 2 ^ Z.max (- e) 0) in *. set (n := 2 ^ Z.max e 0) in *.
  exists (Z.quot (Z.pos m * n) d). split_and!.
  - f_equal. destruct s.
    + change (Z.neg m) with (- Z.pos m).
      rewrite Z.mul_opp_l, Z.quot_opp_l by lia. lia.
    + lia.
  - apply Z.quot_pos; lia.
  - rewrite Z.quot_div_nonneg by lia.
    rewrite (Z.mul_comm _ d). apply Z.mul_div_le. lia.
  - rewrite Z.quot_div_nonneg by lia.
    rewrite (Z.mul_comm _ d). apply Z.mul_succ_div_gt. lia.
Qed.

(** Claim C10.  [parse_int] returns an integer cell as it is and a float cell
    with its fraction dropped (rounded toward zero); for a text cell it reads
    the trimmed text in base 16 when the text has one of the letters A to F in
    either case and in base 10 otherwise, so that ["1E5"] is read as the
    hexadecimal number [0x1E5], although it is no decimal integer. *)
Theorem parse_int_spec :
  (∀ z, parse_int (CInt z) = Ok z)
  ∧ (∀ s, parse_int (CFloat (S754_zero s)) = Ok 0)
  ∧ (∀ s m e, ∃ q,
       parse_int (CFloat (S754_finite s m e)) = Ok ((if s then -1 else 1) * q)
       ∧ 0 ≤ q
       ∧ q * 2 ^ Z.max (- e) 0 ≤ Z.pos m * 2 ^ Z.max e 0
         < (q + 1) * 2 ^ Z.max (- e) 0)
  ∧ (∀ s, has_hex_letter (strip s) →
       parse_int (CStr s) = int_of_str 16 (strip s))
  ∧ (∀ s, ¬ has_hex_letter (strip s) →
       parse_int (CStr s) = int_of_str 10 (strip s))
  ∧ parse_int (CStr "1E5") = Ok 0x1E5
  ∧ int_of_str 10 "1E5" = Raise (ValueError InvalidLiteral).
Proof.
  split_and!; try done.
  - intros s m e. apply int_of_float_finite.
  - intros s Hhex. apply any_hex_letter_true in Hhex.
    unfold parse_int. simpl. by rewrite Hhex.
  - intros s Hhex. unfold parse_int. simpl.
    destruct (any_hex_letter (strip s)) eqn:E; [|done].
    by apply any_hex_letter_true in E.
Qed.

Lemma parse_int_spec_witness :
  parse_int (CStr " 0x1F ") = Ok 31
  ∧ parse_int (CStr "-42") = Ok (-42)
  ∧ parse_int (CFloat (S754_finite true 7 (-1))) = Ok (-3).
Proof.
  destruct parse_int_spec as (_ & _ & Hfloat & Hhex & Hdec & _).
  split_and!.
  - rewrite Hhex; [reflexivity|].
    exists "F"%char. split; vm_compute;
      repeat first [apply list_elem_of_here | apply list_elem_of_further].
  - rewrite Hdec; [reflexivity|].
    intros (c & Hc & Hhex'). vm_compute in Hc.
    repeat (apply elem_of_cons in Hc as [->|Hc];
      [vm_compute in Hhex';
       repeat (apply elem_of_cons in Hhex' as [Hhex'|Hhex']; [discriminate Hhex'|]);
       by apply elem_of_nil in Hhex'|]).
    by apply elem_of_nil in Hc.
  - reflexivity.
Defined.

(** ** The encoding of a point *)

Lemma bind_Ok {A B} (r : result A) (k : A → result B) b :
  r ≫= k = Ok b → ∃ a, r = Ok a ∧ k a = Ok b.
Proof. destruct r as [a|e]; [by exists a|done]. Qed.

Lemma normalize_type_text h :
  _normalize_type (CStr h)
  = Ok (if decide (lower (strip h) ∈ ["16"; "s16"; "int16"]) then "s16"
        else if decide (lower (strip h) ∈ ["u16"; "uint16"]) then "u16"
        else "").
Proof.
  unfold _normalize_type. simpl.
  destruct (decide (_ ∈ ["16"; "s16"; "int16"])); [done|].
  by destruct (decide (_ ∈ ["u16"; "uint16"])).
Qed.

Lemma MEM_METHOD_lookup mem method :
  MEM_METHOD !! mem = Some method →
  (mem = "D" ∧ method = "read_holding_registers")
  ∨ (mem ≠ "D" ∧ method ∈ ["read_coils"; "read_discrete_inputs"]).
Proof.
  unfold MEM_METHOD. simpl. intros H.
  repeat (apply lookup_insert_Some in H as [[<- <-]|[_ H]];
          [first [ by left | right; split; [done|];
                    repeat first [apply list_elem_of_here | apply list_elem_of_further] ] |]).
  by rewrite lookup_empty in H.
Qed.

Lemma load_point_type float_repr mapping r pt :
  load_point float_repr mapping r = Ok pt →
  point_type (ModbusPoint.mem pt) (row_get r "type")
  = Ok (ModbusPoint.size pt, ModbusPoint.fmt pt)
  ∧ MEM_METHOD !! ModbusPoint.mem pt = Some (ModbusPoint.method pt).
Proof.
  unfold load_point. intros H.
  apply bind_Ok in H as (c_mem & _ & H).
  apply bind_Ok in H as (plc_addr & _ & H).
  apply bind_Ok in H as (label & _ & H).
  apply bind_Ok in H as (mb_addr & _ & H).
  destruct (MEM_METHOD !! _) as [method|] eqn:Hm; [|done].
  apply bind_Ok in H as ([size fmt] & Hty & H).
  by simplify_eq/=.
Qed.

(** ** The stable sort *)

Section stable_sort_facts.
Context {A : Type} (key : A → Z).

Lemma insert_by_key_perm x l : insert_by_key key x l ≡ₚ x :: l.
Proof.
  induction l as [|y l IH]; simpl; [done|].
  case_decide; [done|]. by rewrite IH, Permutation_swap.
Qed.

Lemma sort_by_key_perm l : sort_by_key key l ≡ₚ l.
Proof.
  induction l as [|x l IH]; simpl; [done|].
  by rewrite insert_by_key_perm, IH.
Qed.

Lemma insert_by_key_sorted x l :
  StronglySorted (λ a b, key a ≤ key b) l →
  StronglySorted (λ a b, key a ≤ key b) (insert_by_key key x l).
Proof.
  induction l as [|y l IH]; simpl; intros Hs.
  - repeat constructor.
  - apply StronglySorted_cons in Hs as [Hy Hs]. case_decide as Hxy.
    + apply StronglySorted_cons. split.
      * constructor; [done|].
        eapply Forall_impl; [exact Hy|]. simpl. intros; lia.
      * by apply StronglySorted_cons.
    + apply StronglySorted_cons. split; [|by apply IH].
      rewrite insert_by_key_perm. constructor; [lia|done].
Qed.

Lemma sort_by_key_sorted l :
  StronglySorted (λ a b, key a ≤ key b) (sort_by_key key l).
Proof.
  induction l as [|x l IH]; simpl; [constructor|].
  by apply insert_by_key_sorted.
Qed.

(** When equal keys mean equal elements, the order of the input does not
    matter. *)
Lemma sort_by_key_unique l1 l2 :
  (∀ x y, x ∈ l1 → y ∈ l1 → key x = key y → x = y) →
  l1 ≡ₚ l2 → sort_by_key key l1 = sort_by_key key l2.
Proof.
  intros Hinj Hp.
  apply (StronglySorted_unique_strong (λ a b, key a ≤ key b)).
  - intros x y Hx Hy Hxy Hyx. apply Hinj.
    + by rewrite sort_by_key_perm in Hx.
    + by rewrite sort_by_key_perm, <-Hp in Hy.
    + lia.
  - apply sort_by_key_sorted.
  - apply sort_by_key_sorted.
  - by rewrite !sort_by_key_perm.
Qed.
End stable_sort_facts.

(** ** Grouping by method *)

Lemma fmap_ext_elem_of {A B} (f g : A → B) (l : list A) :
  (∀ x, x ∈ l → f x = g x) → f <$> l = g <$> l.
Proof.
  intros H. apply list_fmap_ext. intros i x Hi. apply H.
  by apply list_elem_of_lookup_2 in Hi.
Qed.

Lemma grouped_append_map (ks : list string) (f : string → list ModbusPoint.t) p :
  NoDup ks →
  (ModbusPoint.method p ∉ ks → f (ModbusPoint.method p) = []) →
  grouped_append ((λ m, (m, f m)) <$> ks) p
  = (λ m, (m, if decide (m = ModbusPoint.method p) then f m ++ [p] else f m))
      <$> (if decide (ModbusPoint.method p ∈ ks) then ks
           else ks ++ [ModbusPoint.method p]).
Proof.
  induction ks as [|k ks IH]; intros Hnd Hnew.
  - simpl. rewrite decide_True by done. by rewrite Hnew by apply not_elem_of_nil.
  - apply NoDup_cons in Hnd as [Hk Hnd]. rewrite fmap_cons. cbn [grouped_append].
    destruct (decide (k = ModbusPoint.method p)) as [->|Hne].
    + rewrite decide_True by left. rewrite fmap_cons, decide_True by done.
      f_equal. apply fmap_ext_elem_of. intros m Hm.
      rewrite decide_False; [done|]. by intros ->.
    + rewrite IH; [|done|].
      2:{ intros Hn. apply Hnew. intros [?|?]%elem_of_cons; by auto. }
      destruct (decide (ModbusPoint.method p ∈ ks)) as [Hin|Hin].
      * rewrite decide_True by (by right). by rewrite fmap_cons, decide_False.
      * rewrite decide_False by (intros [?|?]%elem_of_cons; by auto).
        by rewrite <-app_comm_cons, fmap_cons, decide_False.
Qed.

Lemma group_points_snoc l p :
  group_points (l ++ [p]) = grouped_append (group_points l) p.
Proof. unfold group_points. by rewrite fold_left_app. Qed.

Lemma filter_has_method_snoc m l p :
  filter (has_method m) (l ++ [p])
  = if decide (m = ModbusPoint.method p)
    then filter (has_method m) l ++ [p] else filter (has_method m) l.
Proof.
  rewrite filter_app, filter_cons, filter_nil. unfold has_method at 2.
  destruct (decide (m = ModbusPoint.method p)) as [->|Hne].
  - by destruct (decide (ModbusPoint.method p = ModbusPoint.method p)).
  - destruct (decide (ModbusPoint.method p = m)) as [<-|_]; [done|].
    by rewrite app_nil_r.
Qed.

(** The groups: one per method, in order of first appearance, each with the
    points of that method in the order of the input. *)
Lemma group_points_spec l :
  group_points l = (λ m, (m, filter (has_method m) l)) <$> methods_of l
  ∧ NoDup (methods_of l)
  ∧ ∀ m, m ∈ methods_of l ↔ ∃ p, p ∈ l ∧ ModbusPoint.method p = m.
Proof.
  unfold methods_of. induction l as [|p l IH] using rev_ind.
  - split_and!; [done|constructor|]. intros m. split.
    + by intros ?%elem_of_nil.
    + by intros (p & ?%elem_of_nil & _).
  - destruct IH as (Hg & Hnd & Hin). set (ks := (group_points l).*1) in *.
    assert (group_points (l ++ [p])
            = (λ m, (m, filter (has_method m) (l ++ [p])))
                <$> (if decide (ModbusPoint.method p ∈ ks) then ks
                     else ks ++ [ModbusPoint.method p])) as Hg'.
    { rewrite group_points_snoc, Hg, grouped_append_map; [|done|].
      - apply fmap_ext_elem_of. intros m _. by rewrite filter_has_method_snoc.
      - intros Hn. destruct (filter _ l) as [|q ?] eqn:Hf; [done|].
        destruct Hn. apply Hin. exists q.
        assert (q ∈ filter (has_method (ModbusPoint.method p)) l) as Hq
          by (rewrite Hf; left).
        apply list_elem_of_filter in Hq as [? ?]. done. }
    assert ((group_points (l ++ [p])).*1
            = if decide (ModbusPoint.method p ∈ ks) then ks
              else ks ++ [ModbusPoint.method p]) as Hks.
    { rewrite Hg', <-list_fmap_compose. apply list_fmap_id. }
    rewrite Hks. split_and!; [done| |].
    + case_decide as Hd; [done|]. apply NoDup_app. split_and!; [done| |].
      * intros x Hx ->%list_elem_of_singleton. done.
      * apply NoDup_singleton.
    + intros m. split.
      * intros Hm. destruct (decide (m = ModbusPoint.method p)) as [->|Hne].
        { exists p. split; [|done]. apply elem_of_app. right. left. }
        assert (m ∈ ks) as Hmk.
        { case_decide; [done|]. apply elem_of_app in Hm as [?|Hm]; [done|].
          by apply list_elem_of_singleton in Hm. }
        apply Hin in Hmk as (q & Hq & <-). exists q. split; [|done].
        apply elem_of_app. by left.
      * intros (q & [Hq|Hq]%elem_of_app & <-).
        { assert (ModbusPoint.method q ∈ ks) by (apply Hin; eauto).
          case_decide; [done|]. apply elem_of_app. by left. }
        apply list_elem_of_singleton in Hq as ->.
        case_decide; [done|]. apply elem_of_app. right. left.
Qed.

(** ** The two loops *)

Lemma extend_spec pts : ∀ e bp,
  ∃ taken rest e',
    extend e bp pts = (e', bp ++ taken, rest)
    ∧ pts = taken ++ rest
    ∧ contiguous e taken e'
    ∧ ∀ q, head rest = Some q → ModbusPoint.offset q ≠ e'.
Proof.
  induction pts as [|p pts IH]; intros e bp; simpl.
  - exists [], [], e. by rewrite app_nil_r.
  - case_decide as Hp.
    + destruct (IH (e + ModbusPoint.size p) (bp ++ [p]))
        as (taken & rest & e' & -> & -> & Hc & Hh).
      exists (p :: taken), rest, e'. by rewrite <-app_assoc.
    + exists [], (p :: pts), e. rewrite app_nil_r. split_and!; [done..|].
      intros q [= <-]. done.
Qed.

Lemma scan_batched m fuel : ∀ pts,
  (length pts ≤ fuel)%nat →
  ∃ bs, batched m pts bs ∧ ∀ acc, scan fuel m pts acc = acc ++ bs.
Proof.
  induction fuel as [|fuel IH]; intros [|p pts] Hlen; simpl in *;
    try (exists []; split; [constructor|intros; by rewrite app_nil_r]).
  - lia.
  - destruct (extend_spec pts (ModbusPoint.offset p + ModbusPoint.size p) [p])
      as (taken & rest & e' & Hext & -> & Hc & Hh).
    destruct (IH rest) as (bs & Hbs & Hscan).
    { rewrite length_app in Hlen. lia. }
    eexists. split; [by apply batched_cons|].
    intros acc. rewrite Hext, Hscan, <-app_assoc. done.
Qed.

Lemma batches_of_spec m pts :
  batched m pts (batches_of m pts)
  ∧ ∀ acc, scan (length pts) m pts acc = acc ++ batches_of m pts.
Proof.
  destruct (scan_batched m (length pts) pts) as (bs & Hbs & Hscan); [done|].
  unfold batches_of. by rewrite (Hscan []).
Qed.

(** ** What holds of the batches of one method *)

Lemma batched_points m pts bs :
  batched m pts bs → bs ≫= Batch.points = pts.
Proof.
  induction 1 as [|p taken rest e' bs _ _ _ IH]; [done|].
  rewrite bind_cons, IH. done.
Qed.

Lemma batched_method m pts bs :
  batched m pts bs → Forall (λ b, Batch.method b = m) bs.
Proof. induction 1; by constructor. Qed.

Lemma batched_start m pts bs :
  batched m pts bs →
  Forall (λ b, ∃ q, q ∈ pts ∧ Batch.start b = ModbusPoint.offset q) bs.
Proof.
  induction 1 as [|p taken rest e' bs _ _ _ IH]; constructor.
  - exists p. split; [left|done].
  - eapply Forall_impl; [exact IH|]. intros b (q & Hq & Hb).
    exists q. split; [|done]. right. apply elem_of_app. by right.
Qed.

Lemma contiguous_bounds e taken e' :
  contiguous e taken e' → positive_sizes taken →
  e ≤ e' ∧ ∀ q, q ∈ taken →
    e ≤ ModbusPoint.offset q ∧ ModbusPoint.offset q + ModbusPoint.size q ≤ e'.
Proof.
  revert e. induction taken as [|p taken IH]; simpl; intros e Hc Hpos.
  - split; [lia|]. by intros q ?%elem_of_nil.
  - destruct Hc as [Hp Hc]. apply Forall_cons in Hpos as [Hsz Hpos].
    destruct (IH _ Hc Hpos) as [Hle Hin]. split; [lia|].
    intros q [->|Hq]%elem_of_cons; [lia|].
    destruct (Hin q Hq). lia.
Qed.

Lemma contiguous_end e taken e' :
  contiguous e taken e' →
  (taken = [] ∧ e' = e)
  ∨ ∃ q, q ∈ taken ∧ e' = ModbusPoint.offset q + ModbusPoint.size q.
Proof.
  revert e. induction taken as [|p taken IH]; simpl; intros e Hc.
  - by left.
  - right. destruct Hc as [Hp Hc]. destruct (IH _ Hc) as [[-> ->]|(q & Hq & ->)].
    + exists p. split; [left|lia].
    + exists q. split; [by right|done].
Qed.

Lemma batched_covers m pts bs :
  batched m pts bs → positive_sizes pts →
  Forall (λ b, 0 < Batch.count b
               ∧ ∀ p, p ∈ Batch.points b → covers_point b p) bs.
Proof.
  induction 1 as [|p taken rest e' bs Hc _ _ IH]; intros Hpos; [constructor|].
  apply Forall_cons in Hpos as [Hsz Hpos].
  apply Forall_app in Hpos as [Hpost Hposr].
  constructor; [|by apply IH].
  destruct (contiguous_bounds _ _ _ Hc Hpost) as [Hle Hin].
  unfold covers_point. simpl. split; [lia|].
  intros q [->|Hq]%elem_of_cons; [lia|].
  destruct (Hin q Hq). lia.
Qed.

Lemma batched_apart m pts bs :
  batched m pts bs → positive_sizes pts → StronglySorted before pts →
  StronglySorted apart bs.
Proof.
  induction 1 as [|p taken rest e' bs Hc Hh Hb IH]; intros Hpos Hs;
    [constructor|].
  change (p :: taken ++ rest) with ((p :: taken) ++ rest) in Hs, Hpos.
  apply Forall_app in Hpos as [Hpost Hposr].
  apply StronglySorted_app in Hs as (Hcross & Hst & Hsr).
  apply StronglySorted_cons. split; [|by apply IH].
  assert (∀ q, q ∈ rest → e' < ModbusPoint.offset q) as Hgap.
  { assert (∀ q, q ∈ rest → e' ≤ ModbusPoint.offset q) as Hle.
    { intros q Hq.
      destruct (contiguous_end _ _ _ Hc) as [[-> ->]|(x & Hx & ->)].
      - apply (Hcross p q); [left|done].
      - apply (Hcross x q); [by right|done]. }
    destruct rest as [|q0 rest]; [by intros q ?%elem_of_nil|].
    assert (e' < ModbusPoint.offset q0) as Hq0.
    { pose proof (Hh q0 eq_refl). pose proof (Hle q0 ltac:(left)). lia. }
    intros q [->|Hq]%elem_of_cons; [done|].
    apply StronglySorted_cons in Hsr as [Hq0r _].
    apply Forall_cons in Hposr as [Hsz0 _].
    rewrite Forall_forall in Hq0r. specialize (Hq0r q Hq).
    unfold before in Hq0r. lia. }
  eapply Forall_impl; [exact (batched_start _ _ _ Hb)|].
  intros b (q & Hq & Hbq). unfold apart. simpl. rewrite Hbq.
  specialize (Hgap q Hq). lia.
Qed.

(** ** The whole batch list *)

Lemma fold_left_scan (gs : list (string * list ModbusPoint.t)) : ∀ acc,
  fold_left
    (λ batches '(method, pts),
       let pts := sort_by_key ModbusPoint.offset pts in
       scan (length pts) method pts batches) gs acc
  = acc ++ (gs ≫= λ '(m, pts), batches_of m (sort_by_key ModbusPoint.offset pts)).
Proof.
  induction gs as [|[m pts] gs IH]; intros acc; simpl.
  - by rewrite app_nil_r.
  - rewrite IH. destruct (batches_of_spec m (sort_by_key ModbusPoint.offset pts))
      as [_ ->]. by rewrite <-app_assoc.
Qed.

Lemma bind_fmap {A B C} (g : A → B) (f : B → list C) (l : list A) :
  (g <$> l) ≫= f = l ≫= (f ∘ g).
Proof. induction l as [|x l IH]; [done|]. by rewrite fmap_cons, !bind_cons, IH. Qed.

(** The batch list is the batches of each method, one method after the
    other. *)
Lemma make_batches_spec l :
  _make_batches l = methods_of l ≫= method_batches l.
Proof.
  unfold _make_batches. rewrite fold_left_scan. simpl.
  destruct (group_points_spec l) as [-> _]. by rewrite bind_fmap.
Qed.

Lemma grouped_append_perm g p :
  grouped_append g p ≫= snd ≡ₚ p :: (g ≫= snd).
Proof.
  induction g as [|[m pts] g IH]; cbn [grouped_append]; [done|].
  case_decide.
  - rewrite !bind_cons. cbn [snd]. rewrite <-app_assoc.
    symmetry. apply Permutation_middle.
  - rewrite !bind_cons, IH. cbn [snd]. symmetry. apply Permutation_middle.
Qed.

Lemma group_points_perm l : group_points l ≫= snd ≡ₚ l.
Proof.
  induction l as [|p l IH] using rev_ind; [done|].
  rewrite group_points_snoc, grouped_append_perm, IH.
  by rewrite Permutation_app_comm.
Qed.

Lemma method_batches_batched l m :
  batched m (sort_by_key ModbusPoint.offset (filter (has_method m) l))
    (method_batches l m).
Proof. apply batches_of_spec. Qed.

(** The batches hold the points of the input, each as often as it is
    there. *)
Lemma make_batches_points l : _make_batches l ≫= Batch.points ≡ₚ l.
Proof.
  rewrite make_batches_spec. rewrite <-(group_points_perm l) at 3.
  destruct (group_points_spec l) as [-> _]. rewrite bind_fmap.
  induction (methods_of l) as [|k ks IH]; [done|].
  rewrite !bind_cons, bind_app, IH. simpl.
  by rewrite (batched_points _ _ _ (method_batches_batched l k)), sort_by_key_perm.
Qed.

Lemma elem_of_method_batches l m b :
  b ∈ method_batches l m → Batch.method b = m.
Proof.
  pose proof (batched_method _ _ _ (method_batches_batched l m)) as H.
  rewrite Forall_forall in H. apply H.
Qed.

(** ** Consequences of the hypotheses on the points *)

Lemma no_overlap_same l x y :
  positive_sizes l → no_overlap l → x ∈ l → y ∈ l →
  ModbusPoint.method x = ModbusPoint.method y →
  footprints_overlap x y → x = y.
Proof.
  intros Hpos Hno [i Hi]%list_elem_of_lookup [j Hj]%list_elem_of_lookup Hm Ho.
  destruct (decide (i = j)) as [->|Hij]; [congruence|].
  by destruct (Hno i j x y).
Qed.

Lemma positive_sizes_elem l p :
  positive_sizes l → p ∈ l → 0 < ModbusPoint.size p.
Proof. unfold positive_sizes. rewrite Forall_forall. auto. Qed.

Lemma overlap_self x : 0 < ModbusPoint.size x → footprints_overlap x x.
Proof. intros. exists (ModbusPoint.offset x). unfold in_footprint. lia. Qed.

Lemma no_overlap_NoDup l : positive_sizes l → no_overlap l → NoDup l.
Proof.
  intros Hpos Hno. apply NoDup_alt. intros i j x Hi Hj.
  destruct (decide (i = j)) as [|Hij]; [done|].
  destruct (Hno i j x x); [done..|].
  apply overlap_self, (positive_sizes_elem l); [done|].
  by apply list_elem_of_lookup_2 in Hi.
Qed.

Lemma StronglySorted_mono {A} (R1 R2 : relation A) l :
  (∀ x y, R1 x y → R2 x y) → StronglySorted R1 l → StronglySorted R2 l.
Proof.
  intros H12. induction 1 as [|x l _ IH Hx]; constructor; [done|].
  eapply Forall_impl; [exact Hx|]. auto.
Qed.

Lemma StronglySorted_lookup {A} (R : relation A) l i j x y :
  StronglySorted R l → (i < j)%nat → l !! i = Some x → l !! j = Some y → R x y.
Proof.
  intros Hs. revert i j. induction Hs as [|z l _ IH Hz]; intros i j Hij Hi Hj.
  - by rewrite lookup_nil in Hi.
  - destruct j as [|j]; [lia|]. destruct i as [|i]; simpl in *.
    + injection Hi as ->. rewrite Forall_forall in Hz.
      apply Hz. by apply list_elem_of_lookup_2 in Hj.
    + apply (IH i j); [lia|done..].
Qed.

Lemma StronglySorted_strengthen {A} (R1 R2 : relation A) l :
  StronglySorted R1 l → NoDup l →
  (∀ x y, x ∈ l → y ∈ l → x ≠ y → R1 x y → R2 x y) →
  StronglySorted R2 l.
Proof.
  induction 1 as [|x l Hs IH Hx]; intros Hnd H12; [constructor|].
  apply NoDup_cons in Hnd as [Hxl Hnd]. constructor.
  - apply IH; [done|]. intros y z Hy Hz. apply H12; by right.
  - rewrite Forall_forall in Hx |- *. intros y Hy.
    apply H12; [left|by right| |by apply Hx]. by intros ->.
Qed.

Lemma elem_of_sorted_group l m p :
  p ∈ sort_by_key ModbusPoint.offset (filter (has_method m) l)
  ↔ p ∈ l ∧ ModbusPoint.method p = m.
Proof. rewrite sort_by_key_perm, list_elem_of_filter. unfold has_method. tauto. Qed.

(** Under the hypotheses the sorted points of one method follow one another
    without overlap. *)
Lemma sorted_group_before l m :
  positive_sizes l → no_overlap l →
  StronglySorted before
    (sort_by_key ModbusPoint.offset (filter (has_method m) l)).
Proof.
  intros Hpos Hno.
  eapply StronglySorted_strengthen; [apply sort_by_key_sorted| |].
  - rewrite sort_by_key_perm. apply NoDup_filter. by apply no_overlap_NoDup.
  - intros x y [Hx Hmx]%elem_of_sorted_group [Hy Hmy]%elem_of_sorted_group
      Hne Hle. simpl in Hle.
    unfold before. destruct (decide (ModbusPoint.offset x + ModbusPoint.size x
                                     ≤ ModbusPoint.offset y)) as [|Hov]; [done|].
    destruct Hne. apply (no_overlap_same l); [done..|congruence|].
    exists (ModbusPoint.offset y).
    pose proof (positive_sizes_elem l y Hpos Hy). unfold in_footprint. lia.
Qed.

Lemma positive_sizes_sorted_group l m :
  positive_sizes l →
  positive_sizes (sort_by_key ModbusPoint.offset (filter (has_method m) l)).
Proof.
  intros Hpos. apply Forall_forall.
  intros p [Hp _]%elem_of_sorted_group. by apply (positive_sizes_elem l).
Qed.

Lemma make_batches_apart l :
  positive_sizes l → no_overlap l →
  StronglySorted apart_in_method (_make_batches l).
Proof.
  intros Hpos Hno. rewrite make_batches_spec.
  destruct (group_points_spec l) as (_ & Hnd & _).
  induction Hnd as [|k ks Hk Hnd IH]; [constructor|].
  rewrite bind_cons. apply StronglySorted_app. split_and!; [| |done].
  - intros b1 b2 Hb1 (k' & Hb2 & Hk')%list_elem_of_bind Hm.
    apply elem_of_method_batches in Hb1, Hb2. congruence.
  - eapply (StronglySorted_mono apart); [by intros b1 b2 Hap _|].
    eapply batched_apart; [apply method_batches_batched| |].
    + by apply positive_sizes_sorted_group.
    + by apply sorted_group_before.
Qed.

Lemma elem_of_make_batches l b :
  b ∈ _make_batches l ↔ ∃ m, m ∈ methods_of l ∧ b ∈ method_batches l m.
Proof.
  rewrite make_batches_spec, list_elem_of_bind.
  split; intros (m & ? & ?); by exists m.
Qed.

(** A batch is not empty and covers its points. *)
Lemma make_batches_covers l b :
  positive_sizes l → b ∈ _make_batches l →
  0 < Batch.count b ∧ ∀ p, p ∈ Batch.points b →
    covers_point b p ∧ Batch.method b = ModbusPoint.method p ∧ p ∈ l.
Proof.
  intros Hpos (m & _ & Hb)%elem_of_make_batches.
  pose proof (method_batches_batched l m) as Hbd.
  pose proof (batched_covers _ _ _ Hbd (positive_sizes_sorted_group l m Hpos))
    as Hcov.
  rewrite Forall_forall in Hcov. destruct (Hcov b Hb) as [Hcnt Hpts].
  split; [done|]. intros p Hp.
  assert (p ∈ sort_by_key ModbusPoint.offset (filter (has_method m) l)) as Hin.
  { rewrite <-(batched_points _ _ _ Hbd). apply list_elem_of_bind. eauto. }
  apply elem_of_sorted_group in Hin as [Hpl Hpm].
  rewrite (elem_of_method_batches _ _ _ Hb). auto.
Qed.

(** Every point of the input is a member of some batch. *)
Lemma make_batches_member l p :
  p ∈ l → ∃ k b, _make_batches l !! k = Some b ∧ p ∈ Batch.points b.
Proof.
  intros Hp. rewrite <-(make_batches_points l) in Hp.
  apply list_elem_of_bind in Hp as (b & Hpb & [k Hk]%list_elem_of_lookup).
  eauto.
Qed.

Lemma NoDup_bind_lookup {A B} (f : A → list B) l i j a b x :
  NoDup (l ≫= f) → l !! i = Some a → l !! j = Some b →
  x ∈ f a → x ∈ f b → i = j.
Proof.
  revert i j. induction l as [|c l IH]; intros i j Hnd Hi Hj Ha Hb.
  - by rewrite lookup_nil in Hi.
  - rewrite bind_cons in Hnd. apply NoDup_app in Hnd as (_ & Hdisj & Hnd).
    destruct i as [|i], j as [|j]; simpl in *; simplify_eq.
    + done.
    + destruct (Hdisj x Ha). apply list_elem_of_bind. exists b.
      split; [done|]. by apply list_elem_of_lookup_2 in Hj.
    + destruct (Hdisj x Hb). apply list_elem_of_bind. exists a.
      split; [done|]. by apply list_elem_of_lookup_2 in Hi.
    + f_equal. by apply IH.
Qed.

(** The points of the examples. *)

(** [no_overlap] of a list of at most three given points, by cases on the two
    indices. *)
Ltac no_overlap_by_cases :=
  intros [|[|[|i]]] [|[|[|j]]] p q Hij Hi Hj Hm [a [Hp Hq]];
  simplify_eq/=; unfold in_footprint in *; simpl in *; lia.

Lemma example_points_no_overlap : no_overlap [d102; m5; d100].
Proof. no_overlap_by_cases. Qed.

Lemma example_points_positive : positive_sizes [d102; m5; d100].
Proof. by repeat constructor. Qed.

(** Claim C1.  For points of positive width whose footprints do not overlap
    within an access method, every point is a member of exactly one batch of
    [_make_batches]; that batch has the point's method, its range
    [start, start + count) contains the point's footprint, and no other batch
    of that method does; the batches of one method are in ascending order of
    [start] and do not overlap. *)
Theorem make_batches_invariant l :
  positive_sizes l → no_overlap l →
  (∀ p, p ∈ l →
     ∃ k b, _make_batches l !! k = Some b
       ∧ p ∈ Batch.points b
       ∧ Batch.method b = ModbusPoint.method p
       ∧ covers_point b p
       ∧ (∀ k' b', _make_batches l !! k' = Some b' →
            p ∈ Batch.points b' → k' = k)
       ∧ (∀ k' b', _make_batches l !! k' = Some b' →
            Batch.method b' = ModbusPoint.method p →
            covers_point b' p → k' = k))
  ∧ (∀ i j bi bj,
       (i < j)%nat →
       _make_batches l !! i = Some bi → _make_batches l !! j = Some bj →
       Batch.method bi = Batch.method bj →
       Batch.start bi < Batch.start bj
       ∧ Batch.start bi + Batch.count bi ≤ Batch.start bj).
Proof.
  intros Hpos Hno.
  pose proof (make_batches_apart l Hpos Hno) as Hsorted.
  assert (∀ i j bi bj,
       (i < j)%nat →
       _make_batches l !! i = Some bi → _make_batches l !! j = Some bj →
       Batch.method bi = Batch.method bj →
       Batch.start bi < Batch.start bj
       ∧ Batch.start bi + Batch.count bi ≤ Batch.start bj) as Hord.
  { intros i j bi bj Hij Hi Hj Hm.
    pose proof (StronglySorted_lookup _ _ _ _ _ _ Hsorted Hij Hi Hj Hm) as Hap.
    apply list_elem_of_lookup_2, (make_batches_covers l bi Hpos) in Hi as [? _].
    unfold apart in Hap. lia. }
  split; [|done].
  intros p Hp. destruct (make_batches_member l p Hp) as (k & b & Hk & Hpb).
  destruct (make_batches_covers l b Hpos) as [Hcnt Hmem];
    [by apply list_elem_of_lookup_2 in Hk|].
  destruct (Hmem p Hpb) as (Hcov & Hm & _).
  exists k, b. split_and!; [done..| |].
  - intros k' b' Hk' Hpb'.
    apply (NoDup_bind_lookup Batch.points (_make_batches l) k' k b' b p);
      [|done..].
    rewrite make_batches_points. by apply no_overlap_NoDup.
  - intros k' b' Hk' Hm' Hcov'.
    pose proof (positive_sizes_elem l p Hpos Hp) as Hsz.
    unfold covers_point in *.
    destruct (Nat.lt_trichotomy k' k) as [Hlt|[->|Hlt]]; [|done|].
    + destruct (Hord k' k b' b Hlt Hk' Hk); [congruence|lia].
    + destruct (Hord k k' b b' Hlt Hk Hk'); [congruence|lia].
Qed.

Lemma make_batches_invariant_witness :
  positive_sizes [d102; m5; d100] ∧ no_overlap [d102; m5; d100]
  ∧ ∃ k b, _make_batches [d102; m5; d100] !! k = Some b
           ∧ d102 ∈ Batch.points b
           ∧ Batch.method b = "read_holding_registers"
           ∧ covers_point b d102.
Proof.
  split_and!; [exact example_points_positive|exact example_points_no_overlap|].
  destruct (make_batches_invariant [d102; m5; d100]
              example_points_positive example_points_no_overlap) as [Hmem _].
  destruct (Hmem d102 ltac:(left)) as (k & b & Hk & Hin & Hm & Hcov & _).
  by exists k, b.
Defined.

(** ** The lookup of a point's batch *)

Lemma batch_start_some bs pt b :
  b ∈ bs → batch_matches b pt →
  ∃ b', b' ∈ bs ∧ batch_matches b' pt
        ∧ _batch_start bs pt = Ok (Batch.start b').
Proof.
  induction bs as [|b0 bs IH]; intros Hb Hm; [by apply elem_of_nil in Hb|].
  simpl. fold (batch_matches b0 pt). case_decide as H0.
  - exists b0. split; [left|done].
  - apply elem_of_cons in Hb as [->|Hb]; [done|].
    destruct (IH Hb Hm) as (b' & Hb' & Hm' & Hs).
    exists b'. split; [by right|done].
Qed.

Lemma batch_start_apart bs pt b :
  StronglySorted apart_in_method bs → b ∈ bs → batch_matches b pt →
  _batch_start bs pt = Ok (Batch.start b).
Proof.
  induction 1 as [|b0 bs _ IH H0]; intros Hb Hm; [by apply elem_of_nil in Hb|].
  simpl. fold (batch_matches b0 pt).
  apply elem_of_cons in Hb as [->|Hb]; [by rewrite decide_True|].
  case_decide as Hm0; [|by apply IH].
  rewrite Forall_forall in H0. specialize (H0 b Hb).
  unfold apart_in_method, apart, batch_matches in *.
  destruct Hm as [Hm ?], Hm0 as [Hm0 ?]. rewrite Hm, Hm0 in H0.
  specialize (H0 eq_refl). lia.
Qed.

Lemma member_matches l b pt :
  positive_sizes l → b ∈ _make_batches l → pt ∈ Batch.points b →
  batch_matches b pt.
Proof.
  intros Hpos Hb Hpt.
  destruct (make_batches_covers l b Hpos Hb) as [_ Hmem].
  destruct (Hmem pt Hpt) as ([? ?] & ? & Hl).
  pose proof (positive_sizes_elem l pt Hpos Hl).
  unfold batch_matches. split; [done|lia].
Qed.

(** Claim C9, amended.  For every point of positive width in the list the
    batches were made from, [_batch_start] finds a batch with the point's
    method whose range contains the point's offset, so it does not raise;
    when moreover the footprints do not overlap within a method, the start it
    returns is the start of the batch the point is a member of. *)
Theorem batch_start_found l pt :
  positive_sizes l → pt ∈ l →
  (∃ b, b ∈ _make_batches l
        ∧ Batch.method b = ModbusPoint.method pt
        ∧ Batch.start b ≤ ModbusPoint.offset pt < Batch.start b + Batch.count b
        ∧ _batch_start (_make_batches l) pt = Ok (Batch.start b))
  ∧ (no_overlap l →
     ∀ b, b ∈ _make_batches l → pt ∈ Batch.points b →
          _batch_start (_make_batches l) pt = Ok (Batch.start b)).
Proof.
  intros Hpos Hpt. split.
  - destruct (make_batches_member l pt Hpt) as (k & b & Hk & Hmem).
    apply list_elem_of_lookup_2 in Hk.
    destruct (batch_start_some (_make_batches l) pt b Hk)
      as (b' & Hb' & [Hm Hr] & Hs); [by eapply member_matches|].
    by exists b'.
  - intros Hno b Hb Hmem. apply batch_start_apart; [|done|].
    + by apply make_batches_apart.
    + by eapply member_matches.
Qed.

Lemma batch_start_found_witness :
  _batch_start (_make_batches [d102; d100]) d102 = Ok 100.
Proof.
  assert (positive_sizes [d102; d100]) as Hpos
    by (repeat constructor).
  assert (d102 ∈ [d102; d100]) as Hin by left.
  destruct (batch_start_found [d102; d100] d102 Hpos Hin) as [_ H].
  apply (H ltac:(no_overlap_by_cases)
           (Batch.Build "read_holding_registers" 100 3 [d100; d102])).
  - vm_compute. left.
  - right. left.
Defined.

(** On overlapping points the lookup can return another batch than the one
    the point is a member of. *)
Lemma batch_start_overlap :
  positive_sizes [d100; d101]
  ∧ _make_batches [d100; d101]
    = [Batch.Build "read_holding_registers" 100 2 [d100];
       Batch.Build "read_holding_registers" 101 2 [d101]]
  ∧ _batch_start (_make_batches [d100; d101]) d101 = Ok 100.
Proof. split_and!; [repeat constructor|done|done]. Qed.

(** ** Independence of the input order *)

Lemma methods_of_perm l l' : l' ≡ₚ l → methods_of l' ≡ₚ methods_of l.
Proof.
  intros Hp.
  destruct (group_points_spec l) as (_ & Hnd & Hin).
  destruct (group_points_spec l') as (_ & Hnd' & Hin').
  apply NoDup_Permutation; [done..|].
  intros m. rewrite Hin, Hin'. by setoid_rewrite Hp.
Qed.

Lemma method_batches_perm l l' m :
  positive_sizes l → no_overlap l → l' ≡ₚ l →
  method_batches l' m = method_batches l m.
Proof.
  intros Hpos Hno Hp. unfold method_batches. f_equal.
  apply sort_by_key_unique; [|by rewrite Hp].
  intros x y [Hmx Hx]%list_elem_of_filter [Hmy Hy]%list_elem_of_filter Hxy.
  rewrite Hp in Hx, Hy. unfold has_method in *.
  apply (no_overlap_same l); [done..|congruence|].
  exists (ModbusPoint.offset x).
  pose proof (positive_sizes_elem l x Hpos Hx).
  pose proof (positive_sizes_elem l y Hpos Hy).
  unfold in_footprint. lia.
Qed.

Lemma make_batches_perm l l' :
  positive_sizes l → no_overlap l → l' ≡ₚ l →
  _make_batches l' ≡ₚ _make_batches l.
Proof.
  intros Hpos Hno Hp. rewrite !make_batches_spec.
  rewrite (methods_of_perm l l' Hp).
  induction (methods_of l) as [|k ks IH]; [done|].
  by rewrite !bind_cons, IH, (method_batches_perm l l').
Qed.

(** Claim C7.  For points of positive width whose footprints do not overlap
    within a method, [_make_batches] on any permutation of the list gives the
    same [(start, count)] pairs as on the list itself, as multisets and hence
    as sets. *)
Theorem make_batches_order_independent l l' :
  positive_sizes l → no_overlap l → l' ≡ₚ l →
  ranges (_make_batches l') ≡ₚ ranges (_make_batches l)
  ∧ ∀ r, r ∈ ranges (_make_batches l') ↔ r ∈ ranges (_make_batches l).
Proof.
  intros Hpos Hno Hp.
  assert (ranges (_make_batches l') ≡ₚ ranges (_make_batches l)) as Hr.
  { unfold ranges. by rewrite (make_batches_perm l l'). }
  split; [done|]. intros r. by rewrite Hr.
Qed.

Lemma make_batches_order_independent_witness :
  ranges (_make_batches [d100; m5; d102])
  ≡ₚ ranges (_make_batches [d102; m5; d100]).
Proof.
  apply (make_batches_order_independent [d102; m5; d100] [d100; m5; d102]
           example_points_positive example_points_no_overlap).
  symmetry. apply (Permutation_rev [d102; m5; d100]).
Defined.

(** ** The example of the gap *)

Lemma methods_of_single l m :
  l ≠ [] → (∀ p, p ∈ l → ModbusPoint.method p = m) → methods_of l = [m].
Proof.
  intros Hne Hall. destruct (group_points_spec l) as (_ & Hnd & Hin).
  assert (∀ k, k ∈ methods_of l → k = m) as Hk.
  { intros k (p & Hp & <-)%Hin. by apply Hall. }
  assert (m ∈ methods_of l) as Hm.
  { destruct l as [|p l]; [done|]. apply Hin. exists p.
    split; [left|]. apply Hall. left. }
  destruct (methods_of l) as [|a [|b ks]].
  - by apply elem_of_nil in Hm.
  - f_equal. apply Hk. left.
  - apply NoDup_cons in Hnd as [Hab _]. destruct Hab.
    rewrite (Hk a), (Hk b); [left|right; left|left].
Qed.

Lemma filter_has_method_all (l : list ModbusPoint.t) m :
  (∀ p, p ∈ l → ModbusPoint.method p = m) → filter (has_method m) l = l.
Proof.
  induction l as [|p l IH]; intros Hall; [done|].
  rewrite filter_cons_True by (apply Hall; left).
  f_equal. apply IH. intros q Hq. apply Hall. by right.
Qed.

(** Claim C8.  Three points of one method at offsets 10, 11 and 13, each of
    width 1, given in any order, make exactly two batches: one with start 10
    and count 2, then one with start 13 and count 1. *)
Theorem make_batches_gap p1 p2 p3 l :
  ModbusPoint.method p2 = ModbusPoint.method p1 →
  ModbusPoint.method p3 = ModbusPoint.method p1 →
  ModbusPoint.offset p1 = 10 → ModbusPoint.size p1 = 1 →
  ModbusPoint.offset p2 = 11 → ModbusPoint.size p2 = 1 →
  ModbusPoint.offset p3 = 13 → ModbusPoint.size p3 = 1 →
  l ≡ₚ [p1; p2; p3] →
  _make_batches l
  = [Batch.Build (ModbusPoint.method p1) 10 2 [p1; p2];
     Batch.Build (ModbusPoint.method p1) 13 1 [p3]].
Proof.
  destruct p1 as [l1 m o1 s1 f1 mem1 a1], p2 as [l2 m2 o2 s2 f2 mem2 a2],
    p3 as [l3 m3 o3 s3 f3 mem3 a3]. simpl.
  intros -> -> -> -> -> -> -> -> Hp.
  set (p1 := ModbusPoint.Build l1 m 10 1 f1 mem1 a1) in *.
  set (p2 := ModbusPoint.Build l2 m 11 1 f2 mem2 a2) in *.
  set (p3 := ModbusPoint.Build l3 m 13 1 f3 mem3 a3) in *.
  assert (∀ p, p ∈ l → ModbusPoint.method p = m) as Hall.
  { intros p. rewrite Hp, !elem_of_cons, elem_of_nil.
    intros [->|[->|[->|[]]]]; done. }
  rewrite make_batches_spec, (methods_of_single l m); [|
    by intros ->; apply Permutation_nil_cons in Hp|done].
  rewrite bind_singleton. unfold method_batches.
  rewrite (filter_has_method_all l m Hall).
  rewrite (sort_by_key_unique _ l [p1; p2; p3]); [| |done].
  - by vm_compute.
  - intros x y. rewrite Hp, !elem_of_cons, !elem_of_nil.
    intros [->|[->|[->|[]]]] [->|[->|[->|[]]]]; simpl; (done || lia).
Qed.

Lemma make_batches_gap_witness :
  _make_batches
    [ModbusPoint.Build "M13" "read_coils" 13 1 "bit" "M" 13;
     ModbusPoint.Build "M10" "read_coils" 10 1 "bit" "M" 10;
     ModbusPoint.Build "M11" "read_coils" 11 1 "bit" "M" 11]
  = [Batch.Build "read_coils" 10 2
       [ModbusPoint.Build "M10" "read_coils" 10 1 "bit" "M" 10;
        ModbusPoint.Build "M11" "read_coils" 11 1 "bit" "M" 11];
     Batch.Build "read_coils" 13 1
       [ModbusPoint.Build "M13" "read_coils" 13 1 "bit" "M" 13]].
Proof.
  apply (make_batches_gap
           (ModbusPoint.Build "M10" "read_coils" 10 1 "bit" "M" 10)
           (ModbusPoint.Build "M11" "read_coils" 11 1 "bit" "M" 11)
           (ModbusPoint.Build "M13" "read_coils" 13 1 "bit" "M" 13));
    try reflexivity.
  apply Permutation_cons_append.
Defined.

(** ** What the loader guarantees *)

Lemma point_type_size mem tp_val size fmt :
  point_type mem tp_val = Ok (size, fmt) → size = 1 ∨ size = 2.
Proof.
  unfold point_type. destruct (decide (mem = "D")) as [_|_];
    [|intros [= <- _]; by left].
  intros (tp_norm & _ & Hty)%bind_Ok.
  destruct (decide (tp_norm = "s16")); [injection Hty as <- _; by left|].
  destruct (decide (tp_norm = "u16")); injection Hty as <- _; auto.
Qed.

Lemma load_rows_sizes float_repr mapping rs : ∀ acc points,
  load_rows float_repr mapping rs acc = Ok points →
  positive_sizes acc → positive_sizes points.
Proof.
  induction rs as [|r rs IH]; intros acc points; simpl.
  - by intros [= <-].
  - intros (pt & Hpt & Hrest)%bind_Ok Hacc. apply (IH _ _ Hrest).
    apply Forall_app. split; [done|]. constructor; [|constructor].
    apply load_point_type in Hpt as [Hty _].
    apply point_type_size in Hty. lia.
Qed.

(** The points [load_points] returns are one or two units wide. *)
Lemma load_points_positive_sizes float_repr mp_df cfg_df points :
  load_points float_repr mp_df cfg_df = Ok points → positive_sizes points.
Proof.
  unfold load_points. intros (mapping & _ & Hrows)%bind_Ok.
  apply (load_rows_sizes _ _ _ _ _ Hrows). constructor.
Qed.

Lemma mapping_add_nonempty float_repr mp r mp' :
  mapping_add float_repr mp r = Ok mp' →
  (∀ mem segs, mp !! mem = Some segs → segs ≠ []) →
  ∀ mem segs, mp' !! mem = Some segs → segs ≠ [].
Proof.
  unfold mapping_add. intros (c_mem & _ & H)%bind_Ok.
  apply bind_Ok in H as (plc_base & _ & H).
  apply bind_Ok in H as (mb_base & _ & H).
  apply bind_Ok in H as (count & _ & H). injection H as <-.
  intros Hmp mem segs. rewrite lookup_insert.
  case_decide as Hk.
  - intros [= <-]. by destruct (default [] _).
  - apply Hmp.
Qed.

Lemma mapping_rows_nonempty float_repr rs : ∀ mp mp',
  mapping_rows float_repr mp rs = Ok mp' →
  (∀ mem segs, mp !! mem = Some segs → segs ≠ []) →
  ∀ mem segs, mp' !! mem = Some segs → segs ≠ [].
Proof.
  induction rs as [|r rs IH]; intros mp mp'; simpl.
  - by intros [= <-].
  - intros (mp1 & Hadd & Hrest)%bind_Ok Hmp.
    apply (IH _ _ Hrest). by eapply mapping_add_nonempty.
Qed.

(** [build_mapping] never stores a category without segments: a category
    has no segments exactly when it is not a key of the map. *)
Lemma build_mapping_nonempty float_repr df mapping mem segs :
  build_mapping float_repr df = Ok mapping →
  mapping !! mem = Some segs → segs ≠ [].
Proof.
  unfold build_mapping. case_decide; [|done].
  intros (mp & Hrows & [= <-])%bind_Ok. rewrite lookup_fmap.
  destruct (mp !! mem) as [segs0|] eqn:Hm; [|done]. intros [= <-] Hnil.
  apply (mapping_rows_nonempty _ _ _ _ Hrows) in Hm.
  - apply Hm. apply Permutation_nil_r. by rewrite <-Hnil, sort_by_key_perm.
  - intros k segs'. by rewrite lookup_empty.
Qed.

(** ** One tick of the polling loop *)

Lemma py_index_in_range {A} (l : list A) i :
  0 ≤ i < Z.of_nat (length l) → ∃ a, py_index l i = Ok a.
Proof.
  intros Hi. destruct (lookup_lt_is_Some_2 l (Z.to_nat i)) as [a Ha]; [lia|].
  exists a. apply py_index_nonneg; [lia|done].
Qed.

(** A member of a batch decodes from a response that is long enough. *)
Lemma decode_value_member b pt rr :
  covers_point b pt → Batch.method b = ModbusPoint.method pt →
  0 < ModbusPoint.size pt → isError rr = false → full_response b rr →
  ∃ v, _decode_value pt (batch_entry b rr) = Ok v.
Proof.
  intros [Hlo Hhi] Hm Hsz Herr Hfull. unfold batch_entry, full_response in *.
  rewrite Herr. rewrite Hm in *. unfold _decode_value.
  destruct (decide (ModbusPoint.method pt ∈ _)) as [Hbit|Hreg]; simpl.
  - destruct (py_index_in_range (bits rr)
                (ModbusPoint.offset pt - Batch.start b)) as [v ->]; [lia|].
    simpl. eauto.
  - destruct (decide (ModbusPoint.size pt = 1)); simpl.
    + destruct (py_index_in_range (registers rr)
                  (ModbusPoint.offset pt - Batch.start b)) as [v ->]; [lia|].
      simpl. case_decide; eauto.
    + destruct (py_index_in_range (registers rr)
                  (ModbusPoint.offset pt - Batch.start b)) as [v ->]; [lia|].
      destruct (py_index_in_range (registers rr)
                  (ModbusPoint.offset pt - Batch.start b + 1)) as [w ->]; [lia|].
      simpl. eauto.
Qed.

Section poll_facts.
Context {Client : Type}.
Variable call : Client → string → Z → Z → result Response * Client.

Lemma read_batches_lookup batches : ∀ client rrs bd,
  reads call client batches = Ok <$> rrs →
  ∃ bd' client',
    read_batches call client batches bd = (Ok bd', client')
    ∧ length rrs = length batches
    ∧ (∀ key, (∀ b, b ∈ batches → batch_key b ≠ key) → bd' !! key = bd !! key)
    ∧ (∀ k b rr,
         batches !! k = Some b → rrs !! k = Some rr →
         (∀ k' b', (k < k')%nat → batches !! k' = Some b' →
                   batch_key b' ≠ batch_key b) →
         bd' !! batch_key b = Some (batch_entry b rr)).
Proof.
  induction batches as [|b0 batches IH]; intros client rrs bd Hreads.
  - destruct rrs; [|done]. exists bd, client. split_and!; [done..|].
    intros k b rr Hk. by rewrite lookup_nil in Hk.
  - simpl in *.
    destruct (call client _ _ _) as [r client0] eqn:Hcall.
    destruct rrs as [|rr0 rrs]; [done|]. rewrite fmap_cons in Hreads.
    injection Hreads as -> Hreads.
    destruct (IH client0 rrs (<[batch_key b0 := batch_entry b0 rr0]> bd) Hreads)
      as (bd' & client' & Hread & Hlen & Hother & Hlook).
    exists bd', client'. split_and!.
    + done.
    + simpl. by rewrite Hlen.
    + intros key Hkey. rewrite Hother.
      * apply lookup_insert_ne, Hkey. left.
      * intros b Hb. apply Hkey. by right.
    + intros [|k] b rr Hk Hrr Hlater; simpl in *.
      * injection Hk as ->. injection Hrr as ->. rewrite Hother.
        { apply lookup_insert_eq. }
        intros b' [k' Hk']%list_elem_of_lookup.
        apply (Hlater (S k')); [lia|done].
      * apply (Hlook k); [done..|].
        intros k' b' Hkk' Hk'. apply (Hlater (S k')); [lia|done].
Qed.

Lemma row_values_spec batches bd points : ∀ row_vals,
  (∀ pt, pt ∈ points → ∃ v, point_value batches bd pt = Ok v) →
  ∃ vals,
    row_values batches bd points row_vals = Ok (row_vals ++ vals)
    ∧ Forall2 (λ pt v, point_value batches bd pt = Ok v) points vals.
Proof.
  induction points as [|pt points IH]; intros row_vals Hall; simpl.
  - exists []. by rewrite app_nil_r.
  - destruct (Hall pt) as [v Hv]; [left|]. rewrite Hv. simpl.
    destruct (IH (row_vals ++ [v])) as (vals & -> & Hvals).
    { intros pt' Hpt'. apply Hall. by right. }
    exists (v :: vals). rewrite <-app_assoc. split; [done|].
    by constructor.
Qed.
End poll_facts.

Lemma batch_keys_distinct points k k' b b' :
  positive_sizes points → no_overlap points → (k < k')%nat →
  _make_batches points !! k = Some b → _make_batches points !! k' = Some b' →
  batch_key b' ≠ batch_key b.
Proof.
  intros Hpos Hno Hlt Hk Hk' [= Hm Hs].
  pose proof (StronglySorted_lookup _ _ _ _ _ _
                (make_batches_apart points Hpos Hno) Hlt Hk Hk') as Hap.
  apply list_elem_of_lookup_2, (make_batches_covers points b Hpos) in Hk
    as [Hcnt _].
  unfold apart_in_method, apart in Hap. rewrite Hm, Hs in Hap.
  specialize (Hap eq_refl). lia.
Qed.

Lemma batch_entry_is_empty b rr :
  BatchData.is_empty (batch_entry b rr) = isError rr.
Proof. unfold batch_entry. destruct (isError rr); [done|]. by case_decide. Qed.

Lemma point_value_member points bd pt b rr :
  positive_sizes points → no_overlap points →
  b ∈ _make_batches points → pt ∈ Batch.points b →
  bd !! batch_key b = Some (batch_entry b rr) →
  point_value (_make_batches points) bd pt
  = Ok (if isError rr then -1
        else try_except (_decode_value pt (batch_entry b rr)) (-1)).
Proof.
  intros Hpos Hno Hb Hpt Hbd. unfold point_value.
  destruct (make_batches_covers points b Hpos Hb) as [_ Hmem].
  destruct (Hmem pt Hpt) as (_ & Hm & Hin).
  rewrite (batch_start_apart (_make_batches points) pt b);
    [|by apply make_batches_apart|done|by eapply member_matches].
  simpl.
  rewrite <-Hm. fold (batch_key b). rewrite Hbd. simpl.
  rewrite batch_entry_is_empty. by destruct (isError rr).
Qed.

Section poll_theorem.
Context {Client : Type}.
Variable call : Client → string → Z → Z → result Response * Client.

(** Claim C5, amended.  Let the points have positive width and footprints
    that do not overlap within a method, and let every read of the tick
    return a response.  Then the tick ends with a row of one value per point:
    a member of a batch whose response is an error gets [-1]; a member of a
    batch whose response is good gets the value decoded from that response
    (which exists when the response is as long as was asked, and is [-1] only
    if decoding raises); and the loop goes on to its next round with this row
    written. *)
Theorem tick_isolates_failed_batch points client rrs :
  positive_sizes points → no_overlap points →
  reads call client (_make_batches points) = Ok <$> rrs →
  ∃ row_vals client',
    tick call (_make_batches points) points client = (Ok row_vals, client')
    ∧ length row_vals = length points
    ∧ length rrs = length (_make_batches points)
    ∧ (∀ i pt k b rr,
         points !! i = Some pt →
         _make_batches points !! k = Some b → pt ∈ Batch.points b →
         rrs !! k = Some rr →
         (isError rr = true → row_vals !! i = Some (-1))
         ∧ (isError rr = false →
            row_vals !! i
            = Some (try_except (_decode_value pt (batch_entry b rr)) (-1)))
         ∧ (isError rr = false → full_response b rr →
            ∃ v, _decode_value pt (batch_entry b rr) = Ok v
                 ∧ row_vals !! i = Some v))
    ∧ (∀ running written,
         run_loop call (_make_batches points) points (true :: running)
           client written
         = run_loop call (_make_batches points) points running
             client' (written ++ [row_vals])).
Proof.
  intros Hpos Hno Hreads.
  destruct (read_batches_lookup call (_make_batches points) client rrs ∅ Hreads)
    as (bd & client' & Hread & Hlen & _ & Hlook).
  assert (∀ k b rr pt,
            _make_batches points !! k = Some b → rrs !! k = Some rr →
            pt ∈ Batch.points b →
            point_value (_make_batches points) bd pt
            = Ok (if isError rr then -1
                  else try_except (_decode_value pt (batch_entry b rr)) (-1)))
    as Hval.
  { intros k b rr pt Hk Hrr Hpt.
    apply (point_value_member points); [done..| |done|].
    - by apply list_elem_of_lookup_2 in Hk.
    - apply (Hlook k); [done..|]. intros k' b' Hlt Hk'.
      by apply (batch_keys_distinct points k k'). }
  destruct (row_values_spec (_make_batches points) bd points [])
    as (row_vals & Hrow & Hrows).
  { intros pt Hpt.
    destruct (make_batches_member points pt Hpt) as (k & b & Hk & Hmem).
    destruct (lookup_lt_is_Some_2 rrs k) as [rr Hrr].
    { rewrite Hlen. by apply lookup_lt_Some in Hk. }
    eexists. by apply (Hval k b rr). }
  simpl in Hrow.
  assert (tick call (_make_batches points) points client
          = (Ok row_vals, client')) as Htick
    by (unfold tick; by rewrite Hread, Hrow).
  exists row_vals, client'. split_and!.
  - done.
  - symmetry. by eapply Forall2_length.
  - done.
  - intros i pt k b rr Hi Hk Hmem Hrr.
    destruct (Forall2_lookup_l _ _ _ _ _ Hrows Hi) as (v & Hv & Hpv).
    rewrite (Hval k b rr pt Hk Hrr Hmem) in Hpv. injection Hpv as <-.
    split_and!.
    + intros Herr. by rewrite Herr in Hv.
    + intros Herr. by rewrite Herr in Hv.
    + intros Herr Hfull. rewrite Herr in Hv.
      apply list_elem_of_lookup_2 in Hk.
      destruct (make_batches_covers points b Hpos Hk) as [_ Hcov].
      destruct (Hcov pt Hmem) as (Hc & Hm & Hin).
      destruct (decode_value_member b pt rr Hc Hm
                  (positive_sizes_elem points pt Hpos Hin) Herr Hfull)
        as [v Hdec].
      exists v. split; [done|]. by rewrite Hv, Hdec.
  - intros running written. simpl. by rewrite Htick.
Qed.
End poll_theorem.

Lemma tick_isolates_failed_batch_witness :
  ∃ row_vals client',
    tick (stub_call 5) (_make_batches [d102; m5; d100]) [d102; m5; d100] tt
    = (Ok row_vals, client')
    ∧ row_vals !! 1%nat = Some (-1)
    ∧ row_vals !! 0%nat = Some 11.
Proof.
  destruct (tick_isolates_failed_batch (stub_call 5) [d102; m5; d100] tt
              [ {| isError := false; bits := [true]; registers := [7; 9; 11] |};
                {| isError := true; bits := []; registers := [] |} ]
              example_points_positive example_points_no_overlap eq_refl)
    as (row_vals & client' & Htick & _ & _ & Hrow & _).
  exists row_vals, client'. split_and!; [done| |].
  - destruct (Hrow 1%nat m5 1%nat (Batch.Build "read_coils" 5 1 [m5])
                {| isError := true; bits := []; registers := [] |}
                eq_refl eq_refl ltac:(left) eq_refl) as [H _].
    by apply H.
  - destruct (Hrow 0%nat d102 0%nat
                (Batch.Build "read_holding_registers" 100 3 [d100; d102])
                {| isError := false; bits := [true]; registers := [7; 9; 11] |}
                eq_refl eq_refl ltac:(right; left) eq_refl) as (_ & H & _).
    by apply H.
Defined.

(** On overlapping points a member of a failed batch can get a value read
    from another batch: the read of the batch of [d101s] fails, and its value
    in the row is 9. *)
Lemma tick_overlapping_points :
  positive_sizes [d100; d101s]
  ∧ _make_batches [d100; d101s]
    = [Batch.Build "read_holding_registers" 100 2 [d100];
       Batch.Build "read_holding_registers" 101 1 [d101s]]
  ∧ reads (stub_call 101) tt (_make_batches [d100; d101s])
    = [Ok {| isError := false; bits := [true]; registers := [7; 9; 11] |};
       Ok {| isError := true; bits := []; registers := [] |}]
  ∧ tick (stub_call 101) (_make_batches [d100; d101s]) [d100; d101s] tt
    = (Ok [589831; 9], tt).
Proof. split_and!; [by repeat constructor|done..]. Qed.

(** ** The shape of the batches *)

Lemma contiguous_total e pts e' :
  contiguous e pts e' → e' = e + total_size pts.
Proof.
  revert e. induction pts as [|p pts IH]; simpl; intros e Hc; [lia|].
  destruct Hc as [_ Hc]. rewrite (IH _ Hc). lia.
Qed.

Lemma contiguous_filled e pts e' a :
  contiguous e pts e' → e ≤ a < e' → ∃ p, p ∈ pts ∧ in_footprint p a.
Proof.
  revert e. induction pts as [|p pts IH]; simpl; intros e Hc Ha; [lia|].
  destruct Hc as [Hp Hc].
  destruct (decide (a < e + ModbusPoint.size p)) as [Hlt|Hge].
  - exists p. split; [left|]. unfold in_footprint. lia.
  - destruct (IH _ Hc) as (q & Hq & Hin); [lia|].
    exists q. split; [by right|done].
Qed.

Lemma batched_shape m pts bs :
  batched m pts bs →
  Forall (λ b, ∃ p taken,
            Batch.points b = p :: taken
            ∧ Batch.method b = m
            ∧ Batch.start b = ModbusPoint.offset p
            ∧ contiguous (Batch.start b) (Batch.points b)
                (Batch.start b + Batch.count b)
            ∧ ∀ q, q ∈ Batch.points b → q ∈ pts) bs.
Proof.
  induction 1 as [|p taken rest e' bs Hc _ _ IH]; constructor.
  - exists p, taken. split; [done|]. split; [done|]. split; [done|]. split.
    + simpl. split; [done|].
      by replace (ModbusPoint.offset p + (e' - ModbusPoint.offset p)) with e'
        by lia.
    + simpl. intros q Hq. change (p :: taken ++ rest) with ((p :: taken) ++ rest).
      apply elem_of_app. by left.
  - eapply Forall_impl; [exact IH|].
    intros b (q & tk & Hpts & Hm & Hs & Hcb & Hsub).
    exists q, tk. split_and!; [done..|].
    intros x Hx. right. apply elem_of_app. right. by apply Hsub.
Qed.

Lemma make_batches_shape l b :
  b ∈ _make_batches l →
  ∃ p taken,
    Batch.points b = p :: taken
    ∧ Batch.start b = ModbusPoint.offset p
    ∧ contiguous (Batch.start b) (Batch.points b)
        (Batch.start b + Batch.count b)
    ∧ ∀ q, q ∈ Batch.points b → q ∈ l ∧ ModbusPoint.method q = Batch.method b.
Proof.
  intros (m & Hm & Hb)%elem_of_make_batches.
  pose proof (batched_shape _ _ _ (method_batches_batched l m)) as Hall.
  rewrite Forall_forall in Hall.
  destruct (Hall b Hb) as (p & taken & Hpts & Hbm & Hs & Hc & Hsub).
  exists p, taken. split_and!; [done..|].
  intros q Hq. rewrite Hbm. by apply elem_of_sorted_group, Hsub.
Qed.

(** Whatever the points are, the batches hold each of them once: the points
    of the batches, taken batch after batch, are a rearrangement of the
    input.  No batch is empty, every member of a batch is read with the
    method of the batch, and there is no batch exactly when there is no
    point. *)
Theorem make_batches_partition l :
  batch_order (_make_batches l) ≡ₚ l
  ∧ Forall (λ b, Batch.points b ≠ []
                 ∧ Forall (has_method (Batch.method b)) (Batch.points b))
      (_make_batches l)
  ∧ (_make_batches l = [] ↔ l = []).
Proof.
  split; [apply make_batches_points|]. split.
  - apply Forall_forall. intros b Hb.
    destruct (make_batches_shape l b Hb) as (p & taken & Hpts & _ & _ & Hsub).
    split; [by rewrite Hpts|].
    apply Forall_forall. intros q Hq. by apply Hsub.
  - pose proof (make_batches_points l) as Hperm. split.
    + intros Hnil. rewrite Hnil in Hperm. by apply Permutation_nil_l in Hperm.
    + by intros ->.
Qed.

(** A batch starts at the offset of its first member; its members follow
    one another without a gap up to the end of its range; its count is the
    sum of their widths; and every address of its range lies in the footprint
    of a member, so that a read asks for nothing that no point uses.  This
    holds of every list of points. *)
Theorem make_batches_tight l :
  Forall (λ b,
    (∃ p, head (Batch.points b) = Some p
          ∧ Batch.start b = ModbusPoint.offset p)
    ∧ contiguous (Batch.start b) (Batch.points b)
        (Batch.start b + Batch.count b)
    ∧ Batch.count b = total_size (Batch.points b)
    ∧ ∀ a, Batch.start b ≤ a < Batch.start b + Batch.count b →
           ∃ p, p ∈ Batch.points b ∧ in_footprint p a)
    (_make_batches l).
Proof.
  apply Forall_forall. intros b Hb.
  destruct (make_batches_shape l b Hb) as (p & taken & Hpts & Hs & Hc & _).
  split_and!.
  - exists p. by rewrite Hpts.
  - done.
  - apply contiguous_total in Hc. lia.
  - intros a Ha. by eapply contiguous_filled.
Qed.

(** Batches are as long as they can be.  When the widths are positive and
    the footprints of a method do not overlap, the address just after a batch
    and the address just before it belong to no point of the batch's
    method. *)
Theorem make_batches_maximal l b p :
  positive_sizes l → no_overlap l →
  b ∈ _make_batches l → p ∈ l → ModbusPoint.method p = Batch.method b →
  ¬ in_footprint p (Batch.start b + Batch.count b)
  ∧ ¬ in_footprint p (Batch.start b - 1).
Proof.
  intros Hpos Hno Hb Hp Hm.
  destruct (make_batches_member l p Hp) as (k' & b' & Hk' & Hpb').
  destruct (make_batches_covers l b' Hpos) as [_ Hcov];
    [by eapply list_elem_of_lookup_2|].
  destruct (Hcov p Hpb') as ([Hlo Hhi] & Hm' & _).
  apply list_elem_of_lookup in Hb as [k Hk].
  pose proof (make_batches_apart l Hpos Hno) as Hsorted.
  unfold in_footprint.
  destruct (lt_eq_lt_dec k k') as [[Hlt| ->]|Hgt].
  - pose proof (StronglySorted_lookup _ _ _ _ _ _ Hsorted Hlt Hk Hk') as Hap.
    unfold apart_in_method, apart in Hap. specialize (Hap ltac:(congruence)).
    destruct (make_batches_covers l b Hpos) as [Hcnt _];
      [by eapply list_elem_of_lookup_2|].
    lia.
  - simplify_eq. lia.
  - pose proof (StronglySorted_lookup _ _ _ _ _ _ Hsorted Hgt Hk' Hk) as Hap.
    unfold apart_in_method, apart in Hap. specialize (Hap ltac:(congruence)).
    destruct (make_batches_covers l b Hpos) as [Hcnt _];
      [by eapply list_elem_of_lookup_2|].
    lia.
Qed.

Lemma make_batches_maximal_witness :
  ¬ in_footprint d102 (100 + 3) ∧ ¬ in_footprint d102 (100 - 1).
Proof.
  apply (make_batches_maximal [d102; m5; d100]
           (Batch.Build "read_holding_registers" 100 3 [d100; d102]) d102).
  - apply example_points_positive.
  - apply example_points_no_overlap.
  - by apply (list_elem_of_lookup_2 _ 0%nat).
  - apply list_elem_of_here.
  - reflexivity.
Defined.

(** ** Batching again *)

Section sorted_input.
Context {A : Type} (key : A → Z).

Lemma sort_by_key_sorted_id l :
  StronglySorted (λ a b, key a ≤ key b) l → sort_by_key key l = l.
Proof.
  induction 1 as [|x l Hs IH Hx]; simpl; [done|].
  rewrite IH. destruct l as [|y l]; simpl; [done|].
  apply Forall_cons in Hx as [Hxy _]. by rewrite decide_True.
Qed.

Lemma sort_by_key_idemp l :
  sort_by_key key (sort_by_key key l) = sort_by_key key l.
Proof. apply sort_by_key_sorted_id, sort_by_key_sorted. Qed.
End sorted_input.

Lemma grouped_append_new g p :
  ModbusPoint.method p ∉ g.*1 →
  grouped_append g p = g ++ [(ModbusPoint.method p, [p])].
Proof.
  induction g as [|[m pts] g IH]; simpl; intros Hm; [done|].
  apply not_elem_of_cons in Hm as [Hne Hm].
  rewrite decide_False by done. by rewrite IH.
Qed.

Lemma grouped_append_last g m pts p :
  m ∉ g.*1 → ModbusPoint.method p = m →
  grouped_append (g ++ [(m, pts)]) p = g ++ [(m, pts ++ [p])].
Proof.
  intros Hm <-. induction g as [|[m' pts'] g IH]; simpl.
  - by rewrite decide_True.
  - apply not_elem_of_cons in Hm as [Hne Hm].
    rewrite decide_False by done. by rewrite IH.
Qed.

Lemma fold_grouped_append_last g m pts : ∀ acc,
  m ∉ g.*1 → (∀ p, p ∈ pts → ModbusPoint.method p = m) →
  fold_left grouped_append pts (g ++ [(m, acc)]) = g ++ [(m, acc ++ pts)].
Proof.
  induction pts as [|p pts IH]; intros acc Hm Hall; simpl.
  - by rewrite app_nil_r.
  - rewrite grouped_append_last; [|done|apply Hall; left].
    rewrite IH; [|done|intros q Hq; apply Hall; by right].
    by rewrite <-app_assoc.
Qed.

Lemma fold_grouped_append_new g m pts :
  m ∉ g.*1 → pts ≠ [] → (∀ p, p ∈ pts → ModbusPoint.method p = m) →
  fold_left grouped_append pts g = g ++ [(m, pts)].
Proof.
  destruct pts as [|p pts]; [done|]. intros Hm _ Hall. simpl.
  assert (ModbusPoint.method p = m) as Hp by (apply Hall; left).
  rewrite grouped_append_new by (by rewrite Hp). rewrite Hp.
  apply (fold_grouped_append_last g m pts [p]); [done|].
  intros q Hq. apply Hall. by right.
Qed.

(** Grouping a list that already comes group after group gives the groups
    back. *)
Lemma group_points_grouped (f : string → list ModbusPoint.t) ms :
  NoDup ms →
  (∀ m, m ∈ ms → f m ≠ [] ∧ ∀ p, p ∈ f m → ModbusPoint.method p = m) →
  group_points (ms ≫= f) = (λ m, (m, f m)) <$> ms.
Proof.
  induction ms as [|m ms IH] using rev_ind; intros Hnd Hf; [done|].
  apply NoDup_app in Hnd as (Hnd & Hdisj & _).
  rewrite bind_app, fmap_app. unfold group_points in *.
  rewrite fold_left_app, IH; [|done|intros m' Hm'; apply Hf, elem_of_app; by left].
  simpl. rewrite app_nil_r.
  destruct (Hf m) as [Hne Hall]; [apply elem_of_app; right; left|].
  apply fold_grouped_append_new; [|done..].
  rewrite <-list_fmap_compose. simpl. rewrite list_fmap_id.
  intros Hin. apply (Hdisj m Hin). left.
Qed.

Lemma methods_of_nonempty l m :
  m ∈ methods_of l →
  sort_by_key ModbusPoint.offset (filter (has_method m) l) ≠ [].
Proof.
  intros Hm. destruct (group_points_spec l) as (_ & _ & Hmem).
  apply Hmem in Hm as (p & Hp & Hpm).
  assert (p ∈ sort_by_key ModbusPoint.offset (filter (has_method m) l)) as Hin
    by (by apply elem_of_sorted_group).
  intros Hnil. rewrite Hnil in Hin. by apply elem_of_nil in Hin.
Qed.

Lemma bind_ext_elem_of {A B} (f g : A → list B) (l : list A) :
  (∀ x, x ∈ l → f x = g x) → l ≫= f = l ≫= g.
Proof.
  induction l as [|x l IH]; intros Hfg; [done|].
  rewrite !bind_cons, Hfg by left. f_equal. apply IH.
  intros y Hy. apply Hfg. by right.
Qed.

Lemma batch_order_groups l :
  batch_order (_make_batches l)
  = methods_of l ≫= λ m, sort_by_key ModbusPoint.offset (filter (has_method m) l).
Proof.
  unfold batch_order. rewrite make_batches_spec.
  induction (methods_of l) as [|m ms IH]; [done|].
  rewrite !bind_cons, bind_app, IH. f_equal.
  apply (batched_points m), method_batches_batched.
Qed.

(** Batching the points again, in the order in which the batches hold them,
    gives the same batches. *)
Theorem make_batches_idempotent l :
  _make_batches (batch_order (_make_batches l)) = _make_batches l.
Proof.
  destruct (group_points_spec l) as (_ & Hnd & _).
  rewrite batch_order_groups. unfold _make_batches at 1.
  rewrite group_points_grouped; [|done|].
  - rewrite fold_left_scan, make_batches_spec, bind_fmap. simpl.
    apply bind_ext_elem_of. intros m _. simpl. unfold method_batches.
    by rewrite sort_by_key_idemp.
  - intros m Hm. split; [by apply methods_of_nonempty|].
    intros p Hp. by apply elem_of_sorted_group in Hp as [_ Hp].
Qed.

(** ** The first rule that applies *)

Lemma find_segment_first mem a segs r :
  find_segment mem a segs = Ok r →
  ∃ i seg, segs !! i = Some seg ∧ covers seg a
    ∧ r = Segment.mb_base seg + (a - Segment.plc_base seg)
    ∧ ∀ j seg', (j < i)%nat → segs !! j = Some seg' → ¬ covers seg' a.
Proof.
  induction segs as [|s segs IH]; simpl; [done|].
  destruct (decide _) as [Hc|Hc].
  - intros [= <-]. exists 0%nat, s. split_and!; [done..|]. intros; lia.
  - intros (i & seg & Hi & Hcov & Hr & Hfirst)%IH.
    exists (S i), seg. split_and!; [done..|].
    intros [|j] seg' Hj; simpl; [by intros [= <-]|].
    apply Hfirst. lia.
Qed.

(** When the translation returns, the category is a key of the map and the
    result comes from the first segment of its list that maps the address,
    also when segments overlap; the result lies in the physical range of that
    segment. *)
Theorem plc_to_modbus_first_match (mapping : gmap string (list Segment.t))
    mem a r :
  plc_to_modbus mem a mapping = Ok r →
  ∃ segs i seg,
    mapping !! mem = Some segs ∧ segs !! i = Some seg ∧ covers seg a
    ∧ r = Segment.mb_base seg + (a - Segment.plc_base seg)
    ∧ Segment.mb_base seg ≤ r < Segment.mb_base seg + Segment.count seg
    ∧ ∀ j seg', (j < i)%nat → segs !! j = Some seg' → ¬ covers seg' a.
Proof.
  unfold plc_to_modbus. destruct (mapping !! mem) as [segs|]; [|done].
  intros (i & seg & Hi & Hcov & -> & Hfirst)%find_segment_first.
  exists segs, i, seg. split_and!; try done; unfold covers in Hcov; lia.
Qed.

Lemma plc_to_modbus_first_match_witness :
  ∃ segs i seg,
    ({[ "D" := [Segment.Build 0 0 1000; Segment.Build 500 5000 100] ]}
       : gmap string (list Segment.t)) !! "D" = Some segs
    ∧ segs !! i = Some seg ∧ covers seg 550
    ∧ 550 = Segment.mb_base seg + (550 - Segment.plc_base seg)
    ∧ Segment.mb_base seg ≤ 550 < Segment.mb_base seg + Segment.count seg
    ∧ ∀ j seg', (j < i)%nat → segs !! j = Some seg' → ¬ covers seg' 550.
Proof.
  apply (plc_to_modbus_first_match
           {[ "D" := [Segment.Build 0 0 1000; Segment.Build 500 5000 100] ]}
           "D" 550 550).
  reflexivity.
Defined.

(** ** The map that [build_mapping] builds *)

Section mapping_facts.
Variable float_repr : spec_float → string.

Lemma mapping_add_entry mp r mp' :
  mapping_add float_repr mp r = Ok mp' →
  ∃ e, row_segment float_repr r = Ok e
       ∧ mp' = <[e.1 := default [] (mp !! e.1) ++ [e.2]]> mp.
Proof.
  unfold mapping_add, row_segment. intros (c_mem & -> & H)%bind_Ok.
  apply bind_Ok in H as (plc_base & -> & H).
  apply bind_Ok in H as (mb_base & -> & H).
  apply bind_Ok in H as (count & -> & H). injection H as <-.
  by eexists.
Qed.

Lemma mapping_rows_entries rs : ∀ mp mp',
  mapping_rows float_repr mp rs = Ok mp' →
  ∃ entries,
    Forall2 (λ r e, row_segment float_repr r = Ok e) rs entries
    ∧ ∀ mem,
        default [] (mp' !! mem) = default [] (mp !! mem) ++ rules_of mem entries
        ∧ (is_Some (mp' !! mem) ↔ is_Some (mp !! mem) ∨ mem ∈ entries.*1).
Proof.
  induction rs as [|r rs IH]; intros mp mp'; simpl.
  - intros [= <-]. exists []. split; [constructor|]. intros mem.
    unfold rules_of. simpl. rewrite app_nil_r. split; [done|].
    split; [by left|]. intros [?|?%elem_of_nil]; done.
  - intros (mp1 & (e & He & ->)%mapping_add_entry & Hrest)%bind_Ok.
    destruct (IH _ _ Hrest) as (entries & Hall & Hmem).
    exists (e :: entries). split; [by constructor|]. intros mem.
    destruct (Hmem mem) as [Hsegs Hkey]. rewrite Hsegs, Hkey.
    unfold rules_of. rewrite filter_cons, fmap_cons.
    destruct (decide (e.1 = mem)) as [<-|Hne].
    + rewrite lookup_insert_eq. simpl. rewrite <-app_assoc. split; [done|].
      split; [intros _; right; left|intros _; by left].
    + rewrite lookup_insert_ne by done. split; [done|].
      split; [intros [?|?]; [by left|right; by right]|].
      intros [?|[->|?]%elem_of_cons]; [by left|done|by right].
Qed.

(** The map holds the rows of the mapping sheet and nothing else.  Every row
    stands for a category (its name trimmed and in upper case) and a rule; the
    segments of a category are the rules of its rows, sorted by logical base,
    rows of equal base staying in the order of the sheet; a category is a key
    exactly when a row names it, and then its list is not empty. *)
Theorem build_mapping_rows df mapping :
  build_mapping float_repr df = Ok mapping →
  ∃ entries,
    Forall2 (λ r e, row_segment float_repr r = Ok e) (rows df) entries
    ∧ ∀ mem,
        segments_of mapping mem
        = sort_by_key Segment.plc_base (rules_of mem entries)
        ∧ StronglySorted (λ s1 s2, Segment.plc_base s1 ≤ Segment.plc_base s2)
            (segments_of mapping mem)
        ∧ (is_Some (mapping !! mem) ↔ mem ∈ entries.*1)
        ∧ (is_Some (mapping !! mem) ↔ segments_of mapping mem ≠ []).
Proof.
  unfold build_mapping. case_decide; [|done].
  intros (mp & Hrows & [= <-])%bind_Ok.
  destruct (mapping_rows_entries _ _ _ Hrows) as (entries & Hall & Hmem).
  exists entries. split; [done|]. intros mem.
  destruct (Hmem mem) as [Hsegs Hkey].
  rewrite lookup_empty in Hsegs, Hkey. simpl in Hsegs.
  assert (segments_of (sort_by_key Segment.plc_base <$> mp) mem
          = sort_by_key Segment.plc_base (rules_of mem entries)) as Heq.
  { unfold segments_of. rewrite lookup_fmap, <-Hsegs.
    by destruct (mp !! mem). }
  assert (is_Some ((sort_by_key Segment.plc_base <$> mp) !! mem)
          ↔ mem ∈ entries.*1) as Hdom.
  { rewrite lookup_fmap, fmap_is_Some, Hkey.
    split; [intros [[? [=]]|?]; done|by right]. }
  split_and!; [done| |done|].
  - rewrite Heq. apply sort_by_key_sorted.
  - rewrite Hdom, Heq. unfold rules_of.
    split.
    + intros ([mem' seg] & Hfst & Hin)%list_elem_of_fmap Hnil.
      simpl in Hfst. subst mem'.
      assert (seg ∈ (filter (λ e, e.1 = mem) entries).*2) as Hseg.
      { apply list_elem_of_fmap. exists (mem, seg). split; [done|].
        by apply list_elem_of_filter. }
      assert ((filter (λ e, e.1 = mem) entries).*2 = []) as Hnone.
      { apply Permutation_nil_r. by rewrite <-Hnil, sort_by_key_perm. }
      rewrite Hnone in Hseg. by apply elem_of_nil in Hseg.
    + intros Hne. destruct (filter _ entries) as [|e es] eqn:Hf; [done|].
      assert (e ∈ filter (λ e, e.1 = mem) entries) as He
        by (rewrite Hf; left).
      apply list_elem_of_filter in He as [<- He].
      apply list_elem_of_fmap. by exists e.
Qed.

End mapping_facts.

Lemma build_mapping_rows_witness :
  ∃ entries,
    Forall2 (λ r e, row_segment example_float_repr r = Ok e)
      (rows example_mapping_sheet) entries
    ∧ ∀ mem,
        segments_of example_mapping mem
        = sort_by_key Segment.plc_base (rules_of mem entries)
        ∧ StronglySorted (λ s1 s2, Segment.plc_base s1 ≤ Segment.plc_base s2)
            (segments_of example_mapping mem)
        ∧ (is_Some (example_mapping !! mem) ↔ mem ∈ entries.*1)
        ∧ (is_Some (example_mapping !! mem)
           ↔ segments_of example_mapping mem ≠ []).
Proof.
  apply (build_mapping_rows example_float_repr example_mapping_sheet
           example_mapping).
  reflexivity.
Defined.

(** ** What can go wrong in reading a row *)

Lemma int_of_str_raises base txt e :
  int_of_str base txt = Raise e → e = ValueError InvalidLiteral.
Proof.
  unfold int_of_str.
  match goal with
  | |- (let '(_, _) := ?X in _) = _ → _ => destruct X as [neg body]
  end.
  match goal with
  | |- match ?X with EmptyString => _ | String _ _ => _ end = _ → _ =>
      generalize X; intros body'
  end.
  repeat case_match; congruence.
Qed.

Lemma int_of_float_raises f e :
  int_of_float f = Raise e → e = OverflowError ∨ e = ValueError InvalidLiteral.
Proof. destruct f; simpl; intros [= <-]; auto. Qed.

Lemma parse_int_raises val e :
  parse_int val = Raise e → e = OverflowError ∨ e = ValueError InvalidLiteral.
Proof.
  unfold parse_int.
  destruct val as [|z|f|s]; [|done|apply int_of_float_raises|];
    cbv zeta; destruct (any_hex_letter _);
    intros ->%int_of_str_raises; by right.
Qed.

Lemma row_item_raises r col e : row_item r col = Raise e → e = KeyError col.
Proof. unfold row_item. destruct (r !! col); by intros [= <-]. Qed.

Lemma plc_to_modbus_raises mem a (mapping : gmap string (list Segment.t)) e :
  plc_to_modbus mem a mapping = Raise e →
  e = KeyError mem ∨ e = ValueError (OutOfMapping mem a).
Proof.
  unfold plc_to_modbus. destruct (mapping !! mem) as [segs|].
  - intros ->%find_segment_raises. by right.
  - intros [= <-]. by left.
Qed.

Lemma normalize_type_cases tp :
  (∃ t, _normalize_type tp = Ok t ∧ t ∈ ["s16"; "u16"; ""]
        ∧ ∀ s, tp ≠ CFloat (S754_infinity s))
  ∨ (∃ s, tp = CFloat (S754_infinity s)
          ∧ _normalize_type tp = Raise OverflowError).
Proof.
  assert (∀ txt : string,
    (if decide (lower (strip txt) ∈ ["16"; "s16"; "int16"]) then Ok "s16"
     else if decide (lower (strip txt) ∈ ["u16"; "uint16"]) then Ok "u16"
     else Ok "") = (Ok "s16" : result string)
    ∨ (if decide (lower (strip txt) ∈ ["16"; "s16"; "int16"]) then Ok "s16"
       else if decide (lower (strip txt) ∈ ["u16"; "uint16"]) then Ok "u16"
       else Ok "") = (Ok "u16" : result string)
    ∨ (if decide (lower (strip txt) ∈ ["16"; "s16"; "int16"]) then Ok "s16"
       else if decide (lower (strip txt) ∈ ["u16"; "uint16"]) then Ok "u16"
       else Ok "") = (Ok "" : result string)) as Hcases.
  { intros txt. repeat case_decide; auto. }
  assert (∀ (r : result string),
    r = Ok "s16" ∨ r = Ok "u16" ∨ r = Ok "" →
    ∃ t, r = Ok t ∧ t ∈ ["s16"; "u16"; ""]) as Hin.
  { intros r [->|[->| ->]]; eexists; (split; [done|]);
      repeat first [apply list_elem_of_here | apply list_elem_of_further]. }
  destruct tp as [|z|[s|s| |s m e]|txt]; unfold _normalize_type; simpl.
  - left. exists "". split_and!; [done|decide_by_compute|done].
  - left. destruct (Hin _ (Hcases (pretty z))) as (t & Ht & Hmem).
    exists t. by split_and!.
  - left. destruct (Hin _ (Hcases (pretty 0))) as (t & Ht & Hmem).
    exists t. by split_and!.
  - right. by exists s.
  - left. exists "". split_and!; [done|decide_by_compute|done].
  - left. destruct (Hin _ (Hcases (pretty (float_num s m e ÷ float_den e))))
      as (t & Ht & Hmem).
    exists t. by split_and!.
  - left. destruct (Hin _ (Hcases txt)) as (t & Ht & Hmem).
    exists t. by split_and!.
Qed.

Lemma point_type_raises mem tp e :
  point_type mem tp = Raise e → e = OverflowError.
Proof.
  unfold point_type. case_decide; [|done].
  destruct (normalize_type_cases tp) as [(t & -> & _)|(s & -> & ->)]; simpl.
  - by repeat case_decide.
  - by intros [= <-].
Qed.

Lemma point_type_word tp size fmt :
  point_type "D" tp = Ok (size, fmt) →
  size = 1 ∧ fmt ∈ ["s16"; "u16"] ∨ size = 2 ∧ fmt = "s32".
Proof.
  unfold point_type. rewrite decide_True by done.
  intros (t & _ & Hty)%bind_Ok.
  repeat case_decide; injection Hty as <- <-; [left..|by right];
    (split; [done|]);
    repeat first [apply list_elem_of_here | apply list_elem_of_further].
Qed.

(** [_normalize_type] raises on an infinite float cell, with
    [OverflowError], and on nothing else; what it returns is one of ["s16"],
    ["u16"] and the empty text.  So the type block of [load_points] raises
    exactly on a word point whose hint is an infinite float. *)
Theorem normalize_type_result tp :
  (∀ e, _normalize_type tp = Raise e
        ↔ (∃ s, tp = CFloat (S754_infinity s)) ∧ e = OverflowError)
  ∧ (∀ t, _normalize_type tp = Ok t → t ∈ ["s16"; "u16"; ""])
  ∧ (∀ mem e, point_type mem tp = Raise e
        ↔ mem = "D" ∧ (∃ s, tp = CFloat (S754_infinity s)) ∧ e = OverflowError).
Proof.
  destruct (normalize_type_cases tp) as [(t & Ht & Hmem & Hfin)|(s & -> & Hr)].
  - split_and!.
    + intros e. rewrite Ht. split; [done|]. intros [[s ->] _]. by destruct (Hfin s).
    + intros t'. rewrite Ht. by intros [= <-].
    + intros mem e. unfold point_type. case_decide as HD.
      * rewrite Ht. simpl. split; [by repeat case_decide|].
        intros (_ & [s ->] & _). by destruct (Hfin s).
      * split; [done|]. by intros [? _].
  - split_and!.
    + intros e. rewrite Hr. split; [intros [= <-]; eauto|by intros [_ ->]].
    + intros t. by rewrite Hr.
    + intros mem e. unfold point_type. case_decide as HD.
      * rewrite Hr. simpl. split; [intros [= <-]; eauto|by intros (_ & _ & ->)].
      * split; [done|]. by intros [? _].
Qed.

Section loader_facts.
Variable float_repr : spec_float → string.

Lemma point_label_cases r mem plc_addr :
  (∃ label, point_label float_repr r mem plc_addr = Ok label
            ∧ (isna (row_get r "desc") = true →
               decimal_digits plc_addr ≤ int_max_str_digits))
  ∨ (point_label float_repr r mem plc_addr = Raise (ValueError TooManyDigits)
     ∧ isna (row_get r "desc") = true
     ∧ ¬ decimal_digits plc_addr ≤ int_max_str_digits).
Proof.
  unfold point_label, str_of_int.
  destruct (isna (row_get r "desc")); [|left; by eexists].
  destruct (decide (decimal_digits plc_addr ≤ int_max_str_digits));
    [left; by eexists|by right].
Qed.

(** A row is refused as an unsupported memory type exactly when its category
    is a key of the map, its address is mapped there, the category has no
    access method, and the label could be made: a row without a description
    is labelled with its address, which [str] refuses beyond the limit of
    digits.  A category that is missing from the map is a [KeyError] before
    its method is looked up. *)
Theorem load_point_unsupported mapping r m :
  load_point float_repr mapping r = Raise (ValueError (UnsupportedMem m))
  ↔ ∃ c_mem plc_addr mb_addr,
      row_item r "mem" = Ok c_mem
      ∧ m = upper (strip (py_str float_repr c_mem))
      ∧ row_item r "plc_addr" ≫= parse_int = Ok plc_addr
      ∧ (isna (row_get r "desc") = true →
         decimal_digits plc_addr ≤ int_max_str_digits)
      ∧ plc_to_modbus m plc_addr mapping = Ok mb_addr
      ∧ MEM_METHOD !! m = None.
Proof.
  unfold load_point. split.
  - destruct (row_item r "mem") as [c_mem|e] eqn:Hmem; simpl;
      [|by apply row_item_raises in Hmem as ->].
    destruct (row_item r "plc_addr") as [c_addr|e] eqn:Haddr; simpl;
      [|by apply row_item_raises in Haddr as ->].
    destruct (parse_int c_addr) as [plc_addr|e] eqn:Hparse; simpl;
      [|by apply parse_int_raises in Hparse as [-> | ->]].
    destruct (point_label_cases r
                (upper (strip (py_str float_repr c_mem))) plc_addr)
      as [(label & -> & Hlabel)|(-> & _)]; simpl; [|done].
    destruct (plc_to_modbus _ plc_addr mapping) as [mb_addr|e] eqn:Hmb; simpl;
      [|by apply plc_to_modbus_raises in Hmb as [-> | ->]].
    destruct (MEM_METHOD !! _) as [method|] eqn:Hmeth.
    + destruct (point_type _ _) as [[size fmt]|e] eqn:Hty; simpl; [done|].
      by apply point_type_raises in Hty as ->.
    + intros [= <-]. by exists c_mem, plc_addr, mb_addr.
  - intros (c_mem & plc_addr & mb_addr & -> & -> & Haddr & Hlabel & Hmb & Hmeth).
    simpl. rewrite Haddr. simpl.
    destruct (point_label_cases r
                (upper (strip (py_str float_repr c_mem))) plc_addr)
      as [(label & -> & _)|(_ & Hna & Hbig)]; [|by destruct Hbig; apply Hlabel].
    simpl. rewrite Hmb. simpl. by rewrite Hmeth.
Qed.

Lemma load_rows_Forall2 mapping rs : ∀ acc points,
  load_rows float_repr mapping rs acc = Ok points →
  ∃ pts, points = acc ++ pts
         ∧ Forall2 (λ r pt, load_point float_repr mapping r = Ok pt) rs pts.
Proof.
  induction rs as [|r rs IH]; intros acc points; simpl.
  - intros [= <-]. exists []. by rewrite app_nil_r.
  - intros (pt & Hpt & (pts & -> & Hall)%IH)%bind_Ok.
    exists (pt :: pts). rewrite <-app_assoc. split; [done|]. by constructor.
Qed.

Lemma MEM_METHOD_cases mem method :
  MEM_METHOD !! mem = Some method →
  (mem ∈ ["M"; "L"; "Y"] ∧ method = "read_coils")
  ∨ (mem = "X" ∧ method = "read_discrete_inputs")
  ∨ (mem = "D" ∧ method = "read_holding_registers").
Proof.
  unfold MEM_METHOD. simpl. intros H.
  repeat (apply lookup_insert_Some in H as [[<- <-]|[_ H]];
          [first [ left; split; [|done];
                     repeat first [apply list_elem_of_here
                                  | apply list_elem_of_further]; fail
                 | right; left; done | right; right; done ] |]).
  by rewrite lookup_empty in H.
Qed.

Lemma load_point_fields mapping r pt :
  load_point float_repr mapping r = Ok pt →
  plc_to_modbus (ModbusPoint.mem pt) (ModbusPoint.plc_addr pt) mapping
  = Ok (ModbusPoint.offset pt)
  ∧ (∃ c_mem, row_item r "mem" = Ok c_mem
        ∧ ModbusPoint.mem pt = upper (strip (py_str float_repr c_mem)))
  ∧ row_item r "plc_addr" ≫= parse_int = Ok (ModbusPoint.plc_addr pt)
  ∧ well_formed pt.
Proof.
  intros Hpt. pose proof (load_point_type _ _ _ _ Hpt) as [Hty Hmeth].
  unfold load_point in Hpt.
  apply bind_Ok in Hpt as (c_mem & Hmem & H).
  apply bind_Ok in H as (plc_addr & Haddr & H).
  apply bind_Ok in H as (label & _ & H).
  apply bind_Ok in H as (mb_addr & Hmb & H).
  destruct (MEM_METHOD !! _) as [method|]; [|done].
  apply bind_Ok in H as ([size fmt] & _ & H).
  injection H as <-. simpl in *.
  split_and!; [done|by exists c_mem|done|].
  unfold well_formed. simpl.
  apply MEM_METHOD_cases in Hmeth as [[Hm ->]|[[Hm ->]|[Hm ->]]].
  - left. unfold point_type in Hty. rewrite decide_False in Hty.
    + by injection Hty as <- <-.
    + intros HD. rewrite HD in Hm. revert Hm. apply (bool_decide_unpack _).
      by vm_compute.
  - right; left. unfold point_type in Hty. rewrite Hm in Hty.
    rewrite decide_False in Hty by done. by injection Hty as <- <-.
  - right; right. split_and!; [done..|].
    rewrite Hm in Hty.
    by apply point_type_word in Hty.
Qed.

(** [load_points] returns one point per row of the configuration sheet, in
    the order of the rows.  Each point carries the category and the address of
    its row, and its offset is the translation of that address through the map
    built from the mapping sheet. *)
Theorem load_points_rows mp_df cfg_df points :
  load_points float_repr mp_df cfg_df = Ok points →
  ∃ mapping,
    build_mapping float_repr mp_df = Ok mapping
    ∧ Forall2 (λ r pt,
        load_point float_repr mapping r = Ok pt
        ∧ (∃ c_mem, row_item r "mem" = Ok c_mem
              ∧ ModbusPoint.mem pt = upper (strip (py_str float_repr c_mem)))
        ∧ row_item r "plc_addr" ≫= parse_int = Ok (ModbusPoint.plc_addr pt)
        ∧ plc_to_modbus (ModbusPoint.mem pt) (ModbusPoint.plc_addr pt) mapping
          = Ok (ModbusPoint.offset pt))
        (rows cfg_df) points.
Proof.
  unfold load_points. intros (mapping & Hmap & Hrows)%bind_Ok.
  exists mapping. split; [done|].
  apply load_rows_Forall2 in Hrows as (pts & -> & Hall). simpl.
  eapply Forall2_impl; [exact Hall|]. intros r pt Hpt. split; [done|].
  apply load_point_fields in Hpt as (? & ? & ? & _). done.
Qed.

(** Every loaded point has one of five shapes: a coil of [M], [L] or [Y]
    or a discrete input of [X], one unit wide and of format ["bit"]; or a
    holding register of [D], one unit wide and of format ["s16"] or ["u16"],
    or two units wide and of format ["s32"]. *)
Theorem load_points_well_formed mp_df cfg_df points :
  load_points float_repr mp_df cfg_df = Ok points → Forall well_formed points.
Proof.
  unfold load_points. intros (mapping & Hmap & Hrows)%bind_Ok.
  apply load_rows_Forall2 in Hrows as (pts & -> & Hall). simpl.
  apply Forall_forall. intros pt Hpt.
  apply list_elem_of_lookup in Hpt as [i Hi].
  destruct (Forall2_lookup_r _ _ _ _ _ Hall Hi) as (r & _ & Hr).
  by apply load_point_fields in Hr as (_ & _ & _ & ?).
Qed.

Lemma load_rows_raises mapping rs : ∀ acc e,
  load_rows float_repr mapping rs acc = Raise e →
  ∃ i r, rs !! i = Some r
         ∧ load_point float_repr mapping r = Raise e
         ∧ ∀ j r', (j < i)%nat → rs !! j = Some r' →
             ∃ pt, load_point float_repr mapping r' = Ok pt.
Proof.
  induction rs as [|r rs IH]; intros acc e; simpl; [done|].
  destruct (load_point float_repr mapping r) as [pt|e'] eqn:Hpt; simpl.
  - intros (i & r' & Hi & Hr' & Hbefore)%IH. exists (S i), r'.
    split_and!; [done..|]. intros [|j] r'' Hj; simpl.
    + intros [= <-]. by exists pt.
    + apply Hbefore. lia.
  - intros [= <-]. exists 0%nat, r. split_and!; [done..|]. intros; lia.
Qed.

(** When [load_points] raises, the exception is the one of the mapping
    sheet, or else the one of the first row of the configuration sheet that
    cannot be loaded; the rows before that one load. *)
Theorem load_points_first_error mp_df cfg_df e :
  load_points float_repr mp_df cfg_df = Raise e →
  build_mapping float_repr mp_df = Raise e
  ∨ ∃ mapping i r,
      build_mapping float_repr mp_df = Ok mapping
      ∧ rows cfg_df !! i = Some r
      ∧ load_point float_repr mapping r = Raise e
      ∧ ∀ j r', (j < i)%nat → rows cfg_df !! j = Some r' →
          ∃ pt, load_point float_repr mapping r' = Ok pt.
Proof.
  unfold load_points.
  destruct (build_mapping float_repr mp_df) as [mapping|e'] eqn:Hmap; simpl.
  - intros (i & r & Hi & Hr & Hbefore)%load_rows_raises. right.
    by exists mapping, i, r.
  - intros [= <-]. by left.
Qed.

End loader_facts.

Lemma load_point_unsupported_witness :
  load_point example_float_repr {[ "R" := [Segment.Build 0 0 8] ]}
    {[ "mem" := CStr "r"; "plc_addr" := CInt 3 ]}
  = Raise (ValueError (UnsupportedMem "R")).
Proof.
  apply (load_point_unsupported example_float_repr).
  exists (CStr "r"), 3, 3. by split_and!.
Defined.

Lemma load_points_rows_witness :
  ∃ mapping,
    build_mapping example_float_repr example_mapping_sheet = Ok mapping
    ∧ Forall2 (λ r pt,
        load_point example_float_repr mapping r = Ok pt
        ∧ (∃ c_mem, row_item r "mem" = Ok c_mem
              ∧ ModbusPoint.mem pt
                = upper (strip (py_str example_float_repr c_mem)))
        ∧ row_item r "plc_addr" ≫= parse_int = Ok (ModbusPoint.plc_addr pt)
        ∧ plc_to_modbus (ModbusPoint.mem pt) (ModbusPoint.plc_addr pt) mapping
          = Ok (ModbusPoint.offset pt))
        (rows example_config_sheet) example_points.
Proof.
  apply (load_points_rows example_float_repr example_mapping_sheet
           example_config_sheet example_points).
  reflexivity.
Defined.

Lemma load_points_well_formed_witness : Forall well_formed example_points.
Proof.
  apply (load_points_well_formed example_float_repr example_mapping_sheet
           example_config_sheet example_points).
  reflexivity.
Defined.

Lemma load_points_first_error_witness :
  build_mapping example_float_repr example_mapping_sheet
  = Raise (KeyError "Z")
  ∨ ∃ mapping i r,
      build_mapping example_float_repr example_mapping_sheet = Ok mapping
      ∧ rows example_bad_config_sheet !! i = Some r
      ∧ load_point example_float_repr mapping r = Raise (KeyError "Z")
      ∧ ∀ j r', (j < i)%nat → rows example_bad_config_sheet !! j = Some r' →
          ∃ pt, load_point example_float_repr mapping r' = Ok pt.
Proof.
  apply (load_points_first_error example_float_repr example_mapping_sheet
           example_bad_config_sheet (KeyError "Z")).
  reflexivity.
Defined.

(** ** The range of a decoded value *)

Lemma py_index_cases {A} (l : list A) i :
  (- Z.of_nat (length l) ≤ i < Z.of_nat (length l)
   ∧ ∃ a, py_index l i = Ok a
          ∧ l !! Z.to_nat (i `mod` Z.of_nat (length l)) = Some a)
  ∨ (¬ (- Z.of_nat (length l) ≤ i < Z.of_nat (length l))
     ∧ py_index l i = Raise IndexError).
Proof.
  unfold py_index. cbv zeta. set (n := Z.of_nat (length l)).
  destruct (decide (i < 0)) as [Hneg|Hpos].
  - destruct (decide (0 ≤ i + n < n)) as [Hin|Hout].
    + left. split; [lia|].
      destruct (lookup_lt_is_Some_2 l (Z.to_nat (i + n))) as [a Ha]; [lia|].
      exists a. rewrite Ha. split; [done|].
      replace (i `mod` n) with (i + n); [done|].
      apply Z.mod_unique with (-1); lia.
    + right. split; [lia|done].
  - destruct (decide (0 ≤ i < n)) as [Hin|Hout].
    + left. split; [lia|].
      destruct (lookup_lt_is_Some_2 l (Z.to_nat i)) as [a Ha]; [lia|].
      exists a. rewrite Ha. split; [done|].
      by rewrite Z.mod_small by lia.
    + right. split; [lia|done].
Qed.

Lemma py_index_elem {A} (l : list A) i a : py_index l i = Ok a → a ∈ l.
Proof.
  destruct (py_index_cases l i) as [(_ & a' & -> & Ha)|[_ ->]]; [|done].
  intros [= <-]. by eapply list_elem_of_lookup_2.
Qed.

Lemma lor_words low high :
  word16 low → Z.lor (Z.shiftl high 16) low = high * 65536 + low.
Proof.
  intros Hlow. rewrite Z.shiftl_mul_pow2 by lia.
  pose proof (Z.add_lor_land (high * 2 ^ 16) low) as Hadd.
  assert (Z.land (high * 2 ^ 16) low = 0) as Hz;
    [|rewrite Hz in Hadd; change (2 ^ 16) with 65536 in *; lia].
  clear Hadd. apply Z.bits_inj'. intros k Hk. rewrite Z.land_spec, Z.bits_0.
  destruct (decide (k < 16)) as [Hlt|Hge].
  - by rewrite Z.mul_pow2_bits_low.
  - rewrite andb_false_intro2; [done|].
    destruct (decide (low = 0)) as [->|Hne]; [apply Z.bits_0|].
    apply Z.bits_above_log2; [unfold word16 in Hlow; lia|].
    assert (Z.log2 low < 16); [|lia].
    apply Z.log2_lt_pow2; unfold word16 in Hlow; lia.
Qed.

Lemma u32_to_s32_range x :
  0 ≤ x < 4294967296 →
  -2147483648 ≤ _u32_to_s32 x ≤ 2147483647
  ∧ _u32_to_s32 x `mod` 4294967296 = x.
Proof.
  intros Hx. rewrite u32_to_s32_testbit.
  assert (Z.testbit x 31 = bool_decide (2147483648 ≤ x)) as ->.
  { rewrite Z.testbit_odd, Z.shiftr_div_pow2 by lia.
    change (2 ^ 31) with 2147483648. case_bool_decide.
    - assert (x `div` 2147483648 = 1) as -> by (Z.div_mod_to_equations; lia).
      done.
    - by rewrite Z.div_small by lia. }
  case_bool_decide.
  - split; [lia|]. symmetry. apply Z.mod_unique with (-1); lia.
  - split; [lia|]. apply Z.mod_small. lia.
Qed.

Lemma u16_to_s16_range x :
  word16 x →
  -32768 ≤ _u16_to_s16 x ≤ 32767 ∧ _u16_to_s16 x `mod` 65536 = x.
Proof.
  intros Hx. rewrite u16_to_s16_word by done. unfold word16 in Hx.
  case_decide.
  - split; [lia|]. apply Z.mod_small. lia.
  - split; [lia|]. symmetry. apply Z.mod_unique with (-1); lia.
Qed.

(** A decoded value lies in the range of the point's format when the
    registers are 16-bit words: 0 or 1 for a bit, -32768 to 32767 for a signed
    word, 0 to 65535 for an unsigned word, and -2147483648 to 2147483647 for a
    double word. *)
Theorem decode_value_range pt data v :
  _decode_value pt data = Ok v →
  (∀ regs, BatchData.regs data = Some regs → Forall word16 regs) →
  if decide (ModbusPoint.method pt ∈ ["read_coils"; "read_discrete_inputs"])
  then v = 0 ∨ v = 1
  else if decide (ModbusPoint.size pt = 1) then
    if decide (ModbusPoint.fmt pt = "s16") then -32768 ≤ v ≤ 32767
    else 0 ≤ v ≤ 65535
  else -2147483648 ≤ v ≤ 2147483647.
Proof.
  unfold _decode_value. intros (start & _ & Hdec)%bind_Ok Hwords.
  destruct (decide (ModbusPoint.method pt ∈ _)) as [Hbit|Hreg].
  - apply bind_Ok in Hdec as (bits & _ & Hdec).
    apply bind_Ok in Hdec as (b & _ & [= <-]). destruct b; auto.
  - destruct (decide (ModbusPoint.size pt = 1)) as [Hone|Htwo].
    + apply bind_Ok in Hdec as (regs & Hregs & Hdec).
      apply bind_Ok in Hdec as (raw & Hraw%py_index_elem & Hdec).
      assert (word16 raw) as Hw.
      { destruct (BatchData.regs data) as [regs'|] eqn:Hr; [|done].
        injection Hregs as ->. specialize (Hwords _ eq_refl).
        rewrite Forall_forall in Hwords. by apply Hwords. }
      destruct (decide (ModbusPoint.fmt pt = "s16")); injection Hdec as <-.
      * by apply u16_to_s16_range.
      * done.
    + apply bind_Ok in Hdec as (regs & Hregs & Hdec).
      apply bind_Ok in Hdec as (low & Hlow%py_index_elem & Hdec).
      apply bind_Ok in Hdec as (high & Hhigh%py_index_elem & [= <-]).
      assert (word16 low ∧ word16 high) as [Hwl Hwh].
      { destruct (BatchData.regs data) as [regs'|] eqn:Hr; [|done].
        injection Hregs as ->. specialize (Hwords _ eq_refl).
        rewrite Forall_forall in Hwords. split; by apply Hwords. }
      rewrite lor_words by done. apply u32_to_s32_range.
      unfold word16 in *. lia.
Qed.

Lemma decode_value_range_witness :
  _decode_value d102 (BatchData.Build (Some 100) None (Some [0; 0; 0x8000]))
  = Ok (-32768)
  ∧ -32768 ≤ -32768 ≤ 32767.
Proof.
  split; [reflexivity|].
  apply (decode_value_range d102
           (BatchData.Build (Some 100) None (Some [0; 0; 0x8000])) (-32768)).
  - reflexivity.
  - intros regs [= <-]. repeat constructor; unfold word16; lia.
Defined.

(** Decoding a register point loses nothing.  The value of a double word
    gives back the low word as its remainder modulo 65536 and the high word
    as the next sixteen bits; the value of a signed word is the word modulo
    65536, and the value of an unsigned word is the word. *)
Theorem decode_value_words pt start regs low high :
  ModbusPoint.method pt ∉ ["read_coils"; "read_discrete_inputs"] →
  py_index regs (ModbusPoint.offset pt - start) = Ok low →
  py_index regs (ModbusPoint.offset pt - start + 1) = Ok high →
  word16 low → word16 high →
  ∃ v, _decode_value pt (BatchData.Build (Some start) None (Some regs)) = Ok v
       ∧ if decide (ModbusPoint.size pt = 1) then
           if decide (ModbusPoint.fmt pt = "s16") then v `mod` 65536 = low
           else v = low
         else v `mod` 65536 = low ∧ (v `div` 65536) `mod` 65536 = high.
Proof.
  intros Hreg Hlow Hhigh Hwl Hwh. unfold _decode_value. simpl.
  rewrite decide_False by done.
  destruct (decide (ModbusPoint.size pt = 1)) as [Hone|Htwo]; simpl.
  - rewrite Hlow. simpl.
    destruct (decide (ModbusPoint.fmt pt = "s16")); eexists; (split; [done|]).
    + by apply u16_to_s16_range.
    + done.
  - rewrite Hlow. simpl. rewrite Hhigh. simpl. eexists. split; [done|].
    rewrite lor_words by done.
    destruct (u32_to_s32_range (high * 65536 + low)) as [_ Hmod];
      [unfold word16 in *; lia|].
    set (v := _u32_to_s32 (high * 65536 + low)) in *.
    unfold word16 in *.
    assert (v `mod` 65536 = (v `mod` 4294967296) `mod` 65536) as ->.
    { change 4294967296 with (65536 * 65536).
      rewrite Z.rem_mul_r by lia.
      rewrite Z.mul_comm, Z.mod_add by lia. by rewrite Z.mod_mod by lia. }
    assert ((v `div` 65536) `mod` 65536
            = (v `mod` 4294967296) `div` 65536) as ->.
    { change 4294967296 with (65536 * 65536).
      rewrite Z.rem_mul_r by lia.
      rewrite Z.mul_comm, Z.div_add by lia.
      rewrite (Z.div_small (v `mod` 65536)); [done|].
      apply Z.mod_pos_bound. lia. }
    rewrite Hmod. split.
    + rewrite Z.add_comm, Z.mod_add by lia. apply Z.mod_small. lia.
    + rewrite Z.add_comm, Z.div_add by lia. rewrite Z.div_small by lia. lia.
Qed.

Lemma decode_value_words_witness :
  ∃ v, _decode_value d100
         (BatchData.Build (Some 100) None (Some [0xFFFE; 0xFFFF; 0])) = Ok v
       ∧ if decide (ModbusPoint.size d100 = 1) then
           if decide (ModbusPoint.fmt d100 = "s16") then v `mod` 65536 = 0xFFFE
           else v = 0xFFFE
         else v `mod` 65536 = 0xFFFE ∧ (v `div` 65536) `mod` 65536 = 0xFFFF.
Proof.
  apply (decode_value_words d100 100 [0xFFFE; 0xFFFF; 0] 0xFFFE 0xFFFF).
  - apply (bool_decide_unpack _). by vm_compute.
  - reflexivity.
  - reflexivity.
  - unfold word16. lia.
  - unfold word16. lia.
Defined.

(** A point of one register decodes exactly when its index
    [offset - start] lies between [-n] and [n - 1] for [n] registers, and then
    from the register at that index modulo [n]: a negative index counts from
    the end of the list.  Outside that range decoding raises
    [IndexError]. *)
Theorem decode_value_index pt start regs :
  ModbusPoint.method pt ∉ ["read_coils"; "read_discrete_inputs"] →
  ModbusPoint.size pt = 1 →
  (- Z.of_nat (length regs) ≤ ModbusPoint.offset pt - start
     < Z.of_nat (length regs)
   ∧ ∃ raw, regs !! Z.to_nat ((ModbusPoint.offset pt - start)
                                `mod` Z.of_nat (length regs)) = Some raw
       ∧ _decode_value pt (BatchData.Build (Some start) None (Some regs))
         = Ok (if decide (ModbusPoint.fmt pt = "s16") then _u16_to_s16 raw
               else raw))
  ∨ (¬ (- Z.of_nat (length regs) ≤ ModbusPoint.offset pt - start
          < Z.of_nat (length regs))
     ∧ _decode_value pt (BatchData.Build (Some start) None (Some regs))
       = Raise IndexError).
Proof.
  intros Hreg Hone. unfold _decode_value. simpl.
  rewrite decide_False by done. rewrite decide_True by done. simpl.
  destruct (py_index_cases regs (ModbusPoint.offset pt - start))
    as [(Hin & raw & -> & Hraw)|[Hout ->]].
  - left. split; [done|]. exists raw. split; [done|]. simpl.
    by case_decide.
  - by right.
Qed.

Lemma decode_value_index_witness :
  (- Z.of_nat (length [7; 9; 11]) ≤ ModbusPoint.offset d102 - 103
     < Z.of_nat (length [7; 9; 11])
   ∧ ∃ raw, [7; 9; 11] !! Z.to_nat ((ModbusPoint.offset d102 - 103)
                                `mod` Z.of_nat (length [7; 9; 11])) = Some raw
       ∧ _decode_value d102 (BatchData.Build (Some 103) None (Some [7; 9; 11]))
         = Ok (if decide (ModbusPoint.fmt d102 = "s16") then _u16_to_s16 raw
               else raw))
  ∨ (¬ (- Z.of_nat (length [7; 9; 11]) ≤ ModbusPoint.offset d102 - 103
          < Z.of_nat (length [7; 9; 11]))
     ∧ _decode_value d102 (BatchData.Build (Some 103) None (Some [7; 9; 11]))
       = Raise IndexError).
Proof.
  apply (decode_value_index d102 103 [7; 9; 11]).
  - apply (bool_decide_unpack _). by vm_compute.
  - reflexivity.
Defined.

(** ** The outcome of a tick *)

Lemma batch_start_Ok bs pt s :
  _batch_start bs pt = Ok s →
  ∃ b, b ∈ bs ∧ batch_matches b pt ∧ s = Batch.start b.
Proof.
  induction bs as [|b bs IH]; simpl; [done|].
  destruct (decide _) as [Hm|_].
  - intros [= <-]. exists b. split; [left|done].
  - intros (b' & Hb' & Hm & ->)%IH. exists b'. split; [by right|done].
Qed.

Lemma batch_start_Raise bs pt e :
  _batch_start bs pt = Raise e →
  e = RuntimeError ∧ ∀ b, b ∈ bs → ¬ batch_matches b pt.
Proof.
  induction bs as [|b bs IH]; simpl.
  - intros [= <-]. split; [done|]. by intros b ?%elem_of_nil.
  - destruct (decide _) as [|Hm]; [done|].
    intros [-> Hnone]%IH. split; [done|].
    intros b' [->|Hb']%elem_of_cons; [done|by apply Hnone].
Qed.

Section tick_facts.
Context {Client : Type}.
Variable call : Client → string → Z → Z → result Response * Client.

Lemma read_batches_Raise batches : ∀ client bd e client',
  read_batches call client batches bd = (Raise e, client') →
  ∃ rrs, reads call client batches = (Ok <$> rrs) ++ [Raise e]
         ∧ (length rrs < length batches)%nat.
Proof.
  induction batches as [|b batches IH]; intros client bd e client'; simpl;
    [done|].
  destruct (call client _ _ _) as [[rr|e'] client0] eqn:Hcall.
  - intros (rrs & -> & Hlen)%IH. exists (rr :: rrs). split; [done|].
    simpl. lia.
  - intros [= <- <-]. exists []. split; [done|]. simpl. lia.
Qed.

Lemma reads_Raise batches : ∀ client bd rrs e,
  reads call client batches = (Ok <$> rrs) ++ [Raise e] →
  ∃ client', read_batches call client batches bd = (Raise e, client').
Proof.
  induction batches as [|b batches IH]; intros client bd rrs e; simpl.
  - by destruct rrs.
  - destruct (call client _ _ _) as [[rr|e'] client0] eqn:Hcall.
    + destruct rrs as [|rr' rrs]; [done|]. rewrite fmap_cons. simpl.
      intros [= <- Hrest]. by eapply IH.
    + destruct rrs as [|rr' rrs]; simpl.
      * intros [= <-]. by eexists.
      * done.
Qed.

Lemma read_batches_Ok batches : ∀ client bd bd' client',
  read_batches call client batches bd = (Ok bd', client') →
  ∃ rrs,
    reads call client batches = Ok <$> rrs
    ∧ ∀ key d, bd' !! key = Some d →
        bd !! key = Some d
        ∨ ∃ k b rr, batches !! k = Some b ∧ rrs !! k = Some rr
                    ∧ batch_key b = key ∧ d = batch_entry b rr.
Proof.
  induction batches as [|b batches IH]; intros client bd bd' client'; simpl.
  - intros [= <- <-]. exists []. split; [done|]. by left.
  - destruct (call client _ _ _) as [[rr|e'] client0] eqn:Hcall; [|done].
    intros (rrs & -> & Hbd)%IH. exists (rr :: rrs). split; [done|].
    intros key d [Hd|(k & b' & rr' & Hk & Hrr & Hkey & ->)]%Hbd.
    + apply lookup_insert_Some in Hd as [[<- <-]|[_ Hd]]; [|by left].
      right. by exists 0%nat, b, rr.
    + right. by exists (S k), b', rr'.
Qed.

Lemma point_value_Raise batches bd pt e :
  point_value batches bd pt = Raise e →
  e = RuntimeError ∧ ∀ b, b ∈ batches → ¬ batch_matches b pt.
Proof.
  unfold point_value.
  destruct (_batch_start batches pt) as [s|e'] eqn:Hs; simpl.
  - by case_match.
  - intros [= <-]. by eapply batch_start_Raise.
Qed.

Lemma row_values_Ok batches bd points : ∀ row_vals row,
  row_values batches bd points row_vals = Ok row →
  ∃ vals, row = row_vals ++ vals
          ∧ Forall2 (λ pt v, point_value batches bd pt = Ok v) points vals.
Proof.
  induction points as [|pt points IH]; intros row_vals row; simpl.
  - intros [= <-]. exists []. by rewrite app_nil_r.
  - intros (v & Hv & (vals & -> & Hvals)%IH)%bind_Ok.
    exists (v :: vals). rewrite <-app_assoc. split; [done|]. by constructor.
Qed.

Lemma row_values_Raise batches bd points : ∀ row_vals e,
  row_values batches bd points row_vals = Raise e →
  ∃ pt, pt ∈ points ∧ point_value batches bd pt = Raise e.
Proof.
  induction points as [|pt points IH]; intros row_vals e; simpl; [done|].
  destruct (point_value batches bd pt) as [v|e'] eqn:Hv; simpl.
  - intros (pt' & Hpt' & He)%IH. exists pt'. split; [by right|done].
  - intros [= <-]. exists pt. split; [left|done].
Qed.

Lemma tick_row_length batches points client row client' :
  tick call batches points client = (Ok row, client') →
  length row = length points.
Proof.
  unfold tick.
  destruct (read_batches _ _ _ _) as [[bd|e] client0]; [|done].
  intros [= (vals & -> & Hvals)%row_values_Ok _].
  apply Forall2_length in Hvals. by rewrite Hvals.
Qed.

Lemma point_value_total points bd pt :
  positive_sizes points → pt ∈ points →
  ∃ v, point_value (_make_batches points) bd pt = Ok v.
Proof.
  intros Hpos Hpt.
  destruct (point_value _ bd pt) as [v|e] eqn:Hv; [by exists v|].
  apply point_value_Raise in Hv as [_ Hnone].
  destruct (make_batches_member points pt Hpt) as (k & b & Hk & Hin).
  apply list_elem_of_lookup_2 in Hk.
  destruct (Hnone b Hk). by eapply member_matches.
Qed.

Lemma run_loop_appends batches points running :
  ∀ client written written' oe client',
  run_loop call batches points running client written = (written', oe, client') →
  ∃ rows, written' = written ++ rows
          ∧ Forall (λ row, length row = length points) rows.
Proof.
  induction running as [|[] running IH];
    intros client written written' oe client'; simpl.
  - intros [= <- _ _]. exists []. by rewrite app_nil_r.
  - destruct (tick call batches points client) as [[row|e] client0] eqn:Htick.
    + intros (rows & -> & Hall)%IH.
      exists (row :: rows). rewrite <-app_assoc. split; [done|].
      constructor; [by eapply tick_row_length|done].
    + intros [= <- _ _]. exists []. by rewrite app_nil_r.
  - intros [= <- _ _]. exists []. by rewrite app_nil_r.
Qed.

(** When every read of a tick returns, the tick gives a row with one value
    per point, also when footprints overlap: with batches made from the points
    (of positive width) the lookup of a batch never fails. *)
Theorem tick_total points client rrs :
  positive_sizes points →
  reads call client (_make_batches points) = Ok <$> rrs →
  ∃ row client',
    tick call (_make_batches points) points client = (Ok row, client')
    ∧ length row = length points.
Proof.
  intros Hpos Hreads.
  destruct (read_batches_lookup call _ _ _ ∅ Hreads)
    as (bd & client' & Hread & _).
  destruct (row_values_spec (_make_batches points) bd points [])
    as (vals & Hrow & Hvals).
  { intros pt Hpt. by apply point_value_total. }
  exists vals, client'. unfold tick. rewrite Hread, Hrow. split; [done|].
  by apply Forall2_length in Hvals.
Qed.

(** A read that raises ends the tick with its exception: no row is made,
    and the loop stops there with the rows written so far, whatever the flag
    [_running] would have been afterwards. *)
Theorem tick_read_raises batches points client rrs e :
  reads call client batches = (Ok <$> rrs) ++ [Raise e] →
  ∃ client',
    tick call batches points client = (Raise e, client')
    ∧ ∀ running written,
        run_loop call batches points (true :: running) client written
        = (written, Some e, client').
Proof.
  intros Hreads.
  destruct (reads_Raise _ _ ∅ _ _ Hreads) as [client' Hread].
  exists client'.
  assert (tick call batches points client = (Raise e, client')) as Htick
    by (unfold tick; by rewrite Hread).
  split; [done|]. intros running written. simpl. by rewrite Htick.
Qed.

(** With batches made from the points (of positive width), an exception
    leaves a tick only when a read raised it; the reads before that one
    returned, and those after it were not made. *)
Theorem tick_raises_from_read points client e client' :
  positive_sizes points →
  tick call (_make_batches points) points client = (Raise e, client') →
  ∃ rrs,
    reads call client (_make_batches points) = (Ok <$> rrs) ++ [Raise e]
    ∧ (length rrs < length (_make_batches points))%nat.
Proof.
  intros Hpos. unfold tick.
  destruct (read_batches _ _ _ _) as [[bd|e'] client0] eqn:Hread.
  - intros [= Hrow _]. apply row_values_Raise in Hrow as (pt & Hpt & Hraise).
    destruct (point_value_total points bd pt Hpos Hpt) as [v Hv]. congruence.
  - intros [= <- <-]. by apply read_batches_Raise in Hread.
Qed.

(** Each value of a row is -1, or it is decoded from a response of this
    tick that is not an error, to a read with the point's method that starts
    at the start of a batch whose range contains the point's offset; so the
    index used in decoding is never negative.  This holds of every list of
    batches. *)
Theorem tick_values batches points client row client' :
  tick call batches points client = (Ok row, client') →
  ∃ rrs,
    reads call client batches = Ok <$> rrs
    ∧ Forall2 (λ pt v,
        ∃ b', b' ∈ batches ∧ batch_matches b' pt
          ∧ (v = -1
             ∨ ∃ k b rr,
                 batches !! k = Some b ∧ rrs !! k = Some rr
                 ∧ batch_key b = batch_key b'
                 ∧ isError rr = false
                 ∧ BatchData.start (batch_entry b rr) = Some (Batch.start b')
                 ∧ _decode_value pt (batch_entry b rr) = Ok v))
        points row.
Proof.
  unfold tick.
  destruct (read_batches _ _ _ _) as [[bd|e] client0] eqn:Hread; [|done].
  intros [= (vals & -> & Hvals)%row_values_Ok _].
  apply read_batches_Ok in Hread as (rrs & Hreads & Hbd).
  exists rrs. split; [done|]. simpl.
  eapply Forall2_impl; [exact Hvals|]. intros pt v. unfold point_value.
  intros (s & (b' & Hb' & Hm & ->)%batch_start_Ok & Hv)%bind_Ok.
  exists b'. split_and!; [done..|].
  destruct Hm as [Hmeth Hrange]. rewrite <-Hmeth in Hv. fold (batch_key b') in Hv.
  destruct (bd !! batch_key b') as [d|] eqn:Hd; simpl in Hv;
    [|injection Hv as <-; by left].
  destruct (Hbd _ _ Hd) as [Hempty|(k & b & rr & Hk & Hrr & Hkey & ->)];
    [by rewrite lookup_empty in Hempty|].
  rewrite batch_entry_is_empty in Hv.
  destruct (isError rr) eqn:Herr; [injection Hv as <-; by left|].
  destruct (_decode_value pt (batch_entry b rr)) as [w|e] eqn:Hdec;
    simpl in Hv; injection Hv as <-; [|by left].
  right. exists k, b, rr. split_and!; [done..| |done].
  unfold batch_entry. rewrite Herr. injection Hkey as _ ->. by case_decide.
Qed.

(** The loop only adds rows to those written before; every row it adds has
    one value per point; it adds at most one row per round in which the flag
    is set, and exactly that many when no exception ends it. *)
Theorem run_loop_rows batches points running : ∀ client written written' oe client',
  run_loop call batches points running client written = (written', oe, client') →
  ∃ rows,
    written' = written ++ rows
    ∧ Forall (λ row, length row = length points) rows
    ∧ (length rows ≤ rounds running)%nat
    ∧ (oe = None ↔ length rows = rounds running).
Proof.
  induction running as [|[] running IH];
    intros client written written' oe client'; simpl.
  - intros [= <- <- _]. exists []. by rewrite app_nil_r.
  - destruct (tick call batches points client) as [[row|e] client0] eqn:Htick.
    + intros (rows & -> & Hall & Hlen & Hnone)%IH.
      exists (row :: rows). rewrite <-app_assoc. split_and!; [done| |simpl; lia|].
      * constructor; [by eapply tick_row_length|done].
      * rewrite Hnone. simpl. lia.
    + intros [= <- <- _]. exists []. rewrite app_nil_r. split_and!; [done..|simpl; lia|].
      simpl. split; [done|lia].
  - intros [= <- <- _]. exists []. by rewrite app_nil_r.
Qed.

End tick_facts.

Lemma tick_total_witness :
  ∃ row client',
    tick (stub_call 101) (_make_batches [d100; d101s]) [d100; d101s] tt
    = (Ok row, client')
    ∧ length row = length [d100; d101s].
Proof.
  apply (tick_total (stub_call 101) [d100; d101s] tt
           [{| isError := false; bits := [true]; registers := [7; 9; 11] |};
            {| isError := true; bits := []; registers := [] |}]).
  - repeat constructor.
  - reflexivity.
Defined.

Lemma tick_read_raises_witness :
  ∃ client',
    tick (raising_call 5) (_make_batches [d102; m5; d100]) [d102; m5; d100] tt
    = (Raise RuntimeError, client')
    ∧ ∀ running written,
        run_loop (raising_call 5) (_make_batches [d102; m5; d100])
          [d102; m5; d100] (true :: running) tt written
        = (written, Some RuntimeError, client').
Proof.
  apply (tick_read_raises (raising_call 5) (_make_batches [d102; m5; d100])
           [d102; m5; d100] tt
           [{| isError := false; bits := [true]; registers := [7; 9; 11] |}]
           RuntimeError).
  reflexivity.
Defined.

Lemma tick_raises_from_read_witness :
  ∃ rrs,
    reads (raising_call 5) tt (_make_batches [d102; m5; d100])
    = (Ok <$> rrs) ++ [Raise RuntimeError]
    ∧ (length rrs < length (_make_batches [d102; m5; d100]))%nat.
Proof.
  apply (tick_raises_from_read (raising_call 5) [d102; m5; d100] tt
           RuntimeError tt).
  - apply example_points_positive.
  - reflexivity.
Defined.

Lemma tick_values_witness :
  ∃ rrs,
    reads (stub_call 101) tt (_make_batches [d100; d101s]) = Ok <$> rrs
    ∧ Forall2 (λ pt v,
        ∃ b', b' ∈ _make_batches [d100; d101s] ∧ batch_matches b' pt
          ∧ (v = -1
             ∨ ∃ k b rr,
                 _make_batches [d100; d101s] !! k = Some b
                 ∧ rrs !! k = Some rr
                 ∧ batch_key b = batch_key b'
                 ∧ isError rr = false
                 ∧ BatchData.start (batch_entry b rr) = Some (Batch.start b')
                 ∧ _decode_value pt (batch_entry b rr) = Ok v))
        [d100; d101s] [589831; 9].
Proof.
  apply (tick_values (stub_call 101) (_make_batches [d100; d101s])
           [d100; d101s] tt [589831; 9] tt).
  reflexivity.
Defined.

Lemma run_loop_rows_witness :
  ∃ rows,
    [[11; -1; 589831]; [11; -1; 589831]] = [] ++ rows
    ∧ Forall (λ row, length row = length [d102; m5; d100]) rows
    ∧ (length rows ≤ rounds [true; true; false; true])%nat
    ∧ ((None : option exn) = None
       ↔ length rows = rounds [true; true; false; true]).
Proof.
  apply (run_loop_rows (stub_call 5) (_make_batches [d102; m5; d100])
           [d102; m5; d100] [true; true; false; true] tt []
           [[11; -1; 589831]; [11; -1; 589831]] None tt).
  reflexivity.
Defined.

(** ** Decimal text *)

Lemma chars_inj s1 s2 : chars s1 = chars s2 → s1 = s2.
Proof.
  revert s2. induction s1 as [|c s1 IH]; intros [|d s2] H; simplify_eq/=;
    [done|]. f_equal. by apply IH.
Qed.

Lemma chars_rev_app s1 s2 :
  chars (String.rev_app s1 s2) = reverse (chars s1) ++ chars s2.
Proof.
  revert s2. induction s1 as [|c s1 IH]; intros s2; simpl; [done|].
  by rewrite IH, reverse_cons, <-app_assoc.
Qed.

Lemma chars_rev s : chars (String.rev s) = reverse (chars s).
Proof. unfold String.rev. by rewrite chars_rev_app, app_nil_r. Qed.

Lemma chars_app s1 s2 : chars (s1 +:+ s2) = chars s1 ++ chars s2.
Proof. induction s1 as [|c s1 IH]; simpl; [done|]. by rewrite <-IH. Qed.

Lemma lstrip_no_space s :
  Forall (λ c, py_isspace c = false) (chars s) → lstrip s = s.
Proof. destruct s as [|c s]; [done|]. intros [Hc _]%Forall_cons. simpl. by rewrite Hc. Qed.

(** [strip] leaves a text without blanks as it is. *)
Lemma strip_no_space s :
  Forall (λ c, py_isspace c = false) (chars s) → strip s = s.
Proof.
  intros Hs. unfold strip. rewrite (lstrip_no_space s Hs).
  rewrite lstrip_no_space by (rewrite chars_rev; by apply Forall_reverse).
  apply chars_inj. by rewrite !chars_rev, reverse_involutive.
Qed.

Lemma map_string_id f s :
  Forall (λ c, f c = c) (chars s) → map_string f s = s.
Proof.
  induction s as [|c s IH]; [done|]. intros [Hc Hs]%Forall_cons.
  simpl. by rewrite Hc, IH.
Qed.

Lemma string_rev_involutive s : String.rev (String.rev s) = s.
Proof. apply chars_inj. by rewrite !chars_rev, reverse_involutive. Qed.

Lemma strip_blank_around s :
  s ≠ "" → Forall (λ c, py_isspace c = false) (chars s) →
  strip (" " +:+ s +:+ " ") = s.
Proof.
  intros Hne Hs. unfold strip.
  assert (lstrip (" " +:+ s +:+ " ") = s +:+ " ") as ->.
  { destruct s as [|c s]; [done|]. apply Forall_cons in Hs as [Hc _].
    simpl. by rewrite Hc. }
  assert (String.rev (s +:+ " ") = String " " (String.rev s)) as ->.
  { apply chars_inj. simpl.
    by rewrite !chars_rev, chars_app, reverse_app. }
  simpl. rewrite lstrip_no_space by (rewrite chars_rev; by apply Forall_reverse).
  apply string_rev_involutive.
Qed.

Lemma pretty_N_char_digit n : is_dec_digit (pretty_N_char n).
Proof.
  unfold is_dec_digit, pretty_N_char.
  repeat case_match; apply (bool_decide_unpack _); by vm_compute.
Qed.

Lemma pretty_N_go_chars (Q : ascii → Prop) x s :
  (∀ c, is_dec_digit c → Q c) →
  Forall Q (chars s) → Forall Q (chars (pretty_N_go x s)).
Proof.
  intros HQ. revert s. induction (N.lt_wf_0 x) as [x _ IH]; intros s Hs.
  destruct (N.eq_0_gt_0_cases x) as [->|Hx]; [by rewrite pretty_N_go_0|].
  rewrite pretty_N_go_step by done. apply IH; [by apply N.div_lt|].
  constructor; [|done]. apply HQ, pretty_N_char_digit.
Qed.

Lemma pretty_N_go_nonempty x s : (0 < x)%N → pretty_N_go x s ≠ "".
Proof.
  revert s. induction (N.lt_wf_0 x) as [x _ IH]; intros s Hx.
  rewrite pretty_N_go_step by done.
  destruct (N.eq_0_gt_0_cases (x `div` 10)) as [->|Hd].
  - by rewrite pretty_N_go_0.
  - apply IH; [by apply N.div_lt|done].
Qed.

Lemma digit_value_pretty n :
  (n < 10)%N →
  digit_value (pretty_N_char n) = Some (Z.of_N n)
  ∧ pretty_N_char n ≠ "_"%char.
Proof.
  intros Hn.
  assert (n = 0 ∨ n = 1 ∨ n = 2 ∨ n = 3 ∨ n = 4 ∨ n = 5 ∨ n = 6 ∨ n = 7
          ∨ n = 8 ∨ n = 9)%N as Hc by lia.
  repeat (destruct Hc as [->|Hc]; [by vm_compute|]). by subst.
Qed.

Lemma int_digits_pretty_N_go x s :
  int_digits 10 0 false (pretty_N_go x s) = int_digits 10 (Z.of_N x) false s.
Proof.
  revert s. induction (N.lt_wf_0 x) as [x _ IH]; intros s.
  destruct (N.eq_0_gt_0_cases x) as [->|Hx]; [by rewrite pretty_N_go_0|].
  rewrite pretty_N_go_step by done. rewrite IH by (by apply N.div_lt).
  destruct (digit_value_pretty (x `mod` 10)) as [Hd Hu];
    [by apply N.mod_lt|].
  cbn [int_digits]. rewrite bool_decide_eq_false_2 by done. rewrite Hd.
  assert ((Z.of_N (x `mod` 10) <? 10) = true) as ->.
  { apply Z.ltb_lt. pose proof (N.mod_lt x 10). lia. }
  f_equal. pose proof (N.div_mod x 10). lia.
Qed.

Lemma decimal_char_cases (P : ascii → Prop) :
  Forall P (chars "0123456789-") → ∀ c, c ∈ chars "0123456789-" → P c.
Proof. intros HP c Hc. rewrite Forall_forall in HP. by apply HP. Qed.

Lemma decimal_char_no_space c :
  c ∈ chars "0123456789-" → py_isspace c = false.
Proof.
  revert c. apply (decimal_char_cases (λ c, py_isspace c = false)).
  by repeat constructor.
Qed.

Lemma decimal_char_lower c : c ∈ chars "0123456789-" → lower_char c = c.
Proof.
  revert c. apply (decimal_char_cases (λ c, lower_char c = c)).
  by repeat constructor.
Qed.

Lemma decimal_char_no_hex c : c ∈ chars "0123456789-" → c ∉ hex_letters.
Proof.
  revert c. apply (decimal_char_cases (λ c, c ∉ hex_letters)).
  repeat constructor; apply (bool_decide_unpack _); by vm_compute.
Qed.

Lemma digit_is_decimal_char c : is_dec_digit c → c ∈ chars "0123456789-".
Proof.
  unfold is_dec_digit. intros Hc.
  change (chars "0123456789-") with (chars "0123456789" ++ ["-"%char]).
  apply elem_of_app. by left.
Qed.

Lemma decimal_text_strip s : decimal_text s → strip s = s.
Proof.
  intros Hs. apply strip_no_space. eapply Forall_impl; [exact Hs|].
  apply decimal_char_no_space.
Qed.

Lemma decimal_text_lower s : decimal_text s → lower s = s.
Proof.
  intros Hs. apply map_string_id. eapply Forall_impl; [exact Hs|].
  apply decimal_char_lower.
Qed.

Lemma decimal_text_no_hex s : decimal_text s → any_hex_letter s = false.
Proof.
  intros Hs. apply not_true_is_false. intros (c & Hc & Hhex)%any_hex_letter_true.
  unfold decimal_text in Hs. rewrite Forall_forall in Hs.
  by apply (decimal_char_no_hex c (Hs c Hc)).
Qed.

Lemma pretty_N_go_digits x :
  Forall is_dec_digit (chars (pretty_N_go x "")).
Proof. apply pretty_N_go_chars; [done|constructor]. Qed.

Lemma pretty_Z_decimal (z : Z) : decimal_text (pretty z).
Proof.
  unfold decimal_text, pretty, pretty_Z.
  destruct z as [|p|p].
  - repeat constructor.
  - unfold pretty, pretty_positive. unfold pretty, pretty_N.
    rewrite decide_False by done.
    eapply Forall_impl; [apply pretty_N_go_digits|].
    apply digit_is_decimal_char.
  - unfold pretty, pretty_positive. unfold pretty, pretty_N.
    rewrite decide_False by done.
    rewrite chars_app. apply Forall_app.
    split; [repeat constructor; apply (bool_decide_unpack _); by vm_compute|].
    eapply Forall_impl; [apply pretty_N_go_digits|].
    apply digit_is_decimal_char.
Qed.

Lemma pretty_Z_nonempty (z : Z) : pretty z ≠ "".
Proof.
  unfold pretty, pretty_Z. destruct z as [|p|p]; [done| |done].
  unfold pretty, pretty_positive. unfold pretty, pretty_N.
  rewrite decide_False by done. by apply pretty_N_go_nonempty.
Qed.

Lemma digit_cases (P : ascii → Prop) :
  Forall P (chars "0123456789") → ∀ c, is_dec_digit c → P c.
Proof. intros HP c Hc. rewrite Forall_forall in HP. by apply HP. Qed.

(** [int()] skips no more than [str.strip] removes. *)
Lemma int_isspace_py c : py_isspace c = false → int_isspace c = false.
Proof.
  unfold py_isspace, int_isspace. cbv zeta.
  destruct (N.leb_spec 9 (N_of_ascii c)), (N.leb_spec (N_of_ascii c) 13),
    (N.leb_spec 28 (N_of_ascii c)), (N.leb_spec (N_of_ascii c) 32),
    (N.eqb_spec (N_of_ascii c) 32); simpl; try done; lia.
Qed.

Lemma int_lstrip_no_space s :
  Forall (λ c, py_isspace c = false) (chars s) → int_lstrip s = s.
Proof.
  destruct s as [|c s]; [done|]. intros [Hc _]%Forall_cons. simpl.
  by rewrite (int_isspace_py c Hc).
Qed.

Lemma int_strip_no_space s :
  Forall (λ c, py_isspace c = false) (chars s) → int_strip s = s.
Proof.
  intros Hs. unfold int_strip. rewrite (int_lstrip_no_space s Hs).
  rewrite int_lstrip_no_space by (rewrite chars_rev; by apply Forall_reverse).
  apply string_rev_involutive.
Qed.

Lemma digit_count_digits s :
  Forall is_dec_digit (chars s) → digit_count s = Z.of_nat (String.length s).
Proof.
  induction s as [|c s IH]; [done|]. intros [Hc Hs]%Forall_cons.
  cbn [digit_count String.length]. rewrite IH by done.
  rewrite bool_decide_eq_false_2; [lia|].
  revert c Hc. apply (digit_cases (λ c, c ≠ "_"%char)). by repeat constructor.
Qed.

Lemma int_of_str_digits s :
  s ≠ "" → Forall is_dec_digit (chars s) →
  int_of_str 10 s
  = match int_digits 10 0 false s with
    | Some v =>
        if int_max_str_digits <? digit_count s
        then Raise (ValueError InvalidLiteral) else Ok v
    | None => Raise (ValueError InvalidLiteral)
    end.
Proof.
  intros Hne Hs. unfold int_of_str.
  rewrite int_strip_no_space.
  2:{ eapply Forall_impl; [exact Hs|]. intros c Hc.
      by apply decimal_char_no_space, digit_is_decimal_char. }
  destruct s as [|c s]; [done|]. apply Forall_cons in Hs as [Hc _].
  clear Hne. revert c Hc.
  apply (digit_cases (λ c,
    (let '(neg, body) :=
       match String c s with
       | String "-"%char r => (true, r)
       | String "+"%char r => (false, r)
       | _ => (false, String c s)
       end in
     let body := match body with
       | String "0"%char (String x r) =>
           if bool_decide (10 = 16)
              && (bool_decide (x = "x"%char) || bool_decide (x = "X"%char))
           then match r with String "_"%char r' => r' | _ => r end
           else body
       | _ => body
       end in
     match body with
     | EmptyString | String "_"%char _ => Raise (ValueError InvalidLiteral)
     | _ => match int_digits 10 0 false body with
            | Some v =>
                if bool_decide (10 = 10)
                   && (int_max_str_digits <? digit_count body)
                then Raise (ValueError InvalidLiteral)
                else Ok (if neg then - v else v)
            | None => Raise (ValueError InvalidLiteral)
            end
     end)
    = match int_digits 10 0 false (String c s) with
      | Some v =>
          if int_max_str_digits <? digit_count (String c s)
          then Raise (ValueError InvalidLiteral) else Ok v
      | None => Raise (ValueError InvalidLiteral)
      end)).
  repeat constructor; by destruct s.
Qed.

Lemma int_of_str_minus_digits s :
  s ≠ "" → Forall is_dec_digit (chars s) →
  int_of_str 10 (String "-" s)
  = match int_digits 10 0 false s with
    | Some v =>
        if int_max_str_digits <? digit_count s
        then Raise (ValueError InvalidLiteral) else Ok (- v)
    | None => Raise (ValueError InvalidLiteral)
    end.
Proof.
  intros Hne Hs. unfold int_of_str.
  rewrite int_strip_no_space.
  2:{ constructor; [done|]. eapply Forall_impl; [exact Hs|]. intros c Hc.
      by apply decimal_char_no_space, digit_is_decimal_char. }
  destruct s as [|c s]; [done|]. apply Forall_cons in Hs as [Hc _].
  clear Hne. revert c Hc.
  apply (digit_cases (λ c,
    (let '(neg, body) := (true, String c s) in
     let body := match body with
       | String "0"%char (String x r) =>
           if bool_decide (10 = 16)
              && (bool_decide (x = "x"%char) || bool_decide (x = "X"%char))
           then match r with String "_"%char r' => r' | _ => r end
           else body
       | _ => body
       end in
     match body with
     | EmptyString | String "_"%char _ => Raise (ValueError InvalidLiteral)
     | _ => match int_digits 10 0 false body with
            | Some v =>
                if bool_decide (10 = 10)
                   && (int_max_str_digits <? digit_count body)
                then Raise (ValueError InvalidLiteral)
                else Ok (if neg then - v else v)
            | None => Raise (ValueError InvalidLiteral)
            end
     end)
    = match int_digits 10 0 false (String c s) with
      | Some v =>
          if int_max_str_digits <? digit_count (String c s)
          then Raise (ValueError InvalidLiteral) else Ok (- v)
      | None => Raise (ValueError InvalidLiteral)
      end)).
  repeat constructor; by destruct s.
Qed.

(** The decimal text of a positive number has as many characters as the
    number has digits. *)
Lemma pretty_N_go_length x : ∀ s,
  (0 < x)%N →
  ∃ d : Z, Z.of_nat (String.length (pretty_N_go x s))
           = d + Z.of_nat (String.length s)
           ∧ 1 ≤ d ∧ 10 ^ (d - 1) ≤ Z.of_N x < 10 ^ d.
Proof.
  induction (N.lt_wf_0 x) as [x _ IH]; intros s Hx.
  rewrite pretty_N_go_step by done.
  destruct (N.eq_0_gt_0_cases (x `div` 10)) as [Hz|Hpos].
  - rewrite Hz, pretty_N_go_0. exists 1. cbn [String.length].
    split; [lia|]. split; [lia|]. change (10 ^ (1 - 1)) with 1.
    change (10 ^ 1) with 10.
    assert (x = x `mod` 10)%N as Hxm.
    { rewrite (N.div_mod x 10) at 1 by done. by rewrite Hz. }
    assert (x < 10)%N by (rewrite Hxm; by apply N.mod_lt).
    clear Hxm Hz IH. lia.
  - destruct (IH (x `div` 10)%N) with
      (s := String (pretty_N_char (x `mod` 10)) s)
      as (d & Hlen & Hd & Hlo & Hhi); [by apply N.div_lt|done|].
    exists (d + 1). rewrite Hlen. cbn [String.length].
    split; [lia|]. split; [lia|].
    replace (10 ^ (d + 1 - 1)) with (10 * 10 ^ (d - 1))
      by (rewrite <-Z.pow_succ_r by lia; f_equal; lia).
    replace (10 ^ (d + 1)) with (10 * 10 ^ d)
      by (rewrite <-Z.pow_succ_r by lia; f_equal; lia).
    assert (Z.of_N x = 10 * Z.of_N (x `div` 10) + Z.of_N (x `mod` 10)
            ∧ 0 ≤ Z.of_N (x `mod` 10) < 10) as [Hx1 Hx2].
    { split.
      - rewrite (N.div_mod x 10) at 1 by done.
        by rewrite N2Z.inj_add, N2Z.inj_mul.
      - pose proof (N.mod_lt x 10 ltac:(done)) as Hm. revert Hm.
        generalize (x `mod` 10)%N. clear. intros. lia. }
    clear IH Hlen. generalize dependent (10 ^ (d - 1)).
    generalize dependent (10 ^ d). intros. lia.
Qed.

Lemma decimal_digits_spec (z : Z) :
  1 ≤ decimal_digits z
  ∧ (z ≠ 0 → 10 ^ (decimal_digits z - 1) ≤ Z.abs z < 10 ^ decimal_digits z)
  ∧ (z = 0 → decimal_digits z = 1).
Proof.
  unfold decimal_digits.
  destruct z as [|p|p]; [by vm_compute| |];
    change (Z.abs _) with (Z.pos p);
    unfold pretty, pretty_Z; unfold pretty, pretty_positive;
    unfold pretty, pretty_N; rewrite decide_False by done;
    destruct (pretty_N_go_length (N.pos p) "") as (d & -> & Hd & Hb);
      [done| |done|]; cbn [String.length]; rewrite Z.add_0_r;
    (split; [done|]); (split; [|done]); intros _; exact Hb.
Qed.

Lemma decimal_digits_opp z : decimal_digits (- z) = decimal_digits z.
Proof. unfold decimal_digits. by rewrite Z.abs_opp. Qed.

Lemma int_of_str_pretty (z : Z) :
  int_of_str 10 (pretty z)
  = if decide (decimal_digits z ≤ int_max_str_digits) then Ok z
    else Raise (ValueError InvalidLiteral).
Proof.
  unfold decimal_digits.
  destruct z as [|p|p].
  - done.
  - change (Z.abs _) with (Z.pos p).
    unfold pretty, pretty_Z. unfold pretty, pretty_positive.
    unfold pretty, pretty_N. rewrite decide_False by done.
    rewrite int_of_str_digits;
      [|by apply pretty_N_go_nonempty|apply pretty_N_go_digits].
    rewrite int_digits_pretty_N_go. cbn [int_digits].
    rewrite digit_count_digits by apply pretty_N_go_digits.
    destruct (Z.ltb_spec int_max_str_digits
                (Z.of_nat (String.length (pretty_N_go (N.pos p) ""))));
      [by rewrite decide_False by lia|by rewrite decide_True by lia].
  - change (Z.abs _) with (Z.pos p).
    unfold pretty, pretty_Z. unfold pretty, pretty_positive.
    unfold pretty, pretty_N. rewrite decide_False by done.
    change ("-" +:+ ?s) with (String "-" s).
    rewrite int_of_str_minus_digits;
      [|by apply pretty_N_go_nonempty|apply pretty_N_go_digits].
    rewrite int_digits_pretty_N_go. cbn [int_digits].
    rewrite digit_count_digits by apply pretty_N_go_digits.
    destruct (Z.ltb_spec int_max_str_digits
                (Z.of_nat (String.length (pretty_N_go (N.pos p) ""))));
      [by rewrite decide_False by lia|by rewrite decide_True by lia].
Qed.

Lemma decimal_digits_le (z n : Z) :
  1 ≤ n → decimal_digits z ≤ n ↔ Z.abs z < 10 ^ n.
Proof.
  intros Hn. destruct (decimal_digits_spec z) as (Hd & Hnz & Hz).
  destruct (decide (z = 0)) as [->|Hne].
  - rewrite (Hz eq_refl). split; [intros _|lia].
    change (Z.abs 0) with 0. apply Z.pow_pos_nonneg; lia.
  - destruct (Hnz Hne) as [Hlo Hhi]. split.
    + intros Hle. eapply Z.lt_le_trans; [exact Hhi|].
      apply Z.pow_le_mono_r; lia.
    + intros Hlt.
      assert (10 ^ (decimal_digits z - 1) < 10 ^ n) as Hpow by lia.
      apply Z.pow_lt_mono_r_iff in Hpow; lia.
Qed.

(** [parse_int] and [int] read the decimal text of an integer back as that
    integer, also with blanks around it, as long as the integer is below
    [10 ^ 4300] in absolute value, that is, has at most 4300 digits; the
    decimal text of a larger integer is refused. *)
Theorem parse_int_decimal_round_trip (z : Z) :
  (Z.abs z < 10 ^ int_max_str_digits →
     parse_int (CStr (pretty z)) = Ok z
     ∧ int_of_cell (CStr (pretty z)) = Ok z
     ∧ parse_int (CStr (" " +:+ pretty z +:+ " ")) = Ok z)
  ∧ (10 ^ int_max_str_digits ≤ Z.abs z →
       parse_int (CStr (pretty z)) = Raise (ValueError InvalidLiteral)
       ∧ int_of_cell (CStr (pretty z)) = Raise (ValueError InvalidLiteral))
  ∧ (decimal_digits z ≤ int_max_str_digits
     ↔ Z.abs z < 10 ^ int_max_str_digits).
Proof.
  pose proof (pretty_Z_decimal z) as Hdec.
  pose proof (decimal_digits_le z int_max_str_digits ltac:(done)) as Hle.
  assert (parse_int (CStr (pretty z)) = int_of_str 10 (pretty z)) as Hparse.
  { unfold parse_int. cbn [str_of_text]. cbv zeta.
    rewrite decimal_text_strip by done. by rewrite decimal_text_no_hex. }
  split_and!; [| |done].
  - intros Hsmall%Hle. rewrite Hparse. cbn [int_of_cell].
    rewrite int_of_str_pretty, decide_True by done. split_and!; [done..|].
    unfold parse_int. cbn [str_of_text]. cbv zeta.
    rewrite strip_blank_around.
    + rewrite decimal_text_no_hex by done.
      by rewrite int_of_str_pretty, decide_True.
    + apply pretty_Z_nonempty.
    + eapply Forall_impl; [exact Hdec|]. apply decimal_char_no_space.
  - intros Hbig. rewrite Hparse. cbn [int_of_cell].
    rewrite int_of_str_pretty, decide_False; [done|].
    intros Hsmall%Hle. lia.
Qed.

Lemma parse_int_decimal_round_trip_witness :
  parse_int (CStr (pretty (-4100))) = Ok (-4100)
  ∧ int_of_cell (CStr (pretty (-4100))) = Ok (-4100)
  ∧ parse_int (CStr (" " +:+ pretty (-4100) +:+ " ")) = Ok (-4100).
Proof.
  apply (proj1 (parse_int_decimal_round_trip (-4100))).
  vm_compute. reflexivity.
Defined.

(** The comparison of [_normalize_type] on the decimal text of an integer:
    only 16 is a recognized hint. *)
Lemma normalize_type_decimal (z : Z) :
  (if decide (lower (strip (pretty z)) ∈ ["16"; "s16"; "int16"])
   then Ok "s16"
   else if decide (lower (strip (pretty z)) ∈ ["u16"; "uint16"])
   then Ok "u16" else Ok "")
  = (Ok (if decide (z = 16) then "s16" else "") : result string).
Proof.
  pose proof (pretty_Z_decimal z) as Hdec.
  rewrite decimal_text_strip, decimal_text_lower by done.
  assert (∀ t, (∃ c, c ∈ chars t ∧ c ∉ chars "0123456789-") → pretty z ≠ t)
    as Hletter.
  { intros t (c & Hc & Hnot) <-. unfold decimal_text in Hdec.
    rewrite Forall_forall in Hdec. by apply Hnot, Hdec. }
  assert (pretty z ≠ "s16" ∧ pretty z ≠ "int16" ∧ pretty z ≠ "u16"
          ∧ pretty z ≠ "uint16") as (H1 & H2 & H3 & H4).
  { split_and!; apply Hletter.
    - exists "s"%char. split; [left|]. apply (bool_decide_unpack _). by vm_compute.
    - exists "i"%char. split; [left|]. apply (bool_decide_unpack _). by vm_compute.
    - exists "u"%char. split; [left|]. apply (bool_decide_unpack _). by vm_compute.
    - exists "u"%char. split; [left|]. apply (bool_decide_unpack _). by vm_compute. }
  destruct (decide (z = 16)) as [->|Hz].
  - done.
  - assert (pretty z ≠ "16") as H0.
    { intros Heq. apply Hz. by apply (inj pretty). }
    rewrite decide_False.
    + rewrite decide_False; [done|].
      intros [?|[?|?%elem_of_nil]%elem_of_cons]%elem_of_cons; done.
    + intros [?|[?|[?|?%elem_of_nil]%elem_of_cons]%elem_of_cons]%elem_of_cons;
        done.
Qed.

(** A numeric hint gives ["s16"] exactly when its integer part is 16, and
    the empty text otherwise, never ["u16"]: a word point with a numeric hint
    is a signed word when the hint is 16 (or 16.5) and a double word for any
    other number. *)
Theorem normalize_type_number :
  (∀ z : Z, _normalize_type (CInt z) = Ok (if decide (z = 16) then "s16" else ""))
  ∧ (∀ f z, int_of_float f = Ok z →
       _normalize_type (CFloat f) = Ok (if decide (z = 16) then "s16" else ""))
  ∧ (∀ z : Z, point_type "D" (CInt z)
              = Ok (if decide (z = 16) then (1, "s16") else (2, "s32"))).
Proof.
  pose proof normalize_type_decimal as Htext.
  split_and!.
  - intros z. unfold _normalize_type. simpl. apply Htext.
  - intros f z Hf. unfold _normalize_type.
    destruct f as [s|s| |s m e]; try done; simpl in *.
    + injection Hf as <-. apply (Htext 0).
    + injection Hf as <-. apply Htext.
  - intros z. unfold point_type. rewrite decide_True by done.
    unfold _normalize_type. simpl. rewrite Htext. simpl.
    destruct (decide (z = 16)); [done|].
    rewrite decide_False by done. by rewrite decide_False.
Qed.

Lemma normalize_type_number_witness :
  _normalize_type (CFloat (S754_finite false 1 4)) = Ok "s16"
  ∧ _normalize_type (CFloat (S754_finite false 33 (-1))) = Ok "s16"
  ∧ _normalize_type (CFloat (S754_finite false 1 5)) = Ok "".
Proof.
  split_and!.
  - by apply (proj1 (proj2 normalize_type_number) (S754_finite false 1 4) 16).
  - by apply (proj1 (proj2 normalize_type_number)
                (S754_finite false 33 (-1)) 16).
  - by apply (proj1 (proj2 normalize_type_number) (S754_finite false 1 5) 32).
Defined.

(** The prefix [0x] does not make a text hexadecimal: a text that has the
    prefix and then only decimal digits holds no letter from A to F, is read
    in base 10, and is refused. *)
Theorem parse_int_hex_prefix_decimal x d :
  x = "x"%char ∨ x = "X"%char → Forall is_dec_digit (chars d) →
  parse_int (CStr (String "0" (String x d))) = Raise (ValueError InvalidLiteral).
Proof.
  intros Hx Hd.
  assert (Forall (λ c, py_isspace c = false) (chars (String "0" (String x d))))
    as Hsp.
  { simpl. constructor; [done|]. constructor; [by destruct Hx as [-> | ->]|].
    eapply Forall_impl; [exact Hd|]. intros c Hc.
    by apply decimal_char_no_space, digit_is_decimal_char. }
  unfold parse_int. cbn [str_of_text]. cbv zeta.
  rewrite strip_no_space by done.
  assert (any_hex_letter (String "0" (String x d)) = false) as ->.
  { apply not_true_is_false.
    intros (c & Hc & Hhex)%any_hex_letter_true. simpl in Hc.
    apply elem_of_cons in Hc as [->|Hc];
      [revert Hhex; apply (bool_decide_unpack _); by vm_compute|].
    apply elem_of_cons in Hc as [->|Hc];
      [revert Hhex; apply (bool_decide_unpack _);
       by destruct Hx as [-> | ->]; vm_compute|].
    rewrite Forall_forall in Hd.
    by apply (decimal_char_no_hex c (digit_is_decimal_char c (Hd c Hc))). }
  unfold int_of_str. rewrite int_strip_no_space by done.
  by destruct Hx as [-> | ->].
Qed.

Lemma parse_int_hex_prefix_decimal_witness :
  parse_int (CStr "0x10") = Raise (ValueError InvalidLiteral).
Proof.
  apply (parse_int_hex_prefix_decimal "x" "10"); [by left|].
  repeat constructor; apply (bool_decide_unpack _); by vm_compute.
Defined.

(** ** The encoding of every hint *)

(** Claim C6.  On a word point (memory [D]) the hints ["16"], ["s16"] and
    ["int16"] give a signed 16-bit point of width 1, the hints ["u16"] and
    ["uint16"] an unsigned 16-bit point of width 1, and an absent or
    unrecognized hint a signed 32-bit point of width 2; a point of any other
    memory is a bit of width 1 whatever the hint.  Text hints are compared
    after trimming and case folding, and unrecognized means: then none of the
    five.  A numeric hint is compared by the decimal text of its integer part,
    so that it gives the signed 16-bit point when that part is 16 and the
    signed 32-bit point otherwise, never the unsigned one.  A loaded point
    has the width and format so decided, and it is a word point exactly when
    it is read with [read_holding_registers].  One hint gets no encoding: on
    an infinite float [int()] raises [OverflowError], where the claim asks for
    the signed 32-bit point; every other hint gets one of the three
    encodings. *)
Theorem point_encoding :
  (∀ h, h ∈ ["16"; "s16"; "int16"] → point_type "D" (CStr h) = Ok (1, "s16"))
  ∧ (∀ h, h ∈ ["u16"; "uint16"] → point_type "D" (CStr h) = Ok (1, "u16"))
  ∧ (∀ h, lower (strip h) ∈ ["16"; "s16"; "int16"] →
       point_type "D" (CStr h) = Ok (1, "s16"))
  ∧ (∀ h, lower (strip h) ∈ ["u16"; "uint16"] →
       point_type "D" (CStr h) = Ok (1, "u16"))
  ∧ (∀ hint, isna hint = true → point_type "D" hint = Ok (2, "s32"))
  ∧ (∀ h, lower (strip h) ∉ recognized_hints →
       point_type "D" (CStr h) = Ok (2, "s32"))
  ∧ (∀ mem hint, mem ≠ "D" → point_type mem hint = Ok (1, "bit"))
  ∧ (∀ float_repr mapping r pt,
       load_point float_repr mapping r = Ok pt →
       point_type (ModbusPoint.mem pt) (row_get r "type")
       = Ok (ModbusPoint.size pt, ModbusPoint.fmt pt)
       ∧ (ModbusPoint.method pt = "read_holding_registers"
          → ModbusPoint.mem pt = "D")
       ∧ (ModbusPoint.method pt ∈ ["read_coils"; "read_discrete_inputs"]
          → ModbusPoint.mem pt ≠ "D"))
  ∧ (∀ z : Z,
       point_type "D" (CInt z)
       = Ok (if decide (z = 16) then (1, "s16") else (2, "s32")))
  ∧ (∀ f z, int_of_float f = Ok z →
       point_type "D" (CFloat f)
       = Ok (if decide (z = 16) then (1, "s16") else (2, "s32")))
  ∧ (∀ s, point_type "D" (CFloat (S754_infinity s)) = Raise OverflowError)
  ∧ (∀ hint,
       (∃ s, hint = CFloat (S754_infinity s))
       ∨ ∃ size fmt,
           point_type "D" hint = Ok (size, fmt)
           ∧ (size = 1 ∧ fmt ∈ ["s16"; "u16"] ∨ size = 2 ∧ fmt = "s32")).
Proof.
  assert (∀ hint z,
    _normalize_type hint = Ok (if decide (z = 16) then "s16" else "") →
    point_type "D" hint
    = Ok (if decide (z = 16) then (1, "s16") else (2, "s32"))) as Hnorm.
  { intros hint z Hn. unfold point_type. rewrite decide_True by done.
    rewrite Hn. simpl. destruct (decide (z = 16)); [done|].
    rewrite decide_False by done. by rewrite decide_False. }
  assert (∀ z : Z,
    point_type "D" (CInt z)
    = Ok (if decide (z = 16) then (1, "s16") else (2, "s32"))) as Hint.
  { intros z. apply Hnorm. unfold _normalize_type. simpl.
    apply normalize_type_decimal. }
  assert (∀ f z, int_of_float f = Ok z →
    point_type "D" (CFloat f)
    = Ok (if decide (z = 16) then (1, "s16") else (2, "s32"))) as Hfloat.
  { intros f z Hf. apply Hnorm. unfold _normalize_type.
    destruct f as [s|s| |s m e]; try done; simpl in *.
    - injection Hf as <-. apply (normalize_type_decimal 0).
    - injection Hf as <-. apply normalize_type_decimal. }
  split_and!.
  - intros h Hh. repeat (apply elem_of_cons in Hh as [->|Hh]; [by vm_compute|]).
    by apply elem_of_nil in Hh.
  - intros h Hh. repeat (apply elem_of_cons in Hh as [->|Hh]; [by vm_compute|]).
    by apply elem_of_nil in Hh.
  - intros h Hh. unfold point_type. simpl. rewrite normalize_type_text. simpl.
    by destruct (decide (_ ∈ ["16"; "s16"; "int16"])).
  - intros h Hh. unfold point_type. simpl. rewrite normalize_type_text. simpl.
    destruct (decide (_ ∈ ["16"; "s16"; "int16"])) as [Hin|_];
      [exfalso|by destruct (decide (_ ∈ ["u16"; "uint16"]))].
    revert Hin. generalize dependent (lower (strip h)). intros t Ht.
    repeat (apply elem_of_cons in Ht as [->|Ht]; [decide_by_compute|]).
    by apply elem_of_nil in Ht.
  - intros hint Hna. unfold point_type, _normalize_type. simpl.
    by rewrite Hna.
  - intros h Hh. unfold point_type. simpl. rewrite normalize_type_text. simpl.
    assert (∀ k : list string, k ⊆ recognized_hints → lower (strip h) ∉ k)
      as Hsub by (intros k Hk Hin; by apply Hh, Hk).
    destruct (decide (_ ∈ ["16"; "s16"; "int16"])) as [Hin|_].
    { exfalso. revert Hin. apply Hsub. intros x Hx.
      repeat (apply elem_of_cons in Hx as [->|Hx]; [decide_by_compute|]).
      by apply elem_of_nil in Hx. }
    destruct (decide (_ ∈ ["u16"; "uint16"])) as [Hin|_]; [|done].
    exfalso. revert Hin. apply Hsub. intros x Hx.
    repeat (apply elem_of_cons in Hx as [->|Hx]; [decide_by_compute|]).
    by apply elem_of_nil in Hx.
  - intros mem hint Hmem. unfold point_type. by rewrite decide_False.
  - intros float_repr mapping r pt Hload.
    apply load_point_type in Hload as [Hty Hm]. split; [done|].
    apply MEM_METHOD_lookup in Hm as [[Hmem Hmeth]|[Hmem Hmeth]]; split.
    + done.
    + rewrite Hmeth. intros Hin.
      repeat (apply elem_of_cons in Hin as [?|Hin]; [done|]).
      by apply elem_of_nil in Hin.
    + rewrite !elem_of_cons, elem_of_nil in Hmeth.
      intros Heq. rewrite Heq in Hmeth. by destruct Hmeth as [?|[?|?]].
    + done.
  - exact Hint.
  - exact Hfloat.
  - done.
  - intros hint.
    destruct (normalize_type_cases hint) as [(t & Ht & _ & _)|(s & -> & _)];
      [right|left; by exists s].
    destruct (point_type "D" hint) as [[size fmt]|e] eqn:Hty.
    + exists size, fmt. split; [done|]. by apply point_type_word in Hty.
    + unfold point_type in Hty. rewrite decide_True in Hty by done.
      rewrite Ht in Hty. simpl in Hty. by repeat case_decide.
Qed.

Lemma point_encoding_witness :
  point_type "D" (CStr "int16") = Ok (1, "s16")
  ∧ point_type "D" (CStr "uint16") = Ok (1, "u16")
  ∧ point_type "D" (CFloat S754_nan) = Ok (2, "s32")
  ∧ point_type "D" (CStr "float") = Ok (2, "s32")
  ∧ point_type "M" (CStr "16") = Ok (1, "bit")
  ∧ point_type "D" (CStr "u16") = Ok (1, "u16")
  ∧ point_type "D" (CInt 16) = Ok (1, "s16")
  ∧ point_type "D" (CFloat (S754_finite false 1 4)) = Ok (1, "s16")
  ∧ point_type "D" (CInt 32) = Ok (2, "s32")
  ∧ point_type "D" (CFloat (S754_infinity false)) = Raise OverflowError
  ∧ load_points example_float_repr example_mapping_sheet
      example_infinite_hint_sheet
    = Raise OverflowError.
Proof.
  destruct point_encoding
    as (Hs & Hu & _ & _ & Hna & Hun & Hbit & Hload & Hint & Hfloat & Hinf & _).
  split_and!.
  - apply Hs. decide_by_compute.
  - apply Hu. decide_by_compute.
  - by apply Hna.
  - apply Hun. decide_by_compute.
  - by apply Hbit.
  - destruct (Hload (λ _, "nan")
      ({[ "D" := [Segment.Build 0 0 100] ]} : gmap string (list Segment.t))
      ({[ "mem" := CStr "d"; "plc_addr" := CInt 7; "type" := CStr "u16" ]}
         : gmap string cell)
      (ModbusPoint.Build "D7" "read_holding_registers" 7 1 "u16" "D" 7))
      as [Hty _]; [reflexivity|exact Hty].
  - exact (Hint 16).
  - exact (Hfloat (S754_finite false 1 4) 16 eq_refl).
  - exact (Hint 32).
  - exact (Hinf false).
  - reflexivity.
Defined.

(** ** The outputs of [run] *)

Section run_facts.
Context {Client : Type}.
Variable call : Client → string → Z → Z → result Response * Client.
Variable connect : Client → result bool * Client.
Variable timestamp : nat → string.

Lemma app_self_nil {A} (l k : list A) : l = l ++ k → k = [].
Proof. intros H. apply (app_inv_head l). by rewrite app_nil_r. Qed.

Lemma run_rows_run_loop batches points running :
  ∀ client n written rows e client',
  run_loop call batches points running client written
  = (written ++ rows, e, client') →
  run_rows call timestamp batches points running client n
  = (rows_output timestamp n rows, e, client').
Proof.
  induction running as [|[] running IH];
    intros client n written rows e client'; simpl.
  - intros [= Hw <- <-]. by apply app_self_nil in Hw as ->.
  - destruct (tick call batches points client) as [[row|e'] client0] eqn:Htick.
    + intros Hloop.
      destruct (run_loop_appends call _ _ _ _ _ _ _ _ Hloop)
        as (rows' & Hrows & _).
      rewrite <-app_assoc in Hrows. apply app_inv_head in Hrows as ->.
      rewrite app_assoc in Hloop.
      by rewrite (IH _ (S n) _ _ _ _ Hloop).
    + intros [= Hw <- <-]. by apply app_self_nil in Hw as ->.
  - intros [= Hw <- <-]. by apply app_self_nil in Hw as ->.
Qed.

Lemma written_rows_app out1 out2 :
  written_rows (out1 ++ out2) = written_rows out1 ++ written_rows out2.
Proof.
  induction out1 as [|[] out1 IH]; simpl; [done|try done..].
  by rewrite IH.
Qed.

Lemma rows_output_spec (points : list ModbusPoint.t) n (rows : list (list Z)) :
  Forall (λ row, length row = length points) rows →
  still_open (rows_output timestamp n rows)
  ∧ Forall (λ fields, length fields = S (length points))
      (written_rows (rows_output timestamp n rows))
  ∧ ∀ e, LogError e ∉ rows_output timestamp n rows.
Proof.
  intros Hrows. revert n.
  induction Hrows as [|row rows Hrow _ IH]; intros n; simpl.
  - split_and!; [split; apply not_elem_of_nil|constructor|].
    intros e. apply not_elem_of_nil.
  - destruct (IH (S n)) as ([Hc Hf] & Hlen & Herr). split_and!.
    + split; intros [?|[?|?]%elem_of_cons]%elem_of_cons; done.
    + constructor; [|done]. simpl. by rewrite length_fmap, Hrow.
    + intros e [?|[?|?]%elem_of_cons]%elem_of_cons; [done..|].
      by apply (Herr e).
Qed.

(** After a successful connection [run] announces the file and writes the
    header, the text [timestamp] and then the labels of the points; for each
    row of the loop it writes the row after its time and logs the same time
    and values; it ends with the exception, if one left the loop, then closes
    the client and emits [finished]. *)
Theorem run_output batches points running client rows e client0 client' :
  connect client = (Ok true, client0) →
  run_loop call batches points running client0 [] = (rows, e, client') →
  run call connect timestamp batches points running client
  = (LogFile
     :: WriteRow (CStr "timestamp" :: (CStr ∘ ModbusPoint.label <$> points))
     :: rows_output timestamp 0 rows ++ run_end e,
     client').
Proof.
  intros Hconn Hloop. unfold run. rewrite Hconn.
  by rewrite (run_rows_run_loop _ _ _ _ 0%nat [] rows e client' Hloop).
Qed.

(** However [run] goes (the connection fails or raises, the loop ends or
    raises), it closes the client once and emits [finished] once, as the last
    two things it does; an exception is logged right before that and nowhere
    else; and every row handed to the writer, the header too, has one field
    more than there are points. *)
Theorem run_finishes batches points running client out client' :
  run call connect timestamp batches points running client = (out, client') →
  ∃ body e,
    out = body ++ run_end e
    ∧ still_open body
    ∧ (∀ e', LogError e' ∉ body)
    ∧ Forall (λ fields, length fields = S (length points)) (written_rows out).
Proof.
  unfold run.
  destruct (connect client) as [[[]|e] client0] eqn:Hconn.
  - destruct (run_loop call batches points running client0 [])
      as [[rows e] client1] eqn:Hloop.
    rewrite (run_rows_run_loop _ _ _ _ 0%nat [] rows e client1 Hloop).
    destruct (run_loop_appends call _ _ _ _ _ _ _ _ Hloop)
      as (rows' & Hrows & Hlen).
    simpl in Hrows. subst rows'.
    destruct (rows_output_spec points 0 rows Hlen) as ([Hc Hf] & Hw & Herr).
    intros [= <- <-]. eexists (_ :: _ :: rows_output timestamp 0 rows), e.
    split_and!.
    + done.
    + split; intros [?|[?|?]%elem_of_cons]%elem_of_cons; done.
    + intros e' [?|[?|?]%elem_of_cons]%elem_of_cons; [done..|].
      by apply (Herr e').
    + simpl. constructor; [simpl; by rewrite length_fmap|].
      rewrite written_rows_app. apply Forall_app. split; [done|].
      unfold run_end. destruct e; constructor.
  - intros [= <- <-]. exists [LogConnectFailed], None. split_and!.
    + done.
    + split; intros [?|?%elem_of_nil]%elem_of_cons; done.
    + intros e' [?|?%elem_of_nil]%elem_of_cons; done.
    + constructor.
  - intros [= <- <-]. exists [], (Some e). split_and!.
    + done.
    + split; apply not_elem_of_nil.
    + intros e'. apply not_elem_of_nil.
    + constructor.
Qed.

End run_facts.

Lemma run_output_witness :
  run (stub_call 5) (λ client, (Ok true, client)) (λ n, pretty n)
    (_make_batches [d102; m5; d100]) [d102; m5; d100] [true; false] tt
  = ([LogFile;
      WriteRow [CStr "timestamp"; CStr "D102"; CStr "M5"; CStr "D100"];
      WriteRow [CStr "0"; CInt 11; CInt (-1); CInt 589831];
      LogRow "0" [11; -1; 589831];
      ClientClose; EmitFinished], tt).
Proof.
  exact (run_output (stub_call 5) (λ client, (Ok true, client)) (λ n, pretty n)
           (_make_batches [d102; m5; d100]) [d102; m5; d100] [true; false] tt
           [[11; -1; 589831]] None tt tt eq_refl eq_refl).
Defined.

Lemma run_finishes_witness :
  ∃ body e,
    [LogFile;
     WriteRow [CStr "timestamp"; CStr "D102"; CStr "M5"; CStr "D100"];
     LogError RuntimeError; ClientClose; EmitFinished]
    = body ++ run_end e
    ∧ still_open body
    ∧ (∀ e', LogError e' ∉ body)
    ∧ Forall (λ fields, length fields = S (length [d102; m5; d100]))
        (written_rows
           [LogFile;
            WriteRow [CStr "timestamp"; CStr "D102"; CStr "M5"; CStr "D100"];
            LogError RuntimeError; ClientClose; EmitFinished]).
Proof.
  apply (run_finishes (raising_call 5) (λ client, (Ok true, client))
           (λ n, pretty n) (_make_batches [d102; m5; d100]) [d102; m5; d100]
           [true; true] tt _ tt).
  reflexivity.
Defined.

(** ** The window *)

Lemma after_snoc evs ev :
  MainWindow.after (evs ++ [ev])
  = MainWindow.handle (MainWindow.after evs) ev.
Proof. unfold MainWindow.after. by rewrite fold_left_app. Qed.

(** After any events the button [Start] is enabled exactly when the window
    holds no worker.  A worker the window holds has the batches made from its
    points and an interval that is not below 0.05; while it has not been
    stopped the button [Stop] is enabled, and, as long as the window was not
    closed, the button [Stop] is enabled only while it has not been
    stopped. *)
Theorem window_invariant evs :
  (MainWindow.start_enabled (MainWindow.after evs) = true
   ↔ MainWindow.worker (MainWindow.after evs) = None)
  ∧ (∀ w, MainWindow.worker (MainWindow.after evs) = Some w →
       ModbusWorker._batches w = _make_batches (ModbusWorker.points w)
       ∧ SFltb (ModbusWorker.interval w) min_interval = false
       ∧ (ModbusWorker._running w = true →
          MainWindow.stop_enabled (MainWindow.after evs) = true)
       ∧ (MainWindow.stop_enabled (MainWindow.after evs) = true →
          MainWindow.WindowClosed ∉ evs → ModbusWorker._running w = true)).
Proof.
  induction evs as [|ev evs IH] using rev_ind.
  - split; [done|]. by intros w.
  - rewrite after_snoc. destruct IH as [Hstart Hworker].
    destruct (MainWindow.after evs) as [[w0|] se pe] eqn:Hafter; simpl in *.
    + destruct (Hworker w0 eq_refl) as (Hb & Hi & Hrun & Hstop).
      assert (se = false) as ->.
      { destruct se; [|done]. by pose proof (proj1 Hstart eq_refl). }
      destruct ev as [interval loaded| | |]; simpl.
      * split; [done|]. intros w [= <-]. split_and!; [done..|].
        intros Hpe Hclosed. apply Hstop; [done|].
        intros Hin. apply Hclosed, elem_of_app. by left.
      * split; [done|]. intros w [= <-]. by split_and!.
      * split; [done|]. by intros w.
      * split; [done|]. intros w [= <-]. split_and!; [done..|].
        intros _ Hclosed. destruct Hclosed. apply elem_of_app. right. left.
    + assert (se = true) as -> by (by apply Hstart).
      destruct ev as [interval loaded| | |];
        [|simpl; split; [done|]; by intros w..].
      unfold MainWindow.handle, MainWindow.start_poll.
      cbn [MainWindow.worker].
      destruct (SFltb interval min_interval) eqn:Hint;
        [simpl; split; [done|]; by intros w|].
      destruct loaded as [points|e]; [|simpl; split; [done|]; by intros w].
      cbn [MainWindow.worker MainWindow.start_enabled MainWindow.stop_enabled].
      split; [done|]. intros w [= <-]. by split_and!.
Qed.

(** A worker that finishes without a click on [Stop] leaves both buttons
    enabled and no worker: [on_finished] does not disable [Stop].  A click on
    [Stop] then changes nothing. *)
Theorem window_stop_stale evs interval points :
  MainWindow.worker (MainWindow.after evs) = None →
  SFltb interval min_interval = false →
  let self :=
    MainWindow.after
      (evs ++ [MainWindow.StartClicked interval (Ok points);
               MainWindow.WorkerFinished]) in
  MainWindow.worker self = None
  ∧ MainWindow.start_enabled self = true
  ∧ MainWindow.stop_enabled self = true
  ∧ MainWindow.stop_poll self = self.
Proof.
  intros Hnone Hint. cbv zeta.
  change (evs ++ [MainWindow.StartClicked interval (Ok points);
                  MainWindow.WorkerFinished])
    with (evs ++ [MainWindow.StartClicked interval (Ok points)]
              ++ [MainWindow.WorkerFinished]).
  rewrite app_assoc, !after_snoc. simpl.
  unfold MainWindow.start_poll. rewrite Hnone, Hint. done.
Qed.

Lemma window_stop_stale_witness :
  let self :=
    MainWindow.after
      ([] ++ [MainWindow.StartClicked (S754_finite false 1 0) (Ok [d100]);
              MainWindow.WorkerFinished]) in
  MainWindow.worker self = None
  ∧ MainWindow.start_enabled self = true
  ∧ MainWindow.stop_enabled self = true
  ∧ MainWindow.stop_poll self = self.
Proof.
  exact (window_stop_stale [] (S754_finite false 1 0) [d100] eq_refl eq_refl).
Defined.
